(** * Verification of the exam-extraction core

    Shallow embedding of
    - [src/services/ocrService.js]: the text repair utility
      ([cleanOCRText], [cleanJsonString], [parseJsonSafely]) and the OCR
      gateway (the constructor, [extractText], [extractTextBatch]);
    - the post-processing pipeline of the extraction server
      ([mergeDuplicateParts], [validateAndFixStructure],
      [linkMatchingQuestions], [standardizeQuestionIds],
      [enforceQuestionNumbering], [validateRequiredFields]), its image
      stages ([detectMapImage], [injectImageObjects],
      [processBase64Images]), and the extraction endpoints that run it
      (the completion loop and the sequence of the stages).

    JavaScript strings are sequences of UTF-16 code units, an absent
    property is [None], and a thrown exception is an explicit [Throw]
    result. Numbers are integers: the doubles of JavaScript agree with
    them, in arithmetic and in print, on the integers of moderate size,
    and the statements about part numbers carry that bound ([tame]).
    The source files are read as UTF-8, character by character as they
    stand, also where a literal shows the traces of an earlier wrong
    decoding. *)

From Stdlib Require Import ZArith NArith Ascii String DecimalString Btauto.
From stdpp Require Import base list numbers sorting.

Local Open Scope Z_scope.

(* ================================================================== *)
(** ** JavaScript strings *)
(* ================================================================== *)

Module Js.

(** A string is the list of its UTF-16 code units. *)
Definition jsstring : Type := list N.

(** ASCII literal to JavaScript string. *)
Fixpoint js (s : string) : jsstring :=
  match s with
  | EmptyString => []
  | String a s' => N_of_ascii a :: js s'
  end.

Definition code (a : ascii) : N := N_of_ascii a.

Definition ch (a : ascii) (c : N) : bool := N.eqb c (code a).

Definition between (lo hi : N) (c : N) : bool := N.leb lo c && N.leb c hi.

Definition is_digit : N -> bool := between 48 57.
Definition is_upper : N -> bool := between 65 90.
Definition is_lower : N -> bool := between 97 122.
Definition is_alpha (c : N) : bool := is_upper c || is_lower c.
Definition is_word (c : N) : bool := is_alpha c || is_digit c || ch "_" c.

Definition en_dash : N := 8211.
Definition em_dash : N := 8212.

(** The class [\s] of ECMAScript: WhiteSpace and LineTerminator. It is
    also the set that [String.prototype.trim] strips. *)
Definition is_space (c : N) : bool :=
  between 9 13 c || N.eqb c 32 || N.eqb c 160 || N.eqb c 5760
  || between 8192 8202 c || N.eqb c 8232 || N.eqb c 8233
  || N.eqb c 8239 || N.eqb c 8287 || N.eqb c 12288 || N.eqb c 65279.

Definition is_newline (c : N) : bool := N.eqb c 10.

(** [.] without the [s] flag: anything but a line terminator. *)
Definition is_dot (c : N) : bool :=
  negb (N.eqb c 10 || N.eqb c 13 || N.eqb c 8232 || N.eqb c 8233).

Definition any (c : N) : bool := true.

(** A letter under the [i] flag (no [u] flag): only the two ASCII cases
    are identified. *)
Definition is_ci (a : ascii) (c : N) : bool :=
  let x := code a in
  N.eqb c x
  || (is_upper x && N.eqb c (x + 32))
  || (is_lower x && N.eqb c (x - 32)).

Definition space : jsstring := [32%N].

(** [String.prototype.trim]. *)
Fixpoint trimStart (s : jsstring) : jsstring :=
  match s with
  | c :: s' => if is_space c then trimStart s' else s
  | [] => []
  end.

Definition trim (s : jsstring) : jsstring :=
  rev (trimStart (rev (trimStart s))).

(** [s.substring(0, n)]. *)
Definition substring0 (n : nat) (s : jsstring) : jsstring := take n s.

(** Decimal rendering of an integer, as a template literal prints it. *)
Definition string_of_Z (z : Z) : jsstring :=
  js (NilZero.string_of_int (Z.to_int z)).

End Js.

Import Js.

(* ================================================================== *)
(** ** Regular expressions

    A backtracking matcher for the fragment of ECMAScript regular
    expressions that the sources use: character classes, greedy and lazy
    star and [?] over a class, concatenation, capturing groups, [^] and a
    one-character lookahead. *)
(* ================================================================== *)

Module Regex.

Inductive regex : Type :=
| Eps
| Chr (p : N -> bool)
| Star (p : N -> bool)
| LazyStar (p : N -> bool)
| Opt (p : N -> bool)
| Cat (r1 r2 : regex)
| Grp (r : regex)
| Bol
| Ahead (p : N -> bool).

(** Matcher state: whether the position is the start of the input, the
    text still to read, the captures closed so far. *)
Record mstate : Type := MState {
  at_start : bool;
  rest : jsstring;
  caps : list jsstring
}.

Definition taken (before after : jsstring) : jsstring :=
  take (length before - length after)%nat before.

(** Greedy star: the longest run first, shorter ones on backtracking. *)
Fixpoint star_greedy (p : N -> bool) (k : mstate -> option mstate)
    (cs : list jsstring) (b : bool) (s : jsstring) : option mstate :=
  match s with
  | c :: s' =>
      if p c then
        match star_greedy p k cs false s' with
        | Some r => Some r
        | None => k (MState b s cs)
        end
      else k (MState b s cs)
  | [] => k (MState b s cs)
  end.

(** Lazy star: the shortest run first. *)
Fixpoint star_lazy (p : N -> bool) (k : mstate -> option mstate)
    (cs : list jsstring) (b : bool) (s : jsstring) : option mstate :=
  match k (MState b s cs) with
  | Some r => Some r
  | None =>
      match s with
      | c :: s' => if p c then star_lazy p k cs false s' else None
      | [] => None
      end
  end.

Fixpoint rmatch (r : regex) (k : mstate -> option mstate) (st : mstate)
    : option mstate :=
  match r with
  | Eps => k st
  | Chr p =>
      match rest st with
      | c :: s' => if p c then k (MState false s' (caps st)) else None
      | [] => None
      end
  | Star p => star_greedy p k (caps st) (at_start st) (rest st)
  | LazyStar p => star_lazy p k (caps st) (at_start st) (rest st)
  | Opt p =>
      match rest st with
      | c :: s' =>
          if p c then
            match k (MState false s' (caps st)) with
            | Some r => Some r
            | None => k st
            end
          else k st
      | [] => k st
      end
  | Cat r1 r2 => rmatch r1 (rmatch r2 k) st
  | Grp r1 =>
      rmatch r1
        (fun st' =>
           k (MState (at_start st') (rest st')
                (caps st' ++ [taken (rest st) (rest st')])))
        st
  | Bol => if at_start st then k st else None
  | Ahead p =>
      match rest st with
      | c :: _ => if p c then k st else None
      | [] => None
      end
  end.

(** A match attempt at the current position: the text after the match
    and the captures. *)
Definition match_here (r : regex) (b : bool) (s : jsstring)
    : option (jsstring * list jsstring) :=
  match rmatch r Some (MState b s []) with
  | Some st => Some (rest st, caps st)
  | None => None
  end.

(** [s.replace(/r/g, repl)]: scan left to right; after a match of
    length [m] the scan resumes [m] code units further (one further,
    copying the code unit, when the match is empty). [skip] counts the
    code units of the current match still to be dropped. *)
Fixpoint replace_from (r : regex)
    (repl : jsstring -> list jsstring -> jsstring)
    (b : bool) (skip : nat) (s : jsstring) : jsstring :=
  match skip with
  | S n =>
      match s with
      | _ :: s' => replace_from r repl false n s'
      | [] => []
      end
  | O =>
      match match_here r b s with
      | Some (after, cs) =>
          repl (taken s after) cs ++
          match length (taken s after) with
          | O =>
              match s with
              | c :: s' => c :: replace_from r repl false 0 s'
              | [] => []
              end
          | S m =>
              match s with
              | _ :: s' => replace_from r repl false m s'
              | [] => []
              end
          end
      | None =>
          match s with
          | c :: s' => c :: replace_from r repl false 0 s'
          | [] => []
          end
      end
  end.

Definition replace_all (r : regex)
    (repl : jsstring -> list jsstring -> jsstring) (s : jsstring)
    : jsstring :=
  replace_from r repl true 0 s.

(** [s.match(/r/)] without the [g] flag: the leftmost match. *)
Fixpoint find_from (r : regex) (b : bool) (s : jsstring)
    : option jsstring :=
  match match_here r b s with
  | Some (after, _) => Some (taken s after)
  | None =>
      match s with
      | _ :: s' => find_from r false s'
      | [] => None
      end
  end.

Definition first_match (r : regex) (s : jsstring) : option jsstring :=
  find_from r true s.

(** Pattern builders. *)
Definition plus (p : N -> bool) : regex := Cat (Chr p) (Star p).

Fixpoint lit (s : string) : regex :=
  match s with
  | EmptyString => Eps
  | String a s' => Cat (Chr (ch a)) (lit s')
  end.

Fixpoint lit_ci (s : string) : regex :=
  match s with
  | EmptyString => Eps
  | String a s' => Cat (Chr (is_ci a)) (lit_ci s')
  end.

Definition seq (rs : list regex) : regex := foldr Cat Eps rs.

(** Replacement templates. *)
Definition always (t : jsstring) : jsstring -> list jsstring -> jsstring :=
  fun _ _ => t.

Definition cap (i : nat) (cs : list jsstring) : jsstring :=
  default [] (cs !! i).

End Regex.

Import Regex.

(* ================================================================== *)
(** ** Text repair utility: [cleanOCRText] *)
(* ================================================================== *)

Module Ocr.

Definition re_page : regex :=
  seq [lit_ci "Page"; Star is_space; plus is_digit].
Definition re_ielts : regex :=
  seq [lit_ci "IELTS"; Star is_space; plus is_digit].
Definition re_cambridge : regex :=
  seq [lit_ci "Cambridge"; Star is_space; lit_ci "IELTS"].
Definition re_test : regex :=
  seq [lit_ci "Test"; Star is_space; plus is_digit].
Definition re_pipe : regex := Chr (ch "|").
Definition re_underscores : regex := plus (ch "_").
Definition re_emdashes : regex :=
  seq [Chr (N.eqb em_dash); plus (N.eqb em_dash)].
Definition re_spaced_pipe : regex :=
  seq [Star is_space; Chr (ch "|"); Star is_space].
Definition re_num_dot : regex :=
  seq [Grp (plus is_digit); Star is_space; Chr (ch "."); Star is_space].
Definition re_lI_dot : regex :=
  seq [Grp (Chr (fun c => ch "l" c || ch "I" c)); Star is_space;
       Chr (ch "."); Star is_space].
Definition re_O_dot : regex :=
  seq [Chr (ch "O"); Star is_space; Chr (ch "."); Star is_space].
Definition re_hyphen_break : regex :=
  seq [Grp (Chr is_alpha); Chr (ch "-"); Star is_space; Chr is_newline;
       Star is_space; Grp (Chr is_alpha)].
Definition re_hyphen_word : regex :=
  seq [Grp (Chr is_alpha); Chr (ch "-"); Grp (Chr is_alpha)].
Definition re_nl_lower : regex := seq [Chr is_newline; Ahead is_lower].
Definition re_newlines : regex := plus is_newline.
Definition re_spaces : regex := plus is_space.
Definition re_lower_upper : regex :=
  seq [Grp (Chr is_lower); Grp (Chr is_upper)].
Definition re_digit_upper : regex :=
  seq [Grp (Chr is_digit); Grp (Chr is_upper)].
Definition re_alpha_digit : regex :=
  seq [Grp (Chr is_alpha); Grp (Chr is_digit)].
Definition is_dash (c : N) : bool :=
  ch "-" c || N.eqb c en_dash || N.eqb c em_dash.
Definition re_dash : regex := seq [Star is_space; Chr is_dash; Star is_space].
Definition re_sentence : regex :=
  seq [Grp (Chr (fun c => ch "." c || ch "?" c || ch "!" c));
       Star is_space; Grp (Chr is_upper)].

(** [$1$2], [$1 $2] and [$1. ]. *)
Definition join12 : jsstring -> list jsstring -> jsstring :=
  fun _ cs => cap 0 cs ++ cap 1 cs.
Definition space12 : jsstring -> list jsstring -> jsstring :=
  fun _ cs => cap 0 cs ++ space ++ cap 1 cs.
Definition num_dot : jsstring -> list jsstring -> jsstring :=
  fun _ cs => cap 0 cs ++ js ". ".

(** The rewriting passes of [cleanOCRText], in source order. *)
Definition passes : list (regex * (jsstring -> list jsstring -> jsstring)) :=
  [ (re_page, always []);
    (re_ielts, always []);
    (re_cambridge, always []);
    (re_test, always []);
    (re_pipe, always []);
    (re_underscores, always space);
    (re_emdashes, always space);
    (re_spaced_pipe, always space);
    (re_num_dot, num_dot);
    (re_lI_dot, always (js "1. "));
    (re_O_dot, always (js "0. "));
    (re_hyphen_break, join12);
    (re_hyphen_word, join12);
    (re_nl_lower, always space);
    (re_newlines, always space);
    (re_spaces, always space);
    (re_lower_upper, space12);
    (re_digit_upper, space12);
    (re_alpha_digit, space12);
    (re_dash, always (js " - "));
    (re_sentence, space12);
    (re_spaces, always space) ].

Definition run_passes
    (ps : list (regex * (jsstring -> list jsstring -> jsstring)))
    (s : jsstring) : jsstring :=
  foldl (fun acc p => replace_all p.1 p.2 acc) s ps.

Definition cleanOCRText (text : jsstring) : jsstring :=
  trim (run_passes passes text).

End Ocr.

Import Ocr.

(* ================================================================== *)
(** ** Exceptions *)
(* ================================================================== *)

Module Exn.

(** What a [throw] carries: a [TypeError] raised by the runtime (a
    property read or method call on [undefined] or [null]), an [Error]
    built by the code, with its message, or the value [null] itself
    ([throw lastError] with nothing recorded). *)
Inductive jserror : Type :=
| TypeError
| Error (msg : jsstring)
| ThrownNull.

Inductive result (A : Type) : Type :=
| Ok (a : A)
| Throw (e : jserror).

Arguments Ok {A} a.
Arguments Throw {A} e.

#[global] Instance result_ret : MRet result := fun A a => Ok a.

#[global] Instance result_bind : MBind result := fun A B f m =>
  match m with
  | Ok a => f a
  | Throw e => Throw e
  end.

#[global] Instance result_fmap : FMap result := fun A B f m =>
  match m with
  | Ok a => Ok (f a)
  | Throw e => Throw e
  end.

(** [arr.forEach((x, i) => ...)] where the callback may throw: the
    elements are visited in order, the first exception stops the loop. *)
Fixpoint forEach_from {A B} (f : nat -> A -> result B) (i : nat)
    (l : list A) : result (list B) :=
  match l with
  | [] => Ok []
  | x :: l' =>
      y ← f i x;
      ys ← forEach_from f (S i) l';
      Ok (y :: ys)
  end.

Definition forEach {A B} (f : nat -> A -> result B) (l : list A)
    : result (list B) :=
  forEach_from f 0 l.

(** [o.forEach(...)] on a property that may be absent. *)
Definition forEach_opt {A B} (f : nat -> A -> result B)
    (o : option (list A)) : result (list B) :=
  match o with
  | Some l => forEach f l
  | None => Throw TypeError
  end.

End Exn.

Import Exn.

(* ================================================================== *)
(** ** Text repair utility: [cleanJsonString] and [parseJsonSafely] *)
(* ================================================================== *)

Module Json.

Definition quote : N := 34.
Definition backslash : N := 92.
Definition backticks : regex := lit "```".

Definition re_fence_json : regex :=
  seq [backticks; lit_ci "json"; Star is_space].
Definition re_fence : regex := seq [backticks; Star is_space].
Definition re_key_after : regex :=
  seq [Grp (seq [Chr (fun c => ch "," c || ch "{" c); Star is_space]);
       Grp (plus is_word); Star is_space; Chr (ch ":")].
Definition re_key_first : regex :=
  seq [Grp (seq [Bol; Star is_space]); Grp (plus is_word); Star is_space;
       Chr (ch ":")].
Definition re_trailing_comma : regex :=
  seq [Chr (ch ","); Star is_space;
       Grp (Chr (fun c => ch "}" c || ch "]" c))].
Definition re_escaped_quote : regex :=
  seq [Grp (Chr (fun c => negb (N.eqb c backslash)));
       Chr (N.eqb backslash); Chr (N.eqb quote)].
Definition re_string_break : regex :=
  seq [Grp (seq [Chr (N.eqb quote); LazyStar is_dot]); Chr (N.eqb quote);
       plus (fun c => N.eqb c 13 || N.eqb c 10)].
Definition re_crlf : regex := seq [Opt (N.eqb 13); Chr (N.eqb 10)].
Definition re_control : regex :=
  Chr (fun c => between 0 8 c || N.eqb c 11 || N.eqb c 12 || between 14 31 c).

(** The first group, then the second one between double quotes, then
    a colon. *)
Definition quote_key : jsstring -> list jsstring -> jsstring :=
  fun _ cs => cap 0 cs ++ [quote] ++ cap 1 cs ++ [quote] ++ js ":".

(** The first group, a backslash and a double quote: the text matched. *)
Definition keep_escaped : jsstring -> list jsstring -> jsstring :=
  fun _ cs => cap 0 cs ++ [backslash; quote].

(** The callback of the string-break pass. *)
Definition close_string : jsstring -> list jsstring -> jsstring :=
  fun _ cs =>
    replace_all re_crlf (always [backslash; code "n"]) (cap 0 cs) ++ [quote].

Definition json_passes
    : list (regex * (jsstring -> list jsstring -> jsstring)) :=
  [ (re_fence_json, always []);
    (re_fence, always []);
    (re_key_after, quote_key);
    (re_key_first, quote_key);
    (re_trailing_comma, fun _ cs => cap 0 cs);
    (re_escaped_quote, keep_escaped);
    (re_string_break, close_string);
    (re_control, always []) ].

Definition cleanJsonString (rawJsonString : jsstring) : result jsstring :=
  match rawJsonString with
  | [] => Throw (Error (js "Invalid JSON string provided"))
  | _ => Ok (trim (run_passes json_passes rawJsonString))
  end.

(** [/\{.*\}/s]. *)
Definition re_braces : regex :=
  seq [Chr (ch "{"); Star any; Chr (ch "}")].

Section Parser.

(** The collaborators: [JSON.parse] (which throws on malformed text) and
    the optional [jsonrepair] package ([null] when it is not installed). *)
Variable J : Type.
Variable JSON_parse : jsstring -> option J.
Variable jsonrepair : option (jsstring -> option jsstring).

(** The body of one [try { return JSON.parse(...) } catch { }] block:
    the value returned, or [None] when anything in the block threw. *)
Definition try_direct (raw : jsstring) : option J := JSON_parse raw.

Definition try_cleaned (raw : jsstring) : option J :=
  match cleanJsonString raw with
  | Ok cleaned => JSON_parse cleaned
  | Throw _ => None
  end.

Definition try_repaired (raw : jsstring) : option J :=
  match jsonrepair with
  | Some repair =>
      match repair raw with
      | Some repaired => JSON_parse repaired
      | None => None
      end
  | None => None
  end.

Definition try_extracted (raw : jsstring) : option J :=
  match first_match re_braces raw with
  | Some extracted => try_cleaned extracted
  | None => None
  end.

Definition truncatedResponse (raw : jsstring) : jsstring :=
  if (200 <? length raw)%nat then substring0 200 raw ++ js "..." else raw.

Definition failure_message (context raw : jsstring) : jsstring :=
  js "Failed to parse " ++ context
  ++ js " JSON after all repair attempts. Raw response: "
  ++ truncatedResponse raw.

Definition parseJsonSafely (rawJsonString context : jsstring) : result J :=
  match rawJsonString with
  | [] => Throw (Error (js "Empty " ++ context ++ js " response received"))
  | _ =>
      match try_direct rawJsonString with
      | Some v => Ok v
      | None =>
          match try_cleaned rawJsonString with
          | Some v => Ok v
          | None =>
              match try_repaired rawJsonString with
              | Some v => Ok v
              | None =>
                  match try_extracted rawJsonString with
                  | Some v => Ok v
                  | None =>
                      Throw (Error (failure_message context rawJsonString))
                  end
              end
          end
      end
  end.

End Parser.

End Json.

Import Json.

(* ================================================================== *)
(** ** OCR gateway: [extractText] *)
(* ================================================================== *)

Module Gateway.

(** What the gateway does to the outside world, in order. *)
Inductive event : Type :=
| HealthCheck
| DocTRExtract
| TesseractExtract
| Delay (ms : Z).

#[global] Instance event_eq_dec : EqDecision event.
Proof. solve_decision. Defined.

Definition trace : Type := list event.

Section Backends.

(** What a backend delivers besides the service tag: text, confidence,
    processing time, metadata. *)
Variable Payload : Type.

Record OcrResult : Type := mkOcrResult {
  payload : Payload;
  service : jsstring
}.

(** The outside world: the answer of the [n]-th health check, and the
    outcome of the [n]-th call of each backend (a payload, or the message
    of the error it throws). *)
Record World : Type := mkWorld {
  health : nat -> bool;
  doctr : nat -> Payload + jsstring;
  tesseract : nat -> Payload + jsstring
}.

Record OCRService : Type := mkOCRService {
  primaryService : jsstring;
  fallbackService : jsstring;
  maxRetries : Z
}.

Definition count (e : event) (tr : trace) : nat :=
  length (List.filter (fun x => bool_decide (x = e)) tr).

Variable w : World.

Definition isDocTRHealthy (tr : trace) : bool * trace :=
  (health w (count HealthCheck tr), tr ++ [HealthCheck]).

Definition extractTextWithDocTR (tr : trace) : result OcrResult * trace :=
  (match doctr w (count DocTRExtract tr) with
   | inl p => Ok (mkOcrResult p (js "docTR"))
   | inr msg => Throw (Error msg)
   end, tr ++ [DocTRExtract]).

Definition extractTextWithTesseract (tr : trace) : result OcrResult * trace :=
  (match tesseract w (count TesseractExtract tr) with
   | inl p => Ok (mkOcrResult p (js "Tesseract"))
   | inr msg => Throw (Error msg)
   end, tr ++ [TesseractExtract]).

(** The body of the [try] blocks: one attempt on the service named
    [name]; [unhealthy] is the message thrown after a failed health
    check. *)
Definition attempt (name : jsstring) (unhealthy : string) (tr : trace)
    : result OcrResult * trace :=
  if bool_decide (name = js "doctr") then
    let (healthy, tr1) := isDocTRHealthy tr in
    if healthy then extractTextWithDocTR tr1
    else (Throw (Error (js unhealthy)), tr1)
  else extractTextWithTesseract tr.

(** The [while (attempts < this.maxRetries)] loop; [remaining] is
    [maxRetries - attempts]. It ends with the result returned, or with
    [lastError]. *)
Fixpoint primaryLoop (svc : OCRService) (remaining : nat)
    (lastError : option jserror) (tr : trace)
    : (OcrResult + option jserror) * trace :=
  match remaining with
  | O => (inr lastError, tr)
  | S r =>
      match attempt (primaryService svc) "docTR service is unhealthy" tr with
      | (Ok res, tr1) => (inl res, tr1)
      | (Throw e, tr1) =>
          let tr2 :=
            match r with
            | O => tr1
            | S _ => tr1 ++ [Delay 1000]
            end in
          primaryLoop svc r (Some e) tr2
      end
  end.

(** [error.message]. The one [TypeError] whose message the code reads
    is the one that [lastError.message] raises when [lastError] is
    [null]; V8 words it as below. A thrown [null] has no message:
    reading it raises that [TypeError], which the callers model. *)
Definition message (e : jserror) : jsstring :=
  match e with
  | Error msg => msg
  | TypeError => js "Cannot read properties of null (reading 'message')"
  | ThrownNull => []
  end.

Definition extractText (svc : OCRService) (tr : trace)
    : result OcrResult * trace :=
  match primaryLoop svc (Z.to_nat (maxRetries svc)) None tr with
  | (inl res, tr1) => (Ok res, tr1)
  | (inr lastError, tr1) =>
      if bool_decide (fallbackService svc ≠ primaryService svc) then
        match attempt (fallbackService svc)
                "docTR fallback service is also unhealthy" tr1 with
        | (Ok res, tr2) => (Ok res, tr2)
        | (Throw _, tr2) =>
            match lastError with
            | Some e =>
                (Throw (Error
                   (js "Both primary (" ++ primaryService svc
                    ++ js ") and fallback (" ++ fallbackService svc
                    ++ js ") OCR services failed. Last error: "
                    ++ message e)), tr2)
            | None => (Throw TypeError, tr2)
            end
        end
      else
        match lastError with
        | Some e => (Throw e, tr1)
        | None => (Throw ThrownNull, tr1)
        end
  end.

End Backends.

Arguments mkOcrResult {Payload} _ _.
Arguments payload {Payload} _.
Arguments service {Payload} _.
Arguments mkWorld {Payload} _ _ _.
Arguments health {Payload} _ _.
Arguments doctr {Payload} _ _.
Arguments tesseract {Payload} _ _.
Arguments isDocTRHealthy {Payload} _ _.
Arguments extractTextWithDocTR {Payload} _ _.
Arguments extractTextWithTesseract {Payload} _ _.
Arguments attempt {Payload} _ _ _ _.
Arguments primaryLoop {Payload} _ _ _ _ _.
Arguments extractText {Payload} _ _ _.

End Gateway.

Import Gateway.

(* ================================================================== *)
(** ** Data model of the extracted document

    A document is the tree that [JSON.parse] delivers (and that the deep
    copies of stages 3 to 6 rebuild): no object occurs in two places.
    Properties have the types of the schema; a property that the object
    does not have is [None]. *)
(* ================================================================== *)

Module Doc.

(** Value of [inputType] and [answerConstraints]: a string, or what a
    lookup in an object literal finds on [Object.prototype] when the key
    is the name of one of its members (a function, or the prototype
    object itself for [__proto__]). *)
Inductive jsprop : Type :=
| PStr (s : jsstring)
| PFunction
| PObject.

Record Answer : Type := mkAnswer {
  correct : jsstring;
  accepted : list jsstring
}.

Record Question : Type := mkQuestion {
  questionId : option jsstring;
  number : option Z;
  type : option jsstring;
  inputType : option jsprop;
  answerConstraints : option jsprop;
  isInteractive : option bool;
  answer : option Answer;
  draggableVariants : option (list jsstring);
  numberRange : option jsstring;
  text : option jsstring;
  questionText : option jsstring;
  q_instructions : option jsstring;
  textList : option (list jsstring);
  options : option (list jsstring);
  base64 : option jsstring;
  url : option jsstring;
  headline : option jsstring
}.

(** A part; [extra] holds every own property other than the four named
    ones, in insertion order. *)
Record Part : Type := mkPart {
  part : option Z;
  instructions : option jsstring;
  questionsRange : option jsstring;
  questions : option (list Question);
  extra : list (jsstring * jsstring)
}.

Record Structure : Type := mkStructure {
  test : option jsstring;
  section : option jsstring;
  parts : option (list Part)
}.

(** Property assignments [q.f = v]. *)
Definition set_questionId (v : option jsstring) (q : Question) : Question :=
  mkQuestion v (number q) (type q) (inputType q) (answerConstraints q)
    (isInteractive q) (answer q) (draggableVariants q) (numberRange q)
    (text q) (questionText q) (q_instructions q) (textList q) (options q)
    (base64 q) (url q) (headline q).
Definition set_number (v : option Z) (q : Question) : Question :=
  mkQuestion (questionId q) v (type q) (inputType q) (answerConstraints q)
    (isInteractive q) (answer q) (draggableVariants q) (numberRange q)
    (text q) (questionText q) (q_instructions q) (textList q) (options q)
    (base64 q) (url q) (headline q).
Definition set_type (v : option jsstring) (q : Question) : Question :=
  mkQuestion (questionId q) (number q) v (inputType q) (answerConstraints q)
    (isInteractive q) (answer q) (draggableVariants q) (numberRange q)
    (text q) (questionText q) (q_instructions q) (textList q) (options q)
    (base64 q) (url q) (headline q).
Definition set_inputType (v : option jsprop) (q : Question) : Question :=
  mkQuestion (questionId q) (number q) (type q) v (answerConstraints q)
    (isInteractive q) (answer q) (draggableVariants q) (numberRange q)
    (text q) (questionText q) (q_instructions q) (textList q) (options q)
    (base64 q) (url q) (headline q).
Definition set_answerConstraints (v : option jsprop) (q : Question)
    : Question :=
  mkQuestion (questionId q) (number q) (type q) (inputType q) v
    (isInteractive q) (answer q) (draggableVariants q) (numberRange q)
    (text q) (questionText q) (q_instructions q) (textList q) (options q)
    (base64 q) (url q) (headline q).
Definition set_isInteractive (v : option bool) (q : Question) : Question :=
  mkQuestion (questionId q) (number q) (type q) (inputType q)
    (answerConstraints q) v (answer q) (draggableVariants q) (numberRange q)
    (text q) (questionText q) (q_instructions q) (textList q) (options q)
    (base64 q) (url q) (headline q).
Definition set_answer (v : option Answer) (q : Question) : Question :=
  mkQuestion (questionId q) (number q) (type q) (inputType q)
    (answerConstraints q) (isInteractive q) v (draggableVariants q)
    (numberRange q) (text q) (questionText q) (q_instructions q) (textList q)
    (options q) (base64 q) (url q) (headline q).
Definition set_draggableVariants (v : option (list jsstring)) (q : Question)
    : Question :=
  mkQuestion (questionId q) (number q) (type q) (inputType q)
    (answerConstraints q) (isInteractive q) (answer q) v (numberRange q)
    (text q) (questionText q) (q_instructions q) (textList q) (options q)
    (base64 q) (url q) (headline q).
Definition set_numberRange (v : option jsstring) (q : Question) : Question :=
  mkQuestion (questionId q) (number q) (type q) (inputType q)
    (answerConstraints q) (isInteractive q) (answer q) (draggableVariants q) v
    (text q) (questionText q) (q_instructions q) (textList q) (options q)
    (base64 q) (url q) (headline q).

Definition set_questions (v : option (list Question)) (p : Part) : Part :=
  mkPart (part p) (instructions p) (questionsRange p) v (extra p).

(** JavaScript truthiness of a property that may be absent. *)
Definition truthy_str (o : option jsstring) : bool :=
  match o with
  | Some (_ :: _) => true
  | _ => false
  end.

Definition truthy_num (o : option Z) : bool :=
  match o with
  | Some z => negb (z =? 0)
  | None => false
  end.

Definition truthy_prop (o : option jsprop) : bool :=
  match o with
  | Some (PStr s) => truthy_str (Some s)
  | Some PFunction | Some PObject => true
  | None => false
  end.

(** Objects and arrays are truthy whenever present. *)
Definition present {A} (o : option A) : bool :=
  match o with
  | Some _ => true
  | None => false
  end.

(** [q.type === name]. *)
Definition type_is (name : string) (q : Question) : bool :=
  bool_decide (type q = Some (js name)).

(** [JSON.parse(JSON.stringify(x))]: function-valued properties are
    dropped, [Object.prototype] serialises as an empty object. *)
Definition copy_prop (o : option jsprop) : option jsprop :=
  match o with
  | Some PFunction => None
  | other => other
  end.

Definition copy_question (q : Question) : Question :=
  set_answerConstraints (copy_prop (answerConstraints q))
    (set_inputType (copy_prop (inputType q)) q).

Definition copy_part (p : Part) : Part :=
  set_questions (map copy_question <$> questions p) p.

Definition deep_copy (s : Structure) : Structure :=
  mkStructure (test s) (section s) (map copy_part <$> parts s).

(** *** Documents as [JSON.parse] returns them

    Nothing checks the answer of the language model against the schema
    before the pipeline runs. Where the schema has a part or a question
    object the parsed document may hold [null] (here [None]), and
    [parts] may be an object that is not an array: the cases in which a
    stage raises a [TypeError] by reading a property of [null] or by
    calling a [forEach] that is not there. Entries that are strings,
    numbers or booleans, and properties of other types than the
    schema's, are not modelled. *)
Record ParsedPart : Type := mkParsedPart {
  p_part : option Z;
  p_instructions : option jsstring;
  p_questionsRange : option jsstring;
  p_questions : option (list (option Question));
  p_extra : list (jsstring * jsstring)
}.

Inductive ParsedParts : Type :=
| PartsAbsent
| PartsObject
| PartsArray (entries : list (option ParsedPart)).

Record Parsed : Type := mkParsed {
  d_test : option jsstring;
  d_section : option jsstring;
  d_parts : ParsedParts
}.

(** The entries of an array when all of them are objects; the
    [TypeError] of the first property read on a [null] entry
    otherwise. *)
Fixpoint objects {A} (entries : list (option A)) : result (list A) :=
  match entries with
  | [] => Ok []
  | None :: _ => Throw TypeError
  | Some a :: rest =>
      match objects rest with
      | Ok l => Ok (a :: l)
      | Throw e => Throw e
      end
  end.

Definition asPart (p : ParsedPart) : result Part :=
  match p_questions p with
  | None =>
      Ok (mkPart (p_part p) (p_instructions p) (p_questionsRange p) None
            (p_extra p))
  | Some entries =>
      match objects entries with
      | Ok qs =>
          Ok (mkPart (p_part p) (p_instructions p) (p_questionsRange p)
                (Some qs) (p_extra p))
      | Throw e => Throw e
      end
  end.

Fixpoint asParts (l : list ParsedPart) : result (list Part) :=
  match l with
  | [] => Ok []
  | p :: rest =>
      match asPart p, asParts rest with
      | Ok p', Ok l' => Ok (p' :: l')
      | Throw e, _ | _, Throw e => Throw e
      end
  end.

(** The parts of an array of parts, all entries being objects. *)
Definition partObjects (entries : list (option ParsedPart))
    : result (list Part) :=
  match objects entries with
  | Ok l => asParts l
  | Throw e => Throw e
  end.

End Doc.

Import Doc.

(* ================================================================== *)
(** ** Post-processing pipeline *)
(* ================================================================== *)

Module Pipeline.

(** *** Stage 1: [mergeDuplicateParts] *)

(** The [Map] keyed by [part.part]: entries in insertion order, keys
    compared by SameValueZero. *)
Definition PartMap : Type := list (option Z * Part).

Fixpoint map_get (k : option Z) (m : PartMap) : option Part :=
  match m with
  | [] => None
  | (k', v) :: m' => if bool_decide (k = k') then Some v else map_get k m'
  end.

(** Mutation of the object stored under [k]; the entry keeps its place. *)
Fixpoint map_update (k : option Z) (v : Part) (m : PartMap) : PartMap :=
  match m with
  | [] => []
  | (k', v') :: m' =>
      if bool_decide (k = k') then (k', v) :: m'
      else (k', v') :: map_update k v m'
  end.

Definition merge_step (partMap : PartMap) (p : Part) : PartMap :=
  match map_get (part p) partMap with
  | Some existingPart =>
      let existingQuestions := default [] (questions existingPart) in
      let newQuestions := default [] (questions p) in
      map_update (part p)
        (set_questions (Some (existingQuestions ++ newQuestions)) existingPart)
        partMap
  | None =>
      partMap ++ [(part p, set_questions (Some (default [] (questions p))) p)]
  end.

(** The comparator [(a, b) => a.part - b.part]; a [NaN] result (an
    operand is [undefined]) counts as [0]. *)
Definition compare_parts (a b : Part) : Z :=
  match part a, part b with
  | Some x, Some y => x - y
  | _, _ => 0
  end.

(** [Array.prototype.sort] with a comparator, as V8 (the engine of
    Node.js) runs it on an array of fewer than 64 elements, where its
    TimSort takes the whole array as one run: the maximal run at the
    front is found by comparing each element with its predecessor (a
    strictly descending run is reversed), and every later element is
    put in its place among the ones before it by binary search. The
    comparator's result is read as a number, a [NaN] as [0]. On 64
    elements or more V8 cuts the array into such runs and merges them;
    for a comparator that is a total preorder the result is the same,
    the one stable sorted arrangement. *)
Section Sort.

Context {A : Type} (compare : A -> A -> Z).

(** How many of the elements of [l] continue the run that [previous]
    ends. *)
Fixpoint run_tail (isDescending : bool) (previous : A) (l : list A) : nat :=
  match l with
  | [] => O
  | currentElement :: l' =>
      let order := compare currentElement previous in
      if (if isDescending then 0 <=? order else order <? 0) then O
      else S (run_tail isDescending currentElement l')
  end.

(** [CountAndMakeRun]: the run at the front, made ascending, and the
    elements after it. *)
Definition countAndMakeRun (l : list A) : list A * list A :=
  match l with
  | elementHigh :: elementLow :: l' =>
      let order := compare elementLow elementHigh in
      let isDescending := order <? 0 in
      let runLength := (2 + run_tail isDescending elementLow l')%nat in
      let run := take runLength l in
      (if isDescending then reverse run else run, drop runLength l)
  | _ => (l, [])
  end.

(** The search loop of [BinaryInsertionSort]; [fuel] bounds the number
    of halvings, and [right - left] of them are never needed. *)
Fixpoint insertionPoint (fuel : nat) (pivot : A) (sorted : list A)
    (left right : nat) : nat :=
  match fuel with
  | O => left
  | S fuel' =>
      if bool_decide (left < right)%nat then
        let mid := (left + (right - left) / 2)%nat in
        match sorted !! mid with
        | Some x =>
            if compare pivot x <? 0
            then insertionPoint fuel' pivot sorted left mid
            else insertionPoint fuel' pivot sorted (mid + 1)%nat right
        | None => left
        end
      else left
  end.

(** One round of [BinaryInsertionSort]: [pivot] enters [sorted] at the
    position that the search gives. *)
Definition binaryInsert (sorted : list A) (pivot : A) : list A :=
  let left := insertionPoint (length sorted) pivot sorted 0 (length sorted) in
  take left sorted ++ pivot :: drop left sorted.

Definition sort_by (l : list A) : list A :=
  let '(run, rest) := countAndMakeRun l in
  foldl binaryInsert run rest.

End Sort.

Definition mergeDuplicateParts (ps : list Part) : list Part :=
  sort_by compare_parts (map snd (foldl merge_step [] ps)).

(** *** Stage 2: [validateAndFixStructure] *)

Fixpoint starts_with (p s : jsstring) : bool :=
  match p, s with
  | [], _ => true
  | a :: p', b :: s' => N.eqb a b && starts_with p' s'
  | _ :: _, [] => false
  end.

(** [s.includes(sub)]. *)
Fixpoint includes (sub s : jsstring) : bool :=
  starts_with sub s ||
  match s with
  | [] => false
  | _ :: s' => includes sub s'
  end.

(** [s.includes(w)] for a literal [w]. *)
Definition mentions (s : jsstring) (w : string) : bool := includes (js w) s.

(** Members of [Object.prototype], found by [obj[key]] on any object
    literal. *)
Definition inherited (key : jsstring) : option jsprop :=
  if bool_decide (key = js "__proto__") then Some PObject
  else if bool_decide (key ∈ map js
            ["constructor"; "__defineGetter__"; "__defineSetter__";
             "hasOwnProperty"; "__lookupGetter__"; "__lookupSetter__";
             "isPrototypeOf"; "propertyIsEnumerable"; "toString";
             "valueOf"; "toLocaleString"]%string)
  then Some PFunction
  else None.

(** [table[key]] on an object literal with string values; the key
    [undefined] reads the property named "undefined". *)
Fixpoint own (table : list (string * string)) (key : jsstring)
    : option jsprop :=
  match table with
  | [] => None
  | (k, v) :: t =>
      if bool_decide (key = js k) then Some (PStr (js v)) else own t key
  end.

Definition lookup_literal (table : list (string * string))
    (key : option jsstring) : option jsprop :=
  let k := default (js "undefined") key in
  match own table k with
  | Some v => Some v
  | None => inherited k
  end.

Definition typeMap : list (string * string) :=
  [ ("form-fill", "text");
    ("multiple-choice", "radio");
    ("multi-select", "checkbox");
    ("matching", "drag");
    ("map-labelling", "text");
    ("short-answer", "text");
    ("sentence-completion", "text") ]%string.

Definition getInputTypeForQuestionType (t : option jsstring) : jsprop :=
  let v := lookup_literal typeMap t in
  if truthy_prop v then default (PStr []) v else PStr (js "text").

Definition constraintMap : list (string * string) :=
  [ ("form-fill", "ONE WORD AND/OR A NUMBER");
    ("multiple-choice", "CHOOSE THE CORRECT LETTER A, B OR C");
    ("multi-select", "CHOOSE TWO LETTERS A-E");
    ("matching", "CHOOSE FROM THE BOX A-H");
    ("map-labelling", "LABEL FROM MAP A-H");
    ("short-answer", "NO MORE THAN THREE WORDS");
    ("sentence-completion", "ONE WORD ONLY") ]%string.

Definition getDefaultAnswerConstraints (t : option jsstring) : jsprop :=
  let v := lookup_literal constraintMap t in
  if truthy_prop v then default (PStr []) v
  else PStr (js "ONE WORD AND/OR A NUMBER").

(** [a || b || ''] on string properties. *)
Definition first_truthy (a b : option jsstring) : jsstring :=
  if truthy_str a then default [] a
  else if truthy_str b then default [] b
  else [].

Section WithLowerCase.

(** [String.prototype.toLowerCase], with the Unicode case tables of the
    runtime. *)
Variable toLowerCase : jsstring -> jsstring.

Definition autoDetectQuestionType (q : Question) : jsstring :=
  let text := toLowerCase (first_truthy (text q) (questionText q)) in
  let instr := toLowerCase (first_truthy (q_instructions q) None) in
  if mentions text "____" || mentions text "..." then
    if mentions instr "map" || mentions instr "diagram"
       || mentions instr "label"
    then js "map-labelling"
    else if mentions instr "form" || mentions instr "notes"
            || mentions instr "table"
    then js "form-fill"
    else js "sentence-completion"
  else if present (textList q) || present (options q) then
    if mentions instr "choose two" || mentions instr "choose three"
    then js "multi-select"
    else js "multiple-choice"
  else if present (draggableVariants q) || mentions instr "match"
  then js "matching"
  else if mentions instr "short answer" || mentions instr "no more than"
  then js "short-answer"
  else js "form-fill".

(** The statements of the callback of [part.questions.forEach] in
    stage 2, one function per [if (!question.x) question.x = ...]. *)
Definition defaultQuestionId (test : jsstring) (partNo : Z) (qIndex : nat)
    (q : Question) : Question :=
  if truthy_str (questionId q) then q
  else set_questionId
         (Some (js "listening-" ++ test ++ js "-" ++ string_of_Z partNo
                ++ js "-" ++ string_of_Z (Z.of_nat qIndex + 1))) q.

(** [(part.part - 1) * 10 + qIndex + 1], in integers; the doubles of
    the program give the same as long as the part number is moderate
    (at [2^53] they round). *)
Definition defaultNumber (partNo : Z) (qIndex : nat) (q : Question)
    : Question :=
  if truthy_num (number q) then q
  else set_number (Some ((partNo - 1) * 10 + Z.of_nat qIndex + 1)) q.

Definition defaultType (q : Question) : Question :=
  if truthy_str (type q) then q
  else set_type (Some (autoDetectQuestionType q)) q.

Definition defaultInputType (q : Question) : Question :=
  if truthy_prop (inputType q) then q
  else set_inputType (Some (getInputTypeForQuestionType (type q))) q.

Definition defaultAnswerConstraints (q : Question) : Question :=
  if truthy_prop (answerConstraints q) then q
  else set_answerConstraints (Some (getDefaultAnswerConstraints (type q))) q.

Definition defaultIsInteractive (q : Question) : Question :=
  if present (isInteractive q) then q
  else set_isInteractive (Some true) q.

Definition defaultAnswer (q : Question) : Question :=
  if present (answer q) then q
  else set_answer (Some (mkAnswer [] [])) q.

(** The callback of [part.questions.forEach] in stage 2. *)
Definition fixQuestion (test : jsstring) (partNo : Z) (qIndex : nat)
    (q : Question) : Question :=
  defaultAnswer
    (defaultIsInteractive
       (defaultAnswerConstraints
          (defaultInputType
             (defaultType
                (defaultNumber partNo qIndex
                   (defaultQuestionId test partNo qIndex q)))))).

(** The callback of [structure.parts.forEach] in stage 2. The range is
    computed and printed in integers, which is what the program does
    for a moderate part number. *)
Definition fixPart (test : jsstring) (index : nat) (p : Part) : Part :=
  let partNo :=
    if truthy_num (part p) then default 0 (part p)
    else Z.of_nat index + 1 in
  let instr :=
    if truthy_str (instructions p) then instructions p
    else Some (js "Part " ++ string_of_Z partNo ++ js " instructions") in
  let range :=
    if truthy_str (questionsRange p) then questionsRange p
    else
      let start := (partNo - 1) * 10 + 1 in
      let end_ := partNo * 10 in
      Some (string_of_Z start ++ js "-" ++ string_of_Z end_) in
  let qs := default [] (questions p) in
  mkPart (Some partNo) instr range (Some (imap (fixQuestion test partNo) qs))
    (extra p).

Definition validateAndFixStructure (s : Structure) : Structure :=
  let test := if truthy_str (test s) then default [] (test s) else js "1" in
  let section :=
    if truthy_str (section s) then default [] (section s)
    else js "Listening" in
  let ps := default [] (parts s) in
  mkStructure (Some test) (Some section) (Some (imap (fixPart test) ps)).

(** Stage 2 on a document as parsed. A [parts] that is not an array is
    replaced by the empty array, like an absent one. The callbacks read
    [part.part] and [question.questionId] first: on a [null] part or
    question that raises a [TypeError], the function does not return,
    and what it assigned before is lost with the document. On a
    document without such an entry it is the function above. *)
Definition validateAndFixParsed (d : Parsed) : result Structure :=
  match d_parts d with
  | PartsAbsent | PartsObject =>
      Ok (validateAndFixStructure (mkStructure (d_test d) (d_section d) None))
  | PartsArray entries =>
      match partObjects entries with
      | Ok ps =>
          Ok (validateAndFixStructure
                (mkStructure (d_test d) (d_section d) (Some ps)))
      | Throw e => Throw e
      end
  end.

End WithLowerCase.

(** *** Stage 5: [linkMatchingQuestions] *)

Definition is_variant_divider (q : Question) : bool :=
  type_is "divider" q && present (draggableVariants q).

Definition linkPart (p : Part) : Part :=
  let qs := default [] (questions p) in
  let divider := find is_variant_divider qs in
  let variants :=
    match divider with
    | Some d => default [] (draggableVariants d)
    | None => []
    end in
  let link (q : Question) :=
    if type_is "matching" q && (0 <? Z.of_nat (length variants))
    then set_draggableVariants (Some variants) q
    else q in
  match questions p with
  | Some _ => set_questions (Some (map link qs)) p
  | None => p
  end.

Definition linkMatchingQuestions (s : Structure) : result Structure :=
  let modified := deep_copy s in
  ps ← forEach_opt (fun _ p => Ok (linkPart p)) (parts modified);
  Ok (mkStructure (test modified) (section modified) (Some ps)).

(** *** Stage 6: [standardizeQuestionIds] *)

(** The class of the stage-6 pattern. The source file holds the six
    characters U+00E2 U+20AC U+201C U+00E2 U+20AC U+201D between the
    brackets (an en dash and an em dash whose UTF-8 bytes were once read
    as Windows-1252), so the class is these four code units, and neither
    dash is in it. *)
Definition in_class (c : N) : bool :=
  N.eqb c 226 || N.eqb c 8364 || N.eqb c 8220 || N.eqb c 8221.

Definition hyphenate (s : jsstring) : jsstring :=
  replace_all (Chr in_class) (always (js "-")) s.

Definition standardizeQuestion (q : Question) : Question :=
  let q :=
    if truthy_str (questionId q)
    then set_questionId (hyphenate <$> questionId q) q else q in
  if truthy_str (numberRange q)
  then set_numberRange (hyphenate <$> numberRange q) q else q.

Definition standardizeQuestionIds (s : Structure) : result Structure :=
  let modified := deep_copy s in
  ps ← forEach_opt
         (fun _ p =>
            qs ← forEach_opt (fun _ q => Ok (standardizeQuestion q))
                   (questions p);
            Ok (set_questions (Some qs) p))
         (parts modified);
  Ok (mkStructure (test modified) (section modified) (Some ps)).

(** *** Stage 7: [enforceQuestionNumbering] *)

(** [`${structure.test}`] when [test] may be absent. *)
Definition show_str (o : option jsstring) : jsstring :=
  default (js "undefined") o.

Definition show_num (o : option Z) : jsstring :=
  match o with
  | Some z => string_of_Z z
  | None => js "undefined"
  end.

Definition renumberQuestion (test : option jsstring) (partNo : option Z)
    (partIndex questionIndex : nat) (q : Question) : Question :=
  if negb (type_is "divider" q) && negb (type_is "image" q) then
    let expectedNumber :=
      Z.of_nat partIndex * 10 + Z.of_nat questionIndex + 1 in
    let q := set_number (Some expectedNumber) q in
    if truthy_str (questionId q) then
      set_questionId
        (Some (js "listening-" ++ show_str test ++ js "-" ++ show_num partNo
               ++ js "-" ++ string_of_Z expectedNumber)) q
    else q
  else q.

Definition enforceQuestionNumbering (s : Structure) : result Structure :=
  ps ← forEach_opt
         (fun partIndex p =>
            qs ← forEach_opt
                   (fun questionIndex q =>
                      Ok (renumberQuestion (test s) (part p)
                            partIndex questionIndex q))
                   (questions p);
            Ok (set_questions (Some qs) p))
         (parts s);
  Ok (mkStructure (test s) (section s) (Some ps)).

(** *** Stage 8: [validateRequiredFields] *)

Record Validation : Type := mkValidation {
  valid : bool;
  errors : list jsstring
}.

Definition missing (absent : bool) (msg : jsstring) : list jsstring :=
  if absent then [msg] else [].

(** [`Part ${partIndex}, Question ${questionIndex}: Missing ${what}`]. *)
Definition questionMissing (partIndex questionIndex : nat) (what : string)
    : jsstring :=
  js "Part " ++ string_of_Z (Z.of_nat partIndex) ++ js ", Question "
  ++ string_of_Z (Z.of_nat questionIndex) ++ js ": Missing " ++ js what.

(** [`Part ${partIndex}: Missing ${what}`]. *)
Definition partMissing (partIndex : nat) (what : string) : jsstring :=
  js "Part " ++ string_of_Z (Z.of_nat partIndex) ++ js ": Missing "
  ++ js what.

Definition questionErrors (partIndex questionIndex : nat) (q : Question)
    : list jsstring :=
  if type_is "divider" q || type_is "image" q then []
  else
    let at_ := questionMissing partIndex questionIndex in
    missing (negb (truthy_str (questionId q))) (at_ "questionId"%string)
    ++ missing (negb (truthy_num (number q))) (at_ "number"%string)
    ++ missing (negb (truthy_str (type q))) (at_ "type"%string)
    ++ missing (negb (truthy_prop (inputType q))) (at_ "inputType"%string)
    ++ missing (negb (present (isInteractive q)))
         (at_ "isInteractive"%string)
    ++ missing (negb (present (answer q))) (at_ "answer object"%string).

Definition partErrors (partIndex : nat) (p : Part)
    : result (list jsstring) :=
  let at_ := partMissing partIndex in
  let own :=
    missing (negb (truthy_num (part p))) (at_ "part number"%string)
    ++ missing (negb (truthy_str (instructions p)))
         (at_ "instructions"%string)
    ++ missing (negb (truthy_str (questionsRange p)))
         (at_ "questionsRange"%string)
    ++ missing (negb (present (questions p)))
         (at_ "or invalid questions array"%string) in
  qerrs ← forEach_opt (fun i q => Ok (questionErrors partIndex i q))
            (questions p);
  Ok (own ++ concat qerrs).

Definition validateRequiredFields (s : Structure) : result Validation :=
  let top :=
    missing (negb (truthy_str (test s))) (js "Missing test number")
    ++ missing (negb (truthy_str (section s))) (js "Missing section name")
    ++ missing (negb (present (parts s)))
         (js "Missing or invalid parts array") in
  perrs ← forEach_opt partErrors (parts s);
  let errors := top ++ concat perrs in
  Ok (mkValidation (bool_decide (length errors = 0%nat)) errors).

End Pipeline.

Import Pipeline.

(* ================================================================== *)
(** ** Page images: map detection, stage 3 and stage 4 *)
(* ================================================================== *)

Module Images.

(** [s.replace(/r/, repl)] without the [g] flag: only the leftmost
    match is replaced. *)
Fixpoint replace_first_from (r : regex)
    (repl : jsstring -> list jsstring -> jsstring)
    (b : bool) (s : jsstring) : jsstring :=
  match match_here r b s with
  | Some (after, cs) => repl (taken s after) cs ++ after
  | None =>
      match s with
      | c :: s' => c :: replace_first_from r repl false s'
      | [] => []
      end
  end.

Definition replace_first (r : regex)
    (repl : jsstring -> list jsstring -> jsstring) (s : jsstring)
    : jsstring :=
  replace_first_from r repl true s.

(** The keywords of [detectMapImage]. The eleventh stands in the source
    file as "caf" followed by the two characters U+00C3 U+00A9 (an
    e with acute accent whose UTF-8 bytes were once read as Latin-1),
    and these five code units are what the program searches for. *)
Definition mapKeywords : list jsstring :=
  map js
    ["map"; "plan"; "diagram"; "layout"; "floor plan"; "museum";
     "building"; "entrance"; "exit"; "reception"]%string
  ++ [js "caf" ++ [195%N; 169%N]]
  ++ map js
       ["shop"; "gallery"; "room"; "north"; "south"; "east"; "west";
        "stairs"; "lift"; "elevator"; "parking"; "garden"; "path";
        "route"; "direction"; "location"]%string.

Section WithLowerCase.

Variable toLowerCase : jsstring -> jsstring.

Definition detectMapImage (ocrText : jsstring) : bool :=
  let lowerText := toLowerCase ocrText in
  existsb (fun keyword => includes keyword lowerText) mapKeywords.

End WithLowerCase.

(** An entry of [uploadedImages]. *)
Record UploadedImage : Type := mkUploadedImage {
  image_url : jsstring;
  filename : jsstring;
  isMap : bool
}.

Definition set_url (v : option jsstring) (q : Question) : Question :=
  mkQuestion (questionId q) (number q) (type q) (inputType q)
    (answerConstraints q) (isInteractive q) (answer q) (draggableVariants q)
    (numberRange q) (text q) (questionText q) (q_instructions q) (textList q)
    (options q) (base64 q) v (headline q).

Definition set_base64 (v : option jsstring) (q : Question) : Question :=
  mkQuestion (questionId q) (number q) (type q) (inputType q)
    (answerConstraints q) (isInteractive q) (answer q) (draggableVariants q)
    (numberRange q) (text q) (questionText q) (q_instructions q) (textList q)
    (options q) v (url q) (headline q).

(** *** Stage 3: [injectImageObjects] *)

(** The object literal pushed before a map-labelling question. *)
Definition mapQuestion (test : option jsstring) (partNo : option Z)
    (mapImage : UploadedImage) : Question :=
  mkQuestion
    (Some (js "listening-" ++ show_str test ++ js "-" ++ show_num partNo
           ++ js "-map"))
    None (Some (js "image")) None None None None None None None None None
    None None None (Some (image_url mapImage)) (Some (js "Map")).

(** The [for] loop over the questions of a part; [newQuestions] is the
    array built so far. *)
Fixpoint injectLoop (uploadedImages : list UploadedImage)
    (test : option jsstring) (partNo : option Z)
    (newQuestions questions : list Question) : list Question :=
  match questions with
  | [] => newQuestions
  | question :: rest =>
      let newQuestions :=
        if type_is "map-labelling" question
           && negb (existsb (type_is "image") newQuestions)
        then
          match find isMap uploadedImages with
          | Some mapImage =>
              newQuestions ++ [mapQuestion test partNo mapImage]
          | None => newQuestions
          end
        else newQuestions in
      injectLoop uploadedImages test partNo (newQuestions ++ [question]) rest
  end.

Definition injectPart (uploadedImages : list UploadedImage)
    (test : option jsstring) (p : Part) : Part :=
  set_questions
    (Some (injectLoop uploadedImages test (part p) []
             (default [] (questions p)))) p.

Definition injectImageObjects (s : Structure)
    (uploadedImages : list UploadedImage) : result Structure :=
  match uploadedImages with
  | [] => Ok s
  | _ :: _ =>
      let modified := deep_copy s in
      ps ← forEach_opt
             (fun _ p => Ok (injectPart uploadedImages (test s) p))
             (parts modified);
      Ok (mkStructure (test modified) (section modified) (Some ps))
  end.

(** *** Stage 4: [processBase64Images] *)

(** What stage 4 asks of the outside world, in order: the clock
    ([Date.now()]) and the file system ([fs.writeFileSync] under the
    uploads directory, with the name of the file, the base64 text that
    is decoded into it, and whether the write went through). *)
Inductive fs_event : Type :=
| Now
| WriteFile (name data : jsstring) (done : bool).

Definition is_now (e : fs_event) : bool :=
  match e with
  | Now => true
  | WriteFile _ _ _ => false
  end.

(** The outside world: the value of the [n]-th reading of the clock and
    whether the [n]-th write succeeds. *)
Record FsWorld : Type := mkFsWorld {
  clock : nat -> Z;
  write_ok : nat -> bool
}.

Definition clock_reads (tr : list fs_event) : nat :=
  length (List.filter is_now tr).

Definition writes (tr : list fs_event) : nat :=
  length (List.filter (fun e => negb (is_now e)) tr).

(** [/^data:image\/png;base64,/]. *)
Definition re_data_prefix : regex :=
  Cat Bol (lit "data:image/png;base64,").

(** The body of the inner loop, for one question. *)
Definition materialise (w : FsWorld) (question : Question)
    (tr : list fs_event) : Question * list fs_event :=
  if type_is "image" question && truthy_str (base64 question) then
    let base64Data :=
      replace_first re_data_prefix (always [])
        (default [] (base64 question)) in
    let (name, tr1) :=
      if truthy_str (questionId question)
      then (default [] (questionId question), tr)
      else (js "image-" ++ string_of_Z (clock w (clock_reads tr)),
            tr ++ [Now]) in
    let filename := name ++ js ".png" in
    let done := write_ok w (writes tr1) in
    let tr2 := tr1 ++ [WriteFile filename base64Data done] in
    if done then
      (set_base64 None
         (set_url (Some (js "http://localhost:3001/uploads/" ++ filename))
            question),
       tr2)
    else (question, tr2)
  else (question, tr).

Fixpoint materialiseAll (w : FsWorld) (qs : list Question)
    (tr : list fs_event) : list Question * list fs_event :=
  match qs with
  | [] => ([], tr)
  | q :: rest =>
      let (q', tr1) := materialise w q tr in
      let (rest', tr2) := materialiseAll w rest tr1 in
      (q' :: rest', tr2)
  end.

(** The outer [for ... of] loop; a part without [questions] stops it
    with a [TypeError]. *)
Fixpoint materialiseParts (w : FsWorld) (ps : list Part)
    (tr : list fs_event) : result (list Part) * list fs_event :=
  match ps with
  | [] => (Ok [], tr)
  | p :: rest =>
      match questions p with
      | None => (Throw TypeError, tr)
      | Some qs =>
          let (qs', tr1) := materialiseAll w qs tr in
          match materialiseParts w rest tr1 with
          | (Ok rest', tr2) => (Ok (set_questions (Some qs') p :: rest'), tr2)
          | (Throw e, tr2) => (Throw e, tr2)
          end
      end
  end.

Definition processBase64Images (w : FsWorld) (s : Structure)
    (tr : list fs_event) : result Structure * list fs_event :=
  let modified := deep_copy s in
  match parts modified with
  | None => (Throw TypeError, tr)
  | Some ps =>
      match materialiseParts w ps tr with
      | (Ok ps', tr') =>
          (Ok (mkStructure (test modified) (section modified) (Some ps')),
           tr')
      | (Throw e, tr') => (Throw e, tr')
      end
  end.

End Images.

Import Images.

(* ================================================================== *)
(** ** The extraction endpoint: completion retries and the pipeline *)
(* ================================================================== *)

Module Endpoint.

(** *** The completion loop *)

(** What one call of [openai.chat.completions.create] does: it throws,
    with a message, or it answers, with the content of the first choice
    when there is one. *)
Inductive completion : Type :=
| ApiError (msg : jsstring)
| Completed (content : option jsstring).

Inductive llm_event : Type :=
| Request
| Wait (ms : Z).

Definition is_request (e : llm_event) : bool :=
  match e with
  | Request => true
  | Wait _ => false
  end.

Definition requests (tr : list llm_event) : nat :=
  length (List.filter is_request tr).

Section Loop.

Variable J : Type.
Variable JSON_parse : jsstring -> option J.
Variable jsonrepair : option (jsstring -> option jsstring).

(** The answer to the [n]-th request. *)
Variable answers : nat -> completion.

Definition maxAttempts : nat := 3.

(** [new Error(`OpenAI API failed after ${maxAttempts} attempts: ...`)],
    thrown by the outer [catch] on the last attempt. *)
Definition apiFailed (msg : jsstring) : jserror :=
  Error (js "OpenAI API failed after "
         ++ string_of_Z (Z.of_nat maxAttempts) ++ js " attempts: " ++ msg).

Definition invalidJson (msg : jsstring) : jsstring :=
  js "Invalid JSON response from AI after "
  ++ string_of_Z (Z.of_nat maxAttempts) ++ js " attempts: " ++ msg.

Definition emptyResponse : jsstring :=
  js "Empty response from OpenAI after all attempts".

(** The [while (attempts < maxAttempts)] loop; [remaining] is
    [maxAttempts - attempts] and [label] is the text before the attempt
    number in the context handed to [parseJsonSafely]. The loop is left
    by [break] with the parsed structure or by the [throw] of the outer
    [catch]; it cannot run out, since the last attempt does one of the
    two. *)
Fixpoint completionLoop (label : jsstring) (remaining : nat)
    (tr : list llm_event) : result (option J) * list llm_event :=
  match remaining with
  | O => (Ok None, tr)
  | S r =>
      let attempts := (maxAttempts - r)%nat in
      let last := bool_decide (attempts = maxAttempts) in
      let tr1 := tr ++ [Request] in
      match answers (requests tr) with
      | ApiError msg =>
          if last then (Throw (apiFailed msg), tr1)
          else completionLoop label r (tr1 ++ [Wait 2000])
      | Completed rawResponse =>
          if truthy_str rawResponse then
            match parseJsonSafely J JSON_parse jsonrepair
                    (default [] rawResponse)
                    (label ++ string_of_Z (Z.of_nat attempts)) with
            | Ok structure => (Ok (Some structure), tr1)
            | Throw parseError =>
                if last
                then (Throw (apiFailed (invalidJson (message parseError))),
                      tr1)
                else completionLoop label r (tr1 ++ [Wait 1000])
            end
          else
            if last then (Throw (apiFailed emptyResponse), tr1)
            else completionLoop label r tr1
      end
  end.

Definition requestStructure (label : jsstring)
    : result (option J) * list llm_event :=
  completionLoop label maxAttempts [].

End Loop.

Arguments completionLoop {J} _ _ _ _ _ _.
Arguments requestStructure {J} _ _ _ _.

(** *** The pipeline as the listening and reading endpoints run it *)

(** The object [{ ...merged, parts: merged }]: the spread of the array
    of merged parts gives it a property per index, holding the same part
    objects as [parts]; the parsed [test] and [section] are not copied.
    [indexed] holds those index-named properties. *)
Record Extracted : Type := mkExtracted {
  structure : Structure;
  indexed : list Part;
  validation : Validation
}.

Section Pipeline.

Variable toLowerCase : jsstring -> jsstring.
Variable w : FsWorld.

(** Steps 1 to 8 on a parsed document all of whose entries are objects.
    Stage 2 and stage 7 change the part objects in place, stages 3 to 6
    return a deep copy; so the index-named properties see the changes
    of stage 2 and are copied, unchanged otherwise, by every later deep
    copy. *)
Definition runStages (parsed : Structure)
    (uploadedImages : list UploadedImage)
    : result Extracted * list fs_event :=
  let merged := mergeDuplicateParts (default [] (parts parsed)) in
  let s1 := mkStructure None None (Some merged) in
  let s2 := validateAndFixStructure toLowerCase s1 in
  let copies :=
    match uploadedImages with
    | [] => 3%nat
    | _ :: _ => 4%nat
    end in
  let stale := Nat.iter copies (map copy_part) (default [] (parts s2)) in
  match injectImageObjects s2 uploadedImages with
  | Throw e => (Throw e, [])
  | Ok s3 =>
      match processBase64Images w s3 [] with
      | (Throw e, tr) => (Throw e, tr)
      | (Ok s4, tr) =>
          (s5 ← linkMatchingQuestions s4;
           s6 ← standardizeQuestionIds s5;
           s7 ← enforceQuestionNumbering s6;
           v ← validateRequiredFields s7;
           Ok (mkExtracted s7 stale v),
           tr)
      end
  end.

(** The pipeline of the writing endpoint: the same steps without the
    linking of stage 5 and the numbering of stage 7. *)
Definition runStagesWriting (parsed : Structure)
    (uploadedImages : list UploadedImage)
    : result Extracted * list fs_event :=
  let merged := mergeDuplicateParts (default [] (parts parsed)) in
  let s1 := mkStructure None None (Some merged) in
  let s2 := validateAndFixStructure toLowerCase s1 in
  let copies :=
    match uploadedImages with
    | [] => 2%nat
    | _ :: _ => 3%nat
    end in
  let stale := Nat.iter copies (map copy_part) (default [] (parts s2)) in
  match injectImageObjects s2 uploadedImages with
  | Throw e => (Throw e, [])
  | Ok s3 =>
      match processBase64Images w s3 [] with
      | (Throw e, tr) => (Throw e, tr)
      | (Ok s4, tr) =>
          (s5 ← standardizeQuestionIds s4;
           v ← validateRequiredFields s5;
           Ok (mkExtracted s5 stale v),
           tr)
      end
  end.

(** The pipeline on what [parseJsonSafely] returned. Reading
    [structure.parts] raises a [TypeError] when the parsed value is
    [null]; so does [parts.forEach] in stage 1 when [parts] is an object
    that is not an array, reading [part.part] in stage 1 when a part is
    [null], and reading [question.questionId] in stage 2 when a question
    is [null] (every question of the parsed document is in a merged
    part). Nothing reaches the file system before stage 4, so in each
    of these cases the handler throws with an empty trace. *)
Definition entryObjects (parsed : option Parsed) : result Structure :=
  match parsed with
  | None => Throw TypeError
  | Some d =>
      match d_parts d with
      | PartsAbsent => Ok (mkStructure (d_test d) (d_section d) None)
      | PartsObject => Throw TypeError
      | PartsArray entries =>
          match partObjects entries with
          | Ok ps => Ok (mkStructure (d_test d) (d_section d) (Some ps))
          | Throw e => Throw e
          end
      end
  end.

Definition postProcess (parsed : option Parsed)
    (uploadedImages : list UploadedImage)
    : result Extracted * list fs_event :=
  match entryObjects parsed with
  | Ok s => runStages s uploadedImages
  | Throw e => (Throw e, [])
  end.

Definition postProcessWriting (parsed : option Parsed)
    (uploadedImages : list UploadedImage)
    : result Extracted * list fs_event :=
  match entryObjects parsed with
  | Ok s => runStagesWriting s uploadedImages
  | Throw e => (Throw e, [])
  end.

End Pipeline.

End Endpoint.

Import Endpoint.

(* ================================================================== *)
(** ** OCR gateway: the constructor and [extractTextBatch] *)
(* ================================================================== *)

Module Batch.

(** The options object of the constructor and the environment variable
    [OCR_SERVICE]. *)
Record Options : Type := mkOptions {
  opt_primaryService : option jsstring;
  opt_fallbackService : option jsstring;
  opt_maxRetries : option Z
}.

(** [a || b] on strings and on numbers. *)
Definition or_str (a : option jsstring) (b : jsstring) : jsstring :=
  if truthy_str a then default [] a else b.

Definition or_num (a : option Z) (b : Z) : Z :=
  if truthy_num a then default 0 a else b.

Definition newOCRService (options : Options) (OCR_SERVICE : option jsstring)
    : OCRService :=
  mkOCRService
    (or_str (opt_primaryService options)
       (or_str OCR_SERVICE (js "tesseract")))
    (or_str (opt_fallbackService options) (js "tesseract"))
    (or_num (opt_maxRetries options) 2).

Section Backends.

Variable Payload : Type.
Variable w : World Payload.

(** An entry of the array that [extractTextBatch] returns: [success]
    with the [result], or not with the [error] message. *)
Record BatchEntry : Type := mkBatchEntry {
  index : nat;
  imagePath : jsstring;
  outcome : OcrResult Payload + jsstring
}.

Definition success (e : BatchEntry) : bool :=
  match outcome e with
  | inl _ => true
  | inr _ => false
  end.

(** The [try]/[catch] of the loop body: the [catch] reads
    [error.message], which throws in its turn when the value thrown is
    [null]. *)
Definition batchEntry (i : nat) (path : jsstring)
    (r : result (OcrResult Payload)) : result BatchEntry :=
  match r with
  | Ok res => Ok (mkBatchEntry i path (inl res))
  | Throw ThrownNull => Throw TypeError
  | Throw e => Ok (mkBatchEntry i path (inr (message e)))
  end.

(** The [for] loop, from index [i] on. *)
Fixpoint batchFrom (svc : OCRService) (i : nat) (imagePaths : list jsstring)
    (tr : trace) : result (list BatchEntry) * trace :=
  match imagePaths with
  | [] => (Ok [], tr)
  | path :: rest =>
      let (r, tr1) := extractText w svc tr in
      match batchEntry i path r with
      | Throw e => (Throw e, tr1)
      | Ok entry =>
          match batchFrom svc (S i) rest tr1 with
          | (Ok entries, tr2) => (Ok (entry :: entries), tr2)
          | (Throw e, tr2) => (Throw e, tr2)
          end
      end
  end.

Definition extractTextBatch (svc : OCRService) (imagePaths : list jsstring)
    (tr : trace) : result (list BatchEntry) * trace :=
  batchFrom svc 0 imagePaths tr.

End Backends.

Arguments mkBatchEntry {Payload} _ _ _.
Arguments index {Payload} _.
Arguments imagePath {Payload} _.
Arguments outcome {Payload} _.
Arguments success {Payload} _.
Arguments batchEntry {Payload} _ _ _.
Arguments batchFrom {Payload} _ _ _ _ _.
Arguments extractTextBatch {Payload} _ _ _ _.

End Batch.

Import Batch.

(* ================================================================== *)
(** ** Predicates and sample inputs used by the statements *)
(* ================================================================== *)

Module Props.

(** The shape that stage 2 establishes and the later stages rely on:
    [parts] is an array and every part has a [questions] array. *)
Definition has_arrays (s : Structure) : Prop :=
  match parts s with
  | Some ps => Forall (fun p => is_Some (questions p)) ps
  | None => False
  end.

(** What stage 7 does to one part once its [questions] array is there. *)
Definition renumberPart (test : option jsstring) (partIndex : nat)
    (p : Part) : Part :=
  set_questions
    (Some (imap (renumberQuestion test (part p) partIndex)
             (default [] (questions p)))) p.

(** A question with every optional property absent. *)
Definition blank : Question :=
  mkQuestion None None None None None None None None None None None None
    None None None None None.

Definition sample_question : Question :=
  set_questionId (Some (js "listening-1-1-7"))
    (set_number (Some 42) (set_type (Some (js "form-fill")) blank)).

Definition sample_structure : Structure :=
  mkStructure (Some (js "1")) (Some (js "Listening"))
    (Some [mkPart (Some 1) None None (Some [sample_question]) []]).

(** [toLowerCase] on ASCII text. *)
Definition ascii_toLowerCase (s : jsstring) : jsstring :=
  map (fun c => if is_upper c then (c + 32)%N else c) s.

(** Documents that lack an array. *)
Definition no_parts : Structure :=
  mkStructure (Some (js "1")) (Some (js "Listening")) None.

Definition part_without_questions : Structure :=
  mkStructure (Some (js "1")) (Some (js "Listening"))
    (Some [mkPart (Some 1) (Some (js "Part 1 instructions"))
             (Some (js "1-10")) None []]).

(** Documents as parsed, seen as documents of objects: [null] entries
    are left out (there are none when [has_null] is false). *)
Definition entries_of {A} (l : list (option A)) : list A := omap id l.

Definition part_of (p : ParsedPart) : Part :=
  mkPart (p_part p) (p_instructions p) (p_questionsRange p)
    (entries_of <$> p_questions p) (p_extra p).

Definition parts_of (d : Parsed) : option (list Part) :=
  match d_parts d with
  | PartsArray entries => Some (map part_of (entries_of entries))
  | PartsAbsent | PartsObject => None
  end.

Definition objects_of (d : Parsed) : Structure :=
  mkStructure (d_test d) (d_section d) (parts_of d).

Definition is_null {A} (e : option A) : bool :=
  match e with
  | None => true
  | Some _ => false
  end.

(** A part of the array is [null], or a question of a part is. *)
Definition null_entry (entries : list (option ParsedPart)) : bool :=
  existsb (fun e =>
             match e with
             | None => true
             | Some p => existsb is_null (default [] (p_questions p))
             end) entries.

Definition has_null (d : Parsed) : bool :=
  match d_parts d with
  | PartsArray entries => null_entry entries
  | PartsAbsent | PartsObject => false
  end.

(** The numbers of JavaScript are doubles: the arithmetic of stage 2 on
    part numbers is exact, and a template prints them in plain decimal,
    as long as they are integers of moderate size. Every part number
    and question number of the document is at most [2^49] in absolute
    value. *)
Definition moderate (o : option Z) : bool :=
  match o with
  | Some n => (- 2 ^ 49 <=? n) && (n <=? 2 ^ 49)
  | None => true
  end.

Definition tame (s : Structure) : bool :=
  forallb (fun p =>
             moderate (part p)
             && forallb (fun q => moderate (number q))
                  (default [] (questions p)))
    (default [] (parts s)).

(** The identifiers that stages 2 and 7 write. *)
Definition listening_id (test part_ index : jsstring) : jsstring :=
  js "listening-" ++ test ++ js "-" ++ part_ ++ js "-" ++ index.


(** The two tables of stage 2, case by case, with the value that a type
    outside the table gets. *)
Definition table_inputType (t : jsstring) : jsstring :=
  if bool_decide (t = js "multiple-choice") then js "radio"
  else if bool_decide (t = js "multi-select") then js "checkbox"
  else if bool_decide (t = js "matching") then js "drag"
  else js "text".

Definition table_answerConstraints (t : jsstring) : jsstring :=
  if bool_decide (t = js "multiple-choice")
  then js "CHOOSE THE CORRECT LETTER A, B OR C"
  else if bool_decide (t = js "multi-select") then js "CHOOSE TWO LETTERS A-E"
  else if bool_decide (t = js "matching") then js "CHOOSE FROM THE BOX A-H"
  else if bool_decide (t = js "map-labelling") then js "LABEL FROM MAP A-H"
  else if bool_decide (t = js "short-answer")
  then js "NO MORE THAN THREE WORDS"
  else if bool_decide (t = js "sentence-completion") then js "ONE WORD ONLY"
  else js "ONE WORD AND/OR A NUMBER".

(** A type that is the name of a member of [Object.prototype] finds
    that member in either table. *)
Definition table_value (entry : jsstring -> jsstring) (t : jsstring)
    : jsprop :=
  match inherited t with
  | Some member => member
  | None => PStr (entry t)
  end.

(** The values stage 2 leaves in a document, given the input values. *)
Definition defaulted_str (input : option jsstring) (fallback : jsstring)
    (output : option jsstring) : Prop :=
  output = Some (if truthy_str input then default [] input else fallback).

Definition defaulted_prop (input : option jsprop) (fallback : jsprop)
    (output : option jsprop) : Prop :=
  output = Some (if truthy_prop input then default (PStr []) input
                 else fallback).

Section Defaulted.

Variable toLowerCase : jsstring -> jsstring.

(** Question [q'] is question [q0] after stage 2, at 0-based position
    [j] of a part whose number is [n], in a document whose test is
    [t]: every property that stage 2 looks at is defined, with the
    input's value if that is truthy (for [isInteractive], if it is
    there; for [answer], if it is there) and the default otherwise;
    the other properties are the input's. *)
Definition question_defaulted (t : jsstring) (n : Z) (j : nat)
    (q0 q' : Question) : Prop :=
  exists ty,
    defaulted_str (questionId q0)
      (listening_id t (string_of_Z n) (string_of_Z (Z.of_nat j + 1)))
      (questionId q')
    /\ number q'
       = Some (if truthy_num (number q0) then default 0 (number q0)
               else (n - 1) * 10 + Z.of_nat j + 1)
    /\ defaulted_str (type q0) (autoDetectQuestionType toLowerCase q0)
         (Some ty)
    /\ type q' = Some ty
    /\ defaulted_prop (inputType q0) (table_value table_inputType ty)
         (inputType q')
    /\ defaulted_prop (answerConstraints q0)
         (table_value table_answerConstraints ty) (answerConstraints q')
    /\ isInteractive q' = Some (default true (isInteractive q0))
    /\ answer q' = Some (default (mkAnswer [] []) (answer q0))
    /\ set_questionId (questionId q0)
         (set_number (number q0)
            (set_type (type q0)
               (set_inputType (inputType q0)
                  (set_answerConstraints (answerConstraints q0)
                     (set_isInteractive (isInteractive q0)
                        (set_answer (answer q0) q'))))))
       = q0.

(** Part [p'] is part [p0] after stage 2, at 0-based index [k]. *)
Definition part_defaulted (t : jsstring) (k : nat) (p0 p' : Part) : Prop :=
  exists n qs',
    part p' = Some n
    /\ n = (if truthy_num (part p0) then default 0 (part p0)
            else Z.of_nat k + 1)
    /\ defaulted_str (instructions p0)
         (js "Part " ++ string_of_Z n ++ js " instructions")
         (instructions p')
    /\ defaulted_str (questionsRange p0)
         (string_of_Z ((n - 1) * 10 + 1) ++ js "-" ++ string_of_Z (n * 10))
         (questionsRange p')
    /\ extra p' = extra p0
    /\ questions p' = Some qs'
    /\ length qs' = length (default [] (questions p0))
    /\ forall j q0, default [] (questions p0) !! j = Some q0 ->
         exists q', qs' !! j = Some q' /\ question_defaulted t n j q0 q'.

End Defaulted.

(** A parsed document whose second question is [null]. *)
Definition null_question : Parsed :=
  mkParsed (Some (js "1")) (Some (js "Listening"))
    (PartsArray
       [Some (mkParsedPart (Some 1) None None (Some [Some blank; None]) [])]).

(** A parsed document with a part that lacks everything and a question
    that has only its type. *)
Definition bare_document : Parsed :=
  mkParsed None None
    (PartsArray
       [Some (mkParsedPart None None None
                (Some [Some (set_type (Some (js "matching")) blank)]) [])]).

(** The first hyphen-delimited segment of an identifier. *)
Fixpoint first_segment (s : jsstring) : jsstring :=
  match s with
  | [] => []
  | c :: s' => if ch "-" c then [] else c :: first_segment s'
  end.

(** A Reading document whose only question has no [questionId]. *)
Definition reading_doc : Structure :=
  mkStructure (Some (js "2")) (Some (js "Reading"))
    (Some [mkPart (Some 1) None None (Some [blank]) []]).

(** Every [questionId] of a document, part by part. *)
Definition questionIds (s : Structure) : list (option jsstring) :=
  concat (map (fun p => map questionId (default [] (questions p)))
            (default [] (parts s))).

(** Stage-5 inputs: a part with two dividers, the first with an empty
    list, followed by a matching question. *)
Definition divider (variants : list jsstring) : Question :=
  set_type (Some (js "divider"))
    (set_draggableVariants (Some variants) blank).

Definition matching : Question := set_type (Some (js "matching")) blank.

Definition two_dividers : Structure :=
  mkStructure (Some (js "1")) (Some (js "Listening"))
    (Some [mkPart (Some 1) None None
             (Some [divider []; divider [js "X"; js "Y"]; matching]) []]).

Definition one_divider : Structure :=
  mkStructure (Some (js "1")) (Some (js "Listening"))
    (Some [mkPart (Some 1) None None
             (Some [divider [js "X"; js "Y"]; matching; matching]) []]).

(** The list stage 5 hands to the matching questions of a part: that of
    the first divider that has a [draggableVariants] array, or the empty
    list. *)
Definition linked_variants (qs : list Question) : list jsstring :=
  match find is_variant_divider qs with
  | Some d => default [] (draggableVariants d)
  | None => []
  end.

(** The [draggableVariants] of every question, part by part. *)
Definition draggables (s : Structure)
    : list (list (option (list jsstring))) :=
  map (fun p => map draggableVariants (default [] (questions p)))
    (default [] (parts s)).

(** Stage-1 vocabulary. *)
Definition questions_of (p : Part) : list Question :=
  default [] (questions p).

Definition numbered (k : option Z) (p : Part) : bool :=
  bool_decide (part p = k).

(** The questions of all the parts of [ps] whose number is [k], in
    encounter order. *)
Definition gathered (k : option Z) (ps : list Part) : list Question :=
  concat (map questions_of (List.filter (numbered k) ps)).

(** Part [a] may stand before part [b] in an ascending sequence. *)
Definition part_lt (a b : Part) : Prop :=
  forall x y, part a = Some x -> part b = Some y -> x < y.

Definition part_le (a b : Part) : Prop :=
  forall x y, part a = Some x -> part b = Some y -> x <= y.

Definition ascending (ps : list Part) : Prop := StronglySorted part_lt ps.

(** Everything of a part but its questions. *)
Definition metadata (p : Part) : Part := set_questions None p.

(** The entry that the map of stage 1 holds under key [k] once the
    parts [ps] are processed: the first part numbered [k], with the
    gathered questions. *)
Definition entry (k : option Z) (ps : list Part) : option Part :=
  (fun first => set_questions (Some (gathered k ps)) first)
    <$> find (numbered k) ps.

(** Sample parts. *)
Definition question_named (name : string) : Question :=
  set_questionId (Some (js name)) blank.

Definition part_numbered (n : option Z) (instr : string)
    (qs : option (list Question)) : Part :=
  mkPart n (Some (js instr)) None qs [].

Definition duplicated_part_2 : list Part :=
  [ part_numbered (Some 2) "first"
      (Some [question_named "A"; question_named "B"]);
    part_numbered (Some 2) "second" (Some [question_named "C"]) ].

Definition unnumbered_between : list Part :=
  [ part_numbered (Some 3) "three" None;
    part_numbered None "unnumbered" None;
    part_numbered (Some 1) "one" None ].

(** Gateway vocabulary. *)

(** A world in which the remote service never reports healthy and the
    local engine succeeds. *)
Definition remote_down : World unit :=
  mkWorld (fun _ => false) (fun _ => inr (js "connect ECONNREFUSED"))
    (fun _ => inl tt).

(** The service as the server configures it. *)
Definition server_service : OCRService :=
  mkOCRService (js "doctr") (js "tesseract") 2.

(** What [n] attempts on an unhealthy remote primary do: [n] health
    checks, with a one-second delay after each but the last. *)
Fixpoint unhealthy_attempts (n : nat) : trace :=
  match n with
  | O => []
  | S m =>
      HealthCheck ::
      match m with
      | O => []
      | S _ => Delay 1000 :: unhealthy_attempts m
      end
  end.

(** The error raised when the fallback fails after the primary. *)
Definition both_failed (svc : OCRService) (last : jsstring) : jserror :=
  Error (js "Both primary (" ++ primaryService svc
         ++ js ") and fallback (" ++ fallbackService svc
         ++ js ") OCR services failed. Last error: " ++ last).

(** JSON repair vocabulary. *)

(** The text from the first opening brace on. *)
Fixpoint from_first_open (s : jsstring) : option jsstring :=
  match s with
  | [] => None
  | c :: s' => if ch "{" c then Some s else from_first_open s'
  end.

(** The longest prefix that ends with a closing brace. *)
Fixpoint upto_last_close (s : jsstring) : option jsstring :=
  match s with
  | [] => None
  | c :: s' =>
      match upto_last_close s' with
      | Some t => Some (c :: t)
      | None => if ch "}" c then Some [c] else None
      end
  end.

(** The span from the first opening brace to the last closing brace. *)
Definition outer_span (raw : jsstring) : option jsstring :=
  match from_first_open raw with
  | Some (c :: t) => cons c <$> upto_last_close t
  | _ => None
  end.

(** Following the spec's words, the first balanced span: from the first
    opening brace to the closing brace that matches it. [depth] counts
    the braces opened inside the span and not yet closed. *)
Fixpoint balanced_prefix (depth : nat) (s : jsstring) : option jsstring :=
  match s with
  | [] => None
  | c :: s' =>
      if ch "{" c then cons c <$> balanced_prefix (S depth) s'
      else if ch "}" c then
        match depth with
        | O => Some [c]
        | S d => cons c <$> balanced_prefix d s'
        end
      else cons c <$> balanced_prefix depth s'
  end.

Definition first_balanced_span (raw : jsstring) : option jsstring :=
  match from_first_open raw with
  | Some (c :: t) => cons c <$> balanced_prefix 0 t
  | _ => None
  end.

(** A parser that agrees with [JSON.parse] on the empty object and
    rejects every other text. *)
Definition parse_empty_object (s : jsstring) : option unit :=
  if bool_decide (s = js "{}") then Some tt else None.

(** The four attempts of [parseJsonSafely], in order. *)
Definition attempts {J : Type} (parse : jsstring -> option J)
    (repair : option (jsstring -> option jsstring)) (raw : jsstring)
    : list (option J) :=
  let cleaned (s : jsstring) :=
    match cleanJsonString s with
    | Ok c => parse c
    | Throw _ => None
    end in
  [ parse raw;
    cleaned raw;
    f ← repair; repaired ← f raw; parse repaired;
    span ← outer_span raw; cleaned span ].

(** The excerpt of the raw text in the failure message. *)
Definition excerpt (raw : jsstring) : jsstring :=
  take 200 raw ++ (if (200 <? length raw)%nat then js "..." else []).

(** Text cleaner vocabulary. *)

(** The code units that some rewriting pass of [cleanOCRText] other
    than the whitespace passes and the header pass looks for: digits,
    upper-case letters, sentence punctuation, dashes, pipes and
    underscores. *)
Definition trigger (c : N) : bool :=
  is_digit c || is_upper c || ch "." c || ch "?" c || ch "!" c
  || is_dash c || ch "|" c || ch "_" c.

(** Plain text: no code unit is a trigger. *)
Definition plain (s : jsstring) : Prop :=
  Forall (fun c => trigger c = false) s.

(** Pattern [r] cannot match without reading a code unit of class [p]. *)
Inductive Needs (p : N -> bool) : regex -> Prop :=
| Needs_chr q : (forall c, q c = true -> p c = true) -> Needs p (Chr q)
| Needs_ahead q : (forall c, q c = true -> p c = true) -> Needs p (Ahead q)
| Needs_cat_l r1 r2 : Needs p r1 -> Needs p (Cat r1 r2)
| Needs_cat_r r1 r2 : Needs p r2 -> Needs p (Cat r1 r2)
| Needs_grp r : Needs p r -> Needs p (Grp r).

(** Whitespace-normalised text: every whitespace code unit is a space
    and is not followed by whitespace. *)
Fixpoint collapsed (s : jsstring) : Prop :=
  match s with
  | [] => True
  | c :: s' =>
      (is_space c = true ->
       c = 32%N /\ match s' with
                   | d :: _ => is_space d = false
                   | [] => True
                   end)
      /\ collapsed s'
  end.

(** No whitespace at either end. *)
Definition trimmed (s : jsstring) : Prop :=
  match s with
  | c :: _ => is_space c = false
  | [] => True
  end
  /\ match rev s with
     | c :: _ => is_space c = false
     | [] => True
     end.

(** The [\s+] pass of [cleanOCRText], started anywhere in the text. *)
Definition squeeze (b : bool) (s : jsstring) : jsstring :=
  replace_from re_spaces (always space) b 0 s.

(** More matcher vocabulary. *)

(** Every code unit of the text still to read and of the captures has
    property [Q]. *)
Definition sound (Q : N -> Prop) (st : mstate) : Prop :=
  Forall Q (rest st) /\ Forall (Forall Q) (caps st).

(** Pattern [r] matches, with a match that is not empty, wherever a
    code unit of class [p] stands. *)
Definition clears (p : N -> bool) (r : regex) : Prop :=
  forall b c s, p c = true ->
    exists after cs,
      match_here r b (c :: s) = Some (after, cs)
      /\ (length after <= length s)%nat.
(** Stage-6 vocabulary. *)

(** The four characters that stage 6 turns into hyphens: a with
    circumflex, the euro sign and the two double quotation marks. *)
Definition rewritten_by_stage6 : list N := [226; 8364; 8220; 8221]%N.

(** The text with each of them replaced by a hyphen. *)
Definition hyphenated (s : jsstring) : jsstring :=
  map (fun c => if bool_decide (c ∈ rewritten_by_stage6) then 45%N else c) s.

(** A document whose only question has en dashes in its identifier and
    an em dash followed by a euro sign in its number range. *)
Definition dashed_structure : Structure :=
  mkStructure (Some (js "1")) (Some (js "Listening"))
    (Some [mkPart (Some 1) None None
             (Some [set_questionId
                      (Some (js "listening" ++ [en_dash] ++ js "1"
                             ++ [en_dash] ++ js "1" ++ [en_dash] ++ js "7"))
                      (set_numberRange
                         (Some (js "7" ++ [em_dash; 8364%N] ++ js "8"))
                         blank)]) []]).

(** Text-cleaner vocabulary, continued. *)

(** The template builds its text from the match, the captures and code
    units that have property [Q]. *)
Definition adds_only (Q : N -> Prop)
    (repl : jsstring -> list jsstring -> jsstring) : Prop :=
  forall m cs, Forall Q m -> Forall (Forall Q) cs -> Forall Q (repl m cs).

(** The glyphs that [cleanOCRText] treats as scanning noise or
    rewrites: the pipe, the underscore, the en dash and the em dash. *)
Definition noise (c : N) : bool :=
  ch "|" c || ch "_" c || N.eqb c en_dash || N.eqb c em_dash.

(** The control characters that the last pass of [cleanJsonString]
    deletes: all of U+0000 to U+001F but tab, line feed and carriage
    return. *)
Definition control (c : N) : bool :=
  between 0 8 c || N.eqb c 11 || N.eqb c 12 || between 14 31 c.

(** Gateway vocabulary, continued. *)

(** Calls of a backend in a stretch of the trace. *)
Definition extractions (ev : trace) : nat :=
  (count DocTRExtract ev + count TesseractExtract ev)%nat.

(** In the events [ev] that follow the trace [tr], every call of the
    remote extraction comes directly after a health check, and that
    check found the service healthy. *)
Definition checked {Payload : Type} (w : World Payload) (tr ev : trace)
    : Prop :=
  forall i, ev !! i = Some DocTRExtract ->
    exists j, i = S j
              /\ ev !! j = Some HealthCheck
              /\ health w (count HealthCheck (tr ++ take j ev)) = true.

(** What [n] failing attempts on the local engine do: [n] calls, with a
    one-second delay after each but the last. *)
Fixpoint local_attempts (n : nat) : trace :=
  match n with
  | O => []
  | S m =>
      TesseractExtract ::
      match m with
      | O => []
      | S _ => Delay 1000 :: local_attempts m
      end
  end.

(** A world in which every backend fails; the local engine numbers its
    failures. *)
Definition all_down : World unit :=
  mkWorld (fun _ => true) (fun _ => inr (js "HTTP 500"))
    (fun n => inr (js "tesseract failure " ++ string_of_Z (Z.of_nat n))).

(** The service a constructor call without options builds when the
    environment names no service. *)
Definition default_service : OCRService :=
  newOCRService (mkOptions None None None) None.

(** A service with no retry budget and the same service as fallback. *)
Definition no_budget : OCRService :=
  mkOCRService (js "tesseract") (js "tesseract") (-1).

(** Stage-2 vocabulary, continued. *)

(** A question in which stage 2 finds nothing to set, at position [j]
    of a part numbered [n]: every required property is there, but for
    the number, which may be the [0] that the stage has computed
    itself. *)
Definition settled (n : Z) (j : nat) (q : Question) : Prop :=
  truthy_str (questionId q) = true
  /\ (truthy_num (number q) = true
      \/ number q = Some ((n - 1) * 10 + Z.of_nat j + 1))
  /\ truthy_str (type q) = true
  /\ truthy_prop (inputType q) = true
  /\ truthy_prop (answerConstraints q) = true
  /\ present (isInteractive q) = true
  /\ present (answer q) = true.

(** Stage-7 and stage-8 vocabulary. *)

(** The questions that stage 7 numbers and stage 8 checks. *)
Definition counted (q : Question) : bool :=
  negb (type_is "divider" q) && negb (type_is "image" q).

(** Every part has at most ten questions. *)
Definition at_most_ten (s : Structure) : Prop :=
  Forall (fun p => (length (questions_of p) <= 10)%nat)
    (default [] (parts s)).

(** Every property that stage 8 requires is there. *)
Definition question_complete (q : Question) : bool :=
  negb (counted q)
  || (truthy_str (questionId q) && truthy_num (number q)
      && truthy_str (type q) && truthy_prop (inputType q)
      && present (isInteractive q) && present (answer q)).

Definition part_complete (p : Part) : bool :=
  truthy_num (part p) && truthy_str (instructions p)
  && truthy_str (questionsRange p)
  && forallb question_complete (questions_of p).

Definition complete (s : Structure) : bool :=
  truthy_str (test s) && truthy_str (section s)
  && forallb part_complete (default [] (parts s)).

(** A document with two parts of two questions each, all numbered 1 by
    the input. *)
Definition misnumbered : Structure :=
  let q := set_questionId (Some (js "q")) (set_number (Some 1)
             (set_type (Some (js "form-fill")) blank)) in
  mkStructure (Some (js "1")) (Some (js "Listening"))
    (Some [mkPart (Some 1) None None (Some [q; q]) [];
           mkPart (Some 2) None None (Some [q; q]) []]).

(** Stage-1 vocabulary, continued. *)

(** Every part stands before its successor for the comparator of the
    sort. *)
Fixpoint chain (l : list Part) : Prop :=
  match l with
  | a :: l' =>
      match l' with
      | b :: _ => compare_parts a b <= 0
      | [] => True
      end
      /\ chain l'
  | [] => True
  end.

(** Parts 1 and 2, in order, each with its questions. *)
Definition two_parts : list Part :=
  [ part_numbered (Some 1) "one" (Some [question_named "A"]);
    part_numbered (Some 2) "two"
      (Some [question_named "B"; question_named "C"]) ].

(** Image vocabulary. *)

(** [k] occurs in [t] as a contiguous piece. *)
Definition occurs (k t : jsstring) : Prop :=
  exists pre post, t = pre ++ k ++ post.

(** The keywords that decide [detectMapImage]. *)
Definition live_keywords : list jsstring :=
  map js
    ["map"; "plan"; "diagram"; "layout"; "museum"; "building"; "entrance";
     "exit"; "reception"; "shop"; "gallery"; "room"; "north"; "south";
     "east"; "west"; "stairs"; "lift"; "elevator"; "parking"; "garden";
     "path"; "route"; "direction"; "location"]%string.

(** The text holds no capital A with tilde (U+00C3); no text that
    [toLowerCase] returns holds one. *)
Definition no_A_tilde (t : jsstring) : bool :=
  forallb (fun c => negb (N.eqb c 195)) t.

(** The questions of a part with the image object [m] placed directly
    before the first map-labelling question, unless an image question
    comes earlier in the part. *)
Fixpoint place_map (m : Question) (qs : list Question) : list Question :=
  match qs with
  | [] => []
  | q :: rest =>
      if type_is "image" q then qs
      else if type_is "map-labelling" q then m :: qs
      else q :: place_map m rest
  end.

(** An image question that carries its picture as base64 text. *)
Definition embedded (q : Question) : bool :=
  type_is "image" q && truthy_str (base64 q).

(** The base64 text without the PNG data-URI prefix, when it starts
    with it. *)
Definition data_prefix : jsstring := js "data:image/png;base64,".

Definition payload_of (b : jsstring) : jsstring :=
  if starts_with data_prefix b then drop (length data_prefix) b else b.

(** The address under which the uploads directory is served. *)
Definition upload_url (name : jsstring) : jsstring :=
  js "http://localhost:3001/uploads/" ++ name ++ js ".png".

(** Question [q'] is what stage 4 makes of question [q], when [tr] is
    the trace before the stage and [ev] are the events of the stage.
    An embedded picture has its place in [ev]: a write, directly
    preceded by a reading of the clock when the question has no
    questionId. The file is named after the questionId, or "image-"
    and the clock's value; the data are the base64 text without the
    prefix; whether the write goes through is the world's answer at
    that write. The question gets the URL in place of the text if it
    does, and stays as it was if not. *)
Definition stored (w : FsWorld) (tr ev : list fs_event) (q q' : Question)
    : Prop :=
  if embedded q then
    exists before after,
      let named := truthy_str (questionId q) in
      let name :=
        if named then default [] (questionId q)
        else js "image-"
             ++ string_of_Z (clock w (clock_reads (tr ++ before))) in
      let done := write_ok w (writes (tr ++ before)) in
      ev = before
           ++ (if named then [] else [Now])
           ++ [WriteFile (name ++ js ".png")
                 (payload_of (default [] (base64 q))) done]
           ++ after
      /\ q' = (if done
               then set_base64 None (set_url (Some (upload_url name)) q)
               else q)
  else q' = q.

(** Sample documents: a part with a form-fill question and two
    map-labelling questions, and a part with an embedded image. *)
Definition typed (t : string) : Question := set_type (Some (js t)) blank.

Definition map_part : Structure :=
  mkStructure (Some (js "1")) (Some (js "Listening"))
    (Some [mkPart (Some 2) None None
             (Some [typed "form-fill"; typed "map-labelling";
                    typed "map-labelling"]) []]).

Definition map_upload : UploadedImage :=
  mkUploadedImage (js "http://localhost:3001/uploads/t-1.png") (js "t-1.png")
    true.

Definition picture : Question :=
  mkQuestion (Some (js "fig")) None (Some (js "image")) None None None None
    None None None None None None None
    (Some (data_prefix ++ js "iVBORw0KGgo=")) None None.

Definition picture_part : Structure :=
  mkStructure (Some (js "1")) (Some (js "Listening"))
    (Some [mkPart (Some 1) None None (Some [typed "form-fill"; picture]) []]).

(** A world in which every write goes through. *)
Definition disk_ok : FsWorld := mkFsWorld (fun _ => 1700000000000) (fun _ => true).

(** All the questions of a document, in document order. *)
Definition all_questions (s : Structure) : list Question :=
  concat (map questions_of (default [] (parts s))).

(** Pipeline vocabulary. *)

(** Every part of the document has a [questions] array and every
    question has property [P]. *)
Definition each_question (P : Question -> Prop) (s : Structure) : Prop :=
  exists ps,
    parts s = Some ps
    /\ Forall (fun p => exists qs, questions p = Some qs /\ Forall P qs) ps.

(** Document [s'] has the test, the section and the parts of [s], each
    part with its properties other than the questions, and all its
    questions have property [P]. *)
Definition follows (P : Question -> Prop) (s s' : Structure) : Prop :=
  test s' = test s
  /\ section s' = section s
  /\ exists ps ps',
       parts s = Some ps
       /\ parts s' = Some ps'
       /\ Forall2 (fun p p' =>
                     metadata p' = metadata p
                     /\ exists qs', questions p' = Some qs'
                                    /\ Forall P qs')
            ps ps'.

(** A property of questions that the stages 3 to 6 keep: it survives
    the deep copy, the assignments of these stages, and holds of the
    image object that stage 3 adds. *)
Definition stable (P : Question -> Prop) : Prop :=
  (forall q, P q -> P (copy_question q))
  /\ (forall q v, P q -> P (set_draggableVariants v q))
  /\ (forall q, P q -> P (standardizeQuestion q))
  /\ (forall q u, P q -> P (set_base64 None (set_url u q)))
  /\ (forall t n img, P (mapQuestion t n img)).

(** What stage 8 requires of a question, number aside, and of a
    part. *)
Definition ready (q : Question) : Prop :=
  counted q = true ->
  truthy_str (questionId q) = true
  /\ truthy_str (type q) = true
  /\ present (isInteractive q) = true
  /\ present (answer q) = true.

(** The [inputType] is there and survives a deep copy. *)
Definition solid (q : Question) : Prop :=
  counted q = true ->
  truthy_prop (inputType q) = true /\ inputType q <> Some PFunction.

Definition labelled (p : Part) : Prop :=
  truthy_num (part p) = true
  /\ truthy_str (instructions p) = true
  /\ truthy_str (questionsRange p) = true.

(** A question as a JSON text can describe it, whose type is not the
    name of a function that every object inherits (such as
    "constructor" or "toString"). *)
Definition ordinary (q : Question) : Prop :=
  inputType q <> Some PFunction
  /\ inherited (default (js "undefined") (type q)) <> Some PFunction.

(** The document handed to stage 2 by the endpoint: the merged parts of
    the parsed document, without its [test] and [section]. *)
Definition merged_document (parsed : Structure) : Structure :=
  mkStructure None None
    (Some (mergeDuplicateParts (default [] (parts parsed)))).

(** A parsed reading document, with test 7. *)
Definition reading_parsed : Structure :=
  mkStructure (Some (js "7")) (Some (js "Reading"))
    (Some [mkPart (Some 3) None None
             (Some [typed "form-fill"; picture; typed "map-labelling"]) []]).

(** What the pipeline can run on: the parsed value is an object, its
    [parts], when there, is an array, and no part and no question is
    [null]. *)
Definition well_formed (parsed : option Parsed) : bool :=
  match parsed with
  | None => false
  | Some d =>
      match d_parts d with
      | PartsObject => false
      | PartsAbsent | PartsArray _ => negb (has_null d)
      end
  end.

Definition document_of (parsed : option Parsed) : Structure :=
  match parsed with
  | Some d => objects_of d
  | None => mkStructure None None None
  end.

(** The reading document above as the parser returns it, and the same
    with a [null] after its questions. *)
Definition reading_answer : option Parsed :=
  Some (mkParsed (Some (js "7")) (Some (js "Reading"))
          (PartsArray
             [Some (mkParsedPart (Some 3) None None
                      (Some [Some (typed "form-fill"); Some picture;
                             Some (typed "map-labelling")]) [])])).

Definition broken_answer : option Parsed :=
  Some (mkParsed (Some (js "7")) (Some (js "Reading"))
          (PartsArray
             [Some (mkParsedPart (Some 3) None None
                      (Some [Some (typed "form-fill"); None]) [])])).

End Props.

Import Props.

(* ================================================================== *)
(** ** Loops whose callback does not throw *)
(* ================================================================== *)

Section ForEach.

Context {A B : Type}.

Lemma forEach_from_ok (f : nat -> A -> result B) (g : nat -> A -> B)
    (n : nat) (l : list A) :
  (forall i x, l !! i = Some x -> f (n + i)%nat x = Ok (g (n + i)%nat x)) ->
  forEach_from f n l = Ok (imap (fun i => g (n + i)%nat) l).
Proof.
  revert n. induction l as [|x l IH]; intros n Hf; simpl; [done|].
  pose proof (Hf 0%nat x eq_refl) as H0. rewrite Nat.add_0_r in H0.
  rewrite H0. simpl.
  rewrite (IH (S n)).
  - simpl. rewrite Nat.add_0_r. f_equal. f_equal. apply imap_ext.
    intros i y _. simpl. f_equal. lia.
  - intros i y Hi. specialize (Hf (S i) y Hi).
    by replace (S n + i)%nat with (n + S i)%nat by lia.
Qed.

Lemma forEach_ok (f : nat -> A -> result B) (g : nat -> A -> B)
    (l : list A) :
  (forall i x, l !! i = Some x -> f i x = Ok (g i x)) ->
  forEach f l = Ok (imap g l).
Proof.
  intros Hf. unfold forEach. by rewrite (forEach_from_ok f g 0 l).
Qed.

End ForEach.

(* ================================================================== *)
(** ** Stage 7: numbering *)
(* ================================================================== *)

Lemma enforceQuestionNumbering_ok (s : Structure) (ps : list Part) :
  parts s = Some ps ->
  Forall (fun p => is_Some (questions p)) ps ->
  enforceQuestionNumbering s =
    Ok (mkStructure (test s) (section s)
          (Some (imap (renumberPart (test s)) ps))).
Proof.
  intros Hps Hall. unfold enforceQuestionNumbering. rewrite Hps. simpl.
  rewrite (forEach_ok _ (renumberPart (test s))); [done|].
  intros i p Hi.
  apply (Forall_lookup_1 _ _ _ _ Hall) in Hi as [qs Hqs].
  unfold renumberPart. rewrite Hqs. simpl.
  by rewrite (forEach_ok _ (renumberQuestion (test s) (part p) i)).
Qed.

Lemma renumberQuestion_number test partNo p i q :
  type q <> Some (js "divider") ->
  type q <> Some (js "image") ->
  number (renumberQuestion test partNo p i q)
  = Some (10 * Z.of_nat p + Z.of_nat i + 1).
Proof.
  intros Hd Hi. unfold renumberQuestion, type_is.
  rewrite !bool_decide_eq_false_2 by done. simpl.
  destruct (truthy_str _); simpl; f_equal; lia.
Qed.

Lemma renumberQuestion_type test partNo p i q :
  type (renumberQuestion test partNo p i q) = type q.
Proof.
  unfold renumberQuestion.
  destruct (_ && _); [|done]. simpl. by destruct (truthy_str _).
Qed.

Lemma renumberQuestion_others test partNo p i q :
  set_number (number q)
    (set_questionId (questionId q) (renumberQuestion test partNo p i q))
  = q.
Proof.
  destruct q as [qid num ty it ac ii an dv nr tx qt qi tl op b64 u h].
  unfold renumberQuestion.
  destruct (_ && _); [|done]. cbn. by destruct (truthy_str qid).
Qed.

Lemma renumberQuestion_skipped test partNo p i q :
  negb (type_is "divider" q) && negb (type_is "image" q) = false ->
  renumberQuestion test partNo p i q = q.
Proof. intros H. unfold renumberQuestion. by rewrite H. Qed.

(** C1. On a document whose [parts] and [questions] arrays are present,
    [enforceQuestionNumbering] returns a document with the same test
    and section and, in place of every input part, a part with the same
    other properties and as many questions. In place of every input
    question that is neither a divider nor an image, at position [i] of
    the part at index [p], stands that question with number
    [10 * p + i + 1], whatever number the input carried, and with
    nothing else changed but its questionId; a divider or an image
    stands there unchanged. *)
Theorem numbering_invariant (s : Structure) :
  has_arrays s ->
  exists ps',
    enforceQuestionNumbering s
      = Ok (mkStructure (test s) (section s) (Some ps'))
    /\ length ps' = length (default [] (parts s))
    /\ forall (p : nat) (pt0 : Part),
         default [] (parts s) !! p = Some pt0 ->
         exists pt,
           ps' !! p = Some pt
           /\ metadata pt = metadata pt0
           /\ is_Some (questions pt)
           /\ length (questions_of pt) = length (questions_of pt0)
           /\ forall (i : nat) (q0 : Question),
                questions_of pt0 !! i = Some q0 ->
                exists q,
                  questions_of pt !! i = Some q
                  /\ if negb (type_is "divider" q0)
                        && negb (type_is "image" q0)
                     then number q
                          = Some (10 * Z.of_nat p + Z.of_nat i + 1)
                          /\ set_number (number q0)
                               (set_questionId (questionId q0) q)
                             = q0
                     else q = q0.
Proof.
  unfold has_arrays. destruct (parts s) as [ps|] eqn:Hps; [|done].
  intros Hall. eexists. split; [by apply enforceQuestionNumbering_ok|].
  cbn [default from_option id]. split; [apply length_imap|].
  intros p pt0 Hp. exists (renumberPart (test s) p pt0).
  split; [by rewrite list_lookup_imap, Hp|].
  split; [done|]. split; [by eexists|].
  assert (questions_of (renumberPart (test s) p pt0)
          = imap (renumberQuestion (test s) (part pt0) p) (questions_of pt0))
    as -> by reflexivity.
  split; [apply length_imap|].
  intros i q0 Hq.
  exists (renumberQuestion (test s) (part pt0) p i q0).
  split; [by rewrite list_lookup_imap, Hq|].
  destruct (negb (type_is "divider" q0) && negb (type_is "image" q0)) eqn:Hc.
  - split; [|apply renumberQuestion_others].
    apply andb_true_iff in Hc as [Hd Hi].
    apply negb_true_iff, bool_decide_eq_false in Hd, Hi.
    by apply renumberQuestion_number.
  - by apply renumberQuestion_skipped.
Qed.

Lemma numbering_invariant_witness :
  exists ps',
    enforceQuestionNumbering sample_structure
      = Ok (mkStructure (test sample_structure) (section sample_structure)
              (Some ps'))
    /\ length ps' = length (default [] (parts sample_structure))
    /\ forall (p : nat) (pt0 : Part),
         default [] (parts sample_structure) !! p = Some pt0 ->
         exists pt,
           ps' !! p = Some pt
           /\ metadata pt = metadata pt0
           /\ is_Some (questions pt)
           /\ length (questions_of pt) = length (questions_of pt0)
           /\ forall (i : nat) (q0 : Question),
                questions_of pt0 !! i = Some q0 ->
                exists q,
                  questions_of pt !! i = Some q
                  /\ if negb (type_is "divider" q0)
                        && negb (type_is "image" q0)
                     then number q
                          = Some (10 * Z.of_nat p + Z.of_nat i + 1)
                          /\ set_number (number q0)
                               (set_questionId (questionId q0) q)
                             = q0
                     else q = q0.
Proof.
  apply (numbering_invariant sample_structure).
  unfold has_arrays. simpl. repeat constructor. by eexists.
Defined.

(* ================================================================== *)
(** ** Stage 8 and the stages that assume the arrays *)
(* ================================================================== *)

(** C7. On a document without a [parts] array, [validateRequiredFields]
    records the error and then throws a [TypeError] instead of returning
    its report; on a part without a [questions] array,
    [validateRequiredFields], [standardizeQuestionIds] and
    [enforceQuestionNumbering] throw as well. *)
Theorem stages_throw_on_missing_arrays :
  validateRequiredFields no_parts = Throw TypeError
  /\ validateRequiredFields part_without_questions = Throw TypeError
  /\ standardizeQuestionIds part_without_questions = Throw TypeError
  /\ enforceQuestionNumbering part_without_questions = Throw TypeError
  /\ enforceQuestionNumbering no_parts = Throw TypeError.
Proof. repeat split; reflexivity. Qed.

(** When [validateRequiredFields] does return, [valid] is true exactly
    when [errors] is empty. *)
Lemma validateRequiredFields_valid (s : Structure) (v : Validation) :
  validateRequiredFields s = Ok v -> (valid v = true <-> errors v = []).
Proof.
  unfold validateRequiredFields.
  destruct (forEach_opt partErrors (parts s)) as [perrs|]; simpl; [|done].
  intros [= <-]. simpl. rewrite bool_decide_eq_true.
  split; [apply nil_length_inv | by intros ->].
Qed.

(* ================================================================== *)
(** ** Stage 2: structural defaulting *)
(* ================================================================== *)

Section Stage2.

Variable toLowerCase : jsstring -> jsstring.

Lemma autoDetectQuestionType_nonempty (q : Question) :
  autoDetectQuestionType toLowerCase q <> [].
Proof.
  unfold autoDetectQuestionType.
  repeat match goal with |- context [if ?b then _ else _] => destruct b end;
    discriminate.
Qed.

Lemma truthy_str_Some (o : option jsstring) :
  truthy_str o = true -> exists s, o = Some s /\ s <> [].
Proof. destruct o as [[|c s]|]; try done. intros _. by eexists. Qed.

Lemma truthy_str_default (o : option jsstring) :
  truthy_str o = true -> o = Some (default [] o).
Proof. by destruct o as [[|c s]|]. Qed.

Lemma truthy_num_default (o : option Z) :
  truthy_num o = true -> o = Some (default 0 o).
Proof. by destruct o. Qed.

Lemma truthy_prop_default (o : option jsprop) :
  truthy_prop o = true -> o = Some (default (PStr []) o).
Proof. by destruct o. Qed.

Ltac fields :=
  cbn [questionId number type inputType answerConstraints isInteractive
       answer draggableVariants numberRange text questionText
       q_instructions textList options base64 url headline
       set_questionId set_number set_type set_inputType
       set_answerConstraints set_isInteractive set_answer present].

Lemma own_None (table : list (string * string)) (key : jsstring) :
  Forall (fun kv => key <> js kv.1) table -> own table key = None.
Proof.
  induction 1 as [|[k v] table Hk _ IH]; [done|]. simpl in *.
  by rewrite bool_decide_eq_false_2.
Qed.

Lemma inherited_member (t : jsstring) :
  inherited t = None \/ inherited t = Some PFunction
  \/ inherited t = Some PObject.
Proof.
  unfold inherited. destruct (bool_decide (t = _)); [auto|].
  destruct (bool_decide (t ∈ _)); auto.
Qed.

(** The lookups of stage 2 against the two tables written out by
    cases. *)
Lemma getInputTypeForQuestionType_table (t : jsstring) :
  getInputTypeForQuestionType (Some t) = table_value table_inputType t.
Proof.
  unfold getInputTypeForQuestionType, lookup_literal, table_value,
    table_inputType.
  cbn [default id from_option].
  destruct (decide (t = js "form-fill")) as [->|H1]; [reflexivity|].
  destruct (decide (t = js "multiple-choice")) as [->|H2]; [reflexivity|].
  destruct (decide (t = js "multi-select")) as [->|H3]; [reflexivity|].
  destruct (decide (t = js "matching")) as [->|H4]; [reflexivity|].
  destruct (decide (t = js "map-labelling")) as [->|H5]; [reflexivity|].
  destruct (decide (t = js "short-answer")) as [->|H6]; [reflexivity|].
  destruct (decide (t = js "sentence-completion")) as [->|H7]; [reflexivity|].
  rewrite own_None by (repeat constructor; cbn [fst]; done).
  rewrite !bool_decide_eq_false_2 by done.
  by destruct (inherited_member t) as [-> | [-> | ->]].
Qed.

Lemma getDefaultAnswerConstraints_table (t : jsstring) :
  getDefaultAnswerConstraints (Some t)
  = table_value table_answerConstraints t.
Proof.
  unfold getDefaultAnswerConstraints, lookup_literal, table_value,
    table_answerConstraints.
  cbn [default id from_option].
  destruct (decide (t = js "form-fill")) as [->|H1]; [reflexivity|].
  destruct (decide (t = js "multiple-choice")) as [->|H2]; [reflexivity|].
  destruct (decide (t = js "multi-select")) as [->|H3]; [reflexivity|].
  destruct (decide (t = js "matching")) as [->|H4]; [reflexivity|].
  destruct (decide (t = js "map-labelling")) as [->|H5]; [reflexivity|].
  destruct (decide (t = js "short-answer")) as [->|H6]; [reflexivity|].
  destruct (decide (t = js "sentence-completion")) as [->|H7]; [reflexivity|].
  rewrite own_None by (repeat constructor; cbn [fst]; done).
  rewrite !bool_decide_eq_false_2 by done.
  by destruct (inherited_member t) as [-> | [-> | ->]].
Qed.

Lemma fixQuestion_defaulted (t : jsstring) (n : Z) (j : nat) (q : Question) :
  question_defaulted toLowerCase t n j q (fixQuestion toLowerCase t n j q).
Proof.
  destruct q as [qid num ty it ac ii an dv nr tx qt qi tl op b64 u h].
  unfold question_defaulted, defaulted_prop, defaulted_str, fixQuestion,
    listening_id.
  fields.
  exists (if truthy_str ty then default [] ty
          else autoDetectQuestionType toLowerCase
                 (mkQuestion qid num ty it ac ii an dv nr tx qt qi tl op
                    b64 u h)).
  unfold defaultQuestionId; fields;
    destruct (truthy_str qid) eqn:Hid; fields;
    unfold defaultNumber; fields;
    destruct (truthy_num num) eqn:Hnum; fields;
    unfold defaultType; fields;
    destruct (truthy_str ty) eqn:Hty; fields;
    unfold defaultInputType; fields;
    destruct (truthy_prop it) eqn:Hit; fields;
    unfold defaultAnswerConstraints; fields;
    destruct (truthy_prop ac) eqn:Hac; fields;
    unfold defaultIsInteractive; fields;
    destruct ii as [b|]; fields;
    unfold defaultAnswer; fields;
    destruct an as [a|]; fields;
    (split; [first [ by apply truthy_str_default | reflexivity ]|]);
    (split; [first [ by apply truthy_num_default | reflexivity ]|]);
    (split; [reflexivity|]);
    (split; [first [ by apply truthy_str_default | reflexivity ]|]);
    (split; [first [ by apply truthy_prop_default
                   | rewrite (truthy_str_default _ Hty);
                     by rewrite getInputTypeForQuestionType_table
                   | by rewrite getInputTypeForQuestionType_table ]|]);
    (split; [first [ by apply truthy_prop_default
                   | rewrite (truthy_str_default _ Hty);
                     by rewrite getDefaultAnswerConstraints_table
                   | by rewrite getDefaultAnswerConstraints_table ]|]);
    (split; [reflexivity|]); (split; [reflexivity|]); reflexivity.
Qed.

Lemma fixPart_defaulted (t : jsstring) (k : nat) (p : Part) :
  part_defaulted toLowerCase t k p (fixPart toLowerCase t k p).
Proof.
  unfold part_defaulted, fixPart, defaulted_str.
  eexists _, _. cbn [part instructions questionsRange questions extra].
  split; [reflexivity|]. split; [reflexivity|]. split.
  { destruct (truthy_str (instructions p)) eqn:H; [|done].
    by apply truthy_str_default. }
  split.
  { destruct (truthy_str (questionsRange p)) eqn:H; [|done].
    by apply truthy_str_default. }
  split; [done|]. split; [reflexivity|]. split; [apply length_imap|].
  intros j q0 Hq. eexists. split; [by rewrite list_lookup_imap, Hq|].
  apply fixQuestion_defaulted.
Qed.

Lemma validateAndFixStructure_typed (s : Structure) :
  let s' := validateAndFixStructure toLowerCase s in
  exists t ps',
    defaulted_str (test s) (js "1") (Some t)
    /\ test s' = Some t
    /\ defaulted_str (section s) (js "Listening") (section s')
    /\ parts s' = Some ps'
    /\ length ps' = length (default [] (parts s))
    /\ forall k p0, default [] (parts s) !! k = Some p0 ->
         exists p', ps' !! k = Some p'
                    /\ part_defaulted toLowerCase t k p0 p'.
Proof.
  simpl. unfold validateAndFixStructure, defaulted_str.
  cbn [test section parts].
  eexists _, _. split; [reflexivity|]. split; [reflexivity|].
  split; [reflexivity|]. split; [reflexivity|]. split; [apply length_imap|].
  intros k p0 Hp. eexists. split; [by rewrite list_lookup_imap, Hp|].
  apply fixPart_defaulted.
Qed.

Lemma objects_entries {A} (l : list (option A)) :
  existsb is_null l = false -> objects l = Ok (entries_of l).
Proof.
  induction l as [|[a|] l IH]; simpl; [done | | done].
  intros H. by rewrite (IH H).
Qed.

Lemma objects_null {A} (l : list (option A)) :
  existsb is_null l = true -> objects l = Throw TypeError.
Proof.
  induction l as [|[a|] l IH]; simpl; [done | | done].
  intros H. by rewrite (IH H).
Qed.

Lemma objects_cases {A} (l : list (option A)) :
  objects l = Ok (entries_of l) \/ objects l = Throw TypeError.
Proof.
  destruct (existsb is_null l) eqn:E;
    [right; by apply objects_null | left; by apply objects_entries].
Qed.

Lemma asPart_cases (p : ParsedPart) :
  if existsb is_null (default [] (p_questions p))
  then asPart p = Throw TypeError
  else asPart p = Ok (part_of p).
Proof.
  unfold asPart, part_of. destruct (p_questions p) as [qs|]; simpl; [|done].
  destruct (existsb is_null qs) eqn:E.
  - by rewrite objects_null.
  - by rewrite objects_entries.
Qed.

Lemma asParts_cases (l : list ParsedPart) :
  if existsb (fun p => existsb is_null (default [] (p_questions p))) l
  then asParts l = Throw TypeError
  else asParts l = Ok (map part_of l).
Proof.
  induction l as [|p l IH]; simpl; [done|].
  pose proof (asPart_cases p) as Hp.
  destruct (existsb is_null (default [] (p_questions p))); rewrite Hp.
  - simpl. by destruct (asParts l).
  - simpl. destruct (existsb _ l); by rewrite IH.
Qed.

Lemma null_entry_split (entries : list (option ParsedPart)) :
  null_entry entries
  = existsb is_null entries
    || existsb (fun p => existsb is_null (default [] (p_questions p)))
         (entries_of entries).
Proof.
  unfold null_entry, entries_of.
  induction entries as [|[p|] entries IH]; simpl; [done | | done].
  rewrite IH. by destruct (existsb is_null (default [] (p_questions p))),
    (existsb is_null entries).
Qed.

(** [partObjects] gives the parts exactly when no entry is [null], and
    a [TypeError] otherwise. *)
Lemma partObjects_cases (entries : list (option ParsedPart)) :
  if null_entry entries
  then partObjects entries = Throw TypeError
  else partObjects entries = Ok (map part_of (entries_of entries)).
Proof.
  rewrite null_entry_split. unfold partObjects.
  destruct (existsb is_null entries) eqn:E; simpl.
  - by rewrite objects_null.
  - rewrite objects_entries by done. apply asParts_cases.
Qed.


(** Stage 2 hands the later stages a document with all its arrays. *)
Lemma validateAndFixStructure_has_arrays (s : Structure) :
  has_arrays (validateAndFixStructure toLowerCase s).
Proof.
  unfold has_arrays, validateAndFixStructure. simpl.
  apply Forall_forall. intros p' Hp.
  apply list_elem_of_lookup in Hp as [k Hk].
  apply list_lookup_imap_Some in Hk as (p0 & _ & ->).
  by eexists.
Qed.

End Stage2.



(* ================================================================== *)
(** ** Generated question identifiers *)
(* ================================================================== *)


Lemma first_segment_listening (t p i : jsstring) :
  first_segment (listening_id t p i) = js "listening".
Proof. reflexivity. Qed.



(* ================================================================== *)
(** ** Stage 5: matching questions and draggable variants *)
(* ================================================================== *)

(** C9, counterexample. The part holds a divider with the non-empty
    list ["X"; "Y"], yet the matching question carries no
    [draggableVariants] afterwards: the divider found first has an empty
    list. *)
Lemma later_divider_is_ignored :
  draggables two_dividers = [[Some []; Some [js "X"; js "Y"]; None]]
  /\ (draggables <$> linkMatchingQuestions two_dividers)
     = Ok [[Some []; Some [js "X"; js "Y"]; None]].
Proof. split; reflexivity. Qed.

Lemma find_copy_question (qs : list Question) :
  find is_variant_divider (map copy_question qs)
  = copy_question <$> find is_variant_divider qs.
Proof.
  induction qs as [|q qs IH]; simpl; [done|].
  replace (is_variant_divider (copy_question q))
    with (is_variant_divider q) by done.
  by destruct (is_variant_divider q).
Qed.

Lemma linked_variants_copy (qs : list Question) :
  linked_variants (map copy_question qs) = linked_variants qs.
Proof.
  unfold linked_variants. rewrite find_copy_question.
  by destruct (find is_variant_divider qs).
Qed.

Lemma linkMatchingQuestions_ok (s : Structure) (ps : list Part) :
  parts s = Some ps ->
  linkMatchingQuestions s
  = Ok (mkStructure (test s) (section s)
          (Some (map (fun p => linkPart (copy_part p)) ps))).
Proof.
  intros Hps. unfold linkMatchingQuestions, deep_copy. rewrite Hps. simpl.
  rewrite (forEach_ok _ (fun _ => linkPart)) by done. simpl.
  do 3 f_equal. rewrite (imap_const linkPart).
  by rewrite <- list_fmap_compose.
Qed.

(** C9, amended. In each part the first divider that has a
    [draggableVariants] array decides: when its list is non-empty, every
    matching question of the part carries that list afterwards; when
    there is no such divider or its list is empty, and for every
    question that is not a matching one, [draggableVariants] is left as
    it was (absent if it was absent). Types and positions are kept. *)
Theorem linkMatchingQuestions_links (s : Structure) (ps : list Part) :
  parts s = Some ps ->
  exists ps',
    linkMatchingQuestions s
      = Ok (mkStructure (test s) (section s) (Some ps'))
    /\ length ps' = length ps
    /\ forall k p p',
         ps !! k = Some p -> ps' !! k = Some p' ->
         let qs := default [] (questions p) in
         let qs' := default [] (questions p') in
         length qs' = length qs
         /\ forall i q q',
              qs !! i = Some q -> qs' !! i = Some q' ->
              type q' = type q
              /\ draggableVariants q'
                 = (if type_is "matching" q
                       && bool_decide (linked_variants qs <> [])
                    then Some (linked_variants qs)
                    else draggableVariants q).
Proof.
  intros Hps. eexists. split; [by apply linkMatchingQuestions_ok|].
  split; [apply length_map|].
  intros k p p' Hp Hp'. rewrite list_lookup_fmap, Hp in Hp'.
  injection Hp' as <-. simpl.
  unfold linkPart, copy_part.
  destruct (questions p) as [qs|] eqn:Hqs; simpl; [|done].
  fold (linked_variants (map copy_question qs)).
  rewrite linked_variants_copy. split; [by rewrite !length_map|].
  intros i q q' Hq Hq'.
  rewrite !list_lookup_fmap, Hq in Hq'. injection Hq' as <-.
  replace (type_is "matching" (copy_question q))
    with (type_is "matching" q) by done.
  destruct (linked_variants qs) as [|v vs]; simpl.
  - rewrite !andb_false_r. done.
  - rewrite !andb_true_r. by destruct (type_is "matching" q).
Qed.

Lemma linkMatchingQuestions_links_witness :
  exists ps',
    linkMatchingQuestions one_divider
      = Ok (mkStructure (test one_divider) (section one_divider) (Some ps'))
    /\ draggables (mkStructure None None (Some ps'))
       = [[Some [js "X"; js "Y"]; Some [js "X"; js "Y"];
           Some [js "X"; js "Y"]]].
Proof.
  destruct (linkMatchingQuestions_links one_divider _ eq_refl)
    as (ps' & Hok & _).
  exists ps'. split; [exact Hok|].
  injection Hok as <-. reflexivity.
Defined.

(* ================================================================== *)
(** ** Stage 1: merging duplicate parts *)
(* ================================================================== *)

Section PartMap.

Implicit Types (m : PartMap) (k : option Z) (v : Part).

Lemma map_get_None m k : map_get k m = None <-> k ∉ m.*1.
Proof.
  induction m as [|[k' v'] m IH]; simpl.
  - split; [intros _; apply not_elem_of_nil | done].
  - rewrite not_elem_of_cons. destruct (decide (k = k')) as [->|Hk].
    + rewrite bool_decide_eq_true_2 by done.
      split; [done | by intros [? _]].
    + rewrite bool_decide_eq_false_2 by done. rewrite IH. tauto.
Qed.

Lemma map_get_app m k kp v :
  map_get k (m ++ [(kp, v)])
  = match map_get k m with
    | Some x => Some x
    | None => if bool_decide (k = kp) then Some v else None
    end.
Proof.
  induction m as [|[k' v'] m IH]; simpl; [done|].
  by destruct (bool_decide (k = k')).
Qed.

Lemma map_update_keys m k v : (map_update k v m).*1 = m.*1.
Proof.
  induction m as [|[k' v'] m IH]; simpl; [done|].
  destruct (bool_decide (k = k')); simpl; [done | by f_equal].
Qed.

Lemma map_get_update m k kp v :
  map_get k (map_update kp v m)
  = if bool_decide (k = kp) then (fun _ => v) <$> map_get kp m else map_get k m.
Proof.
  induction m as [|[k' v'] m IH]; simpl.
  - by destruct (bool_decide (k = kp)).
  - destruct (decide (kp = k')) as [->|Hkp].
    + rewrite bool_decide_eq_true_2 by done. simpl.
      destruct (decide (k = k')) as [->|Hk].
      * by rewrite (bool_decide_eq_true_2 (k' = k')).
      * by rewrite (bool_decide_eq_false_2 (k = k')).
    + rewrite (bool_decide_eq_false_2 (kp = k')) by done. simpl.
      rewrite IH. destruct (decide (k = kp)) as [->|Hk].
      * rewrite (bool_decide_eq_true_2 (kp = kp)) by done.
        by rewrite (bool_decide_eq_false_2 (kp = k')).
      * by rewrite (bool_decide_eq_false_2 (k = kp)).
Qed.

Lemma map_get_elem_of m k v :
  NoDup m.*1 -> (k, v) ∈ m -> map_get k m = Some v.
Proof.
  induction m as [|[k' v'] m IH]; simpl; intros Hnd Hin.
  - by apply elem_of_nil in Hin.
  - apply NoDup_cons in Hnd as [Hk' Hnd].
    apply elem_of_cons in Hin as [[= -> ->]|Hin].
    + by rewrite bool_decide_eq_true_2.
    + rewrite bool_decide_eq_false_2; [by apply IH|].
      intros ->. apply Hk'. apply list_elem_of_fmap. by exists (k', v).
Qed.

End PartMap.

Section Gathered.

Implicit Types (k : option Z) (p : Part) (l : list Part).

Lemma gathered_snoc k l p :
  gathered k (l ++ [p])
  = gathered k l ++ (if numbered k p then questions_of p else []).
Proof.
  unfold gathered. rewrite List.filter_app, map_app, concat_app. simpl.
  destruct (numbered k p); simpl; by rewrite ?app_nil_r.
Qed.

Lemma find_snoc k l p :
  find (numbered k) (l ++ [p])
  = match find (numbered k) l with
    | Some x => Some x
    | None => if numbered k p then Some p else None
    end.
Proof.
  induction l as [|x l IH]; simpl; [done|]. by destruct (numbered k x).
Qed.

Lemma find_None_gathered k l :
  find (numbered k) l = None -> gathered k l = [].
Proof.
  unfold gathered. induction l as [|x l IH]; simpl; [done|].
  destruct (numbered k x); [done | apply IH].
Qed.

Lemma find_numbered_Some k l p :
  find (numbered k) l = Some p -> part p = k /\ p ∈ l.
Proof.
  intros H. apply find_some in H as [Hin Hk].
  split; [by apply bool_decide_eq_true in Hk | by apply list_elem_of_In].
Qed.

Lemma find_numbered_is_Some k l :
  is_Some (find (numbered k) l) <-> k ∈ map part l.
Proof.
  induction l as [|x l IH]; simpl.
  - split; [by intros [? ?] | by intros ?%elem_of_nil].
  - unfold numbered at 1. case_bool_decide as Hk.
    + split; [intros _; subst; apply list_elem_of_here | by eexists].
    + rewrite elem_of_cons. split.
      * intros H. right. by apply IH.
      * intros [->|H]; [done | by apply IH].
Qed.

End Gathered.

Lemma numbered_same (p : Part) : numbered (part p) p = true.
Proof. by apply bool_decide_eq_true_2. Qed.

Lemma numbered_other (k : option Z) (p : Part) :
  k <> part p -> numbered k p = false.
Proof. intros H. by apply bool_decide_eq_false_2. Qed.

(** The map that stage 1 builds, characterised key by key. *)
Lemma merged_map (ps : list Part) :
  let m := foldl merge_step [] ps in
  NoDup m.*1 /\ forall k, map_get k m = entry k ps.
Proof.
  induction ps as [|p ps IH] using rev_ind; simpl.
  { split; [constructor | done]. }
  destruct IH as [Hnd Hget]. rewrite foldl_snoc.
  set (m := foldl merge_step [] ps) in *.
  unfold merge_step.
  destruct (map_get (part p) m) as [e|] eqn:He.
  - split; [by rewrite map_update_keys|].
    intros k. rewrite map_get_update. unfold entry.
    rewrite find_snoc, gathered_snoc.
    destruct (decide (k = part p)) as [->|Hk].
    + rewrite (bool_decide_eq_true_2 (part p = part p)) by done.
      rewrite numbered_same.
      rewrite He. rewrite Hget in He. unfold entry in He.
      destruct (find (numbered (part p)) ps) as [first|]; [|done].
      simpl in *. by injection He as <-.
    + rewrite (bool_decide_eq_false_2 (k = part p)) by done.
      rewrite numbered_other by done.
      rewrite Hget, app_nil_r. unfold entry.
      by destruct (find (numbered k) ps).
  - split.
    + rewrite fmap_app. apply NoDup_app. split; [done|]. split.
      * intros k Hk ->%list_elem_of_singleton.
        by apply map_get_None in He.
      * apply NoDup_singleton.
    + intros k. rewrite map_get_app, Hget. unfold entry.
      rewrite find_snoc, gathered_snoc.
      destruct (decide (k = part p)) as [->|Hk].
      * rewrite (bool_decide_eq_true_2 (part p = part p)) by done.
        rewrite numbered_same.
        rewrite Hget in He. unfold entry in He.
        destruct (find (numbered (part p)) ps) eqn:Hf; [done|].
        simpl. by rewrite (find_None_gathered _ _ Hf).
      * rewrite (bool_decide_eq_false_2 (k = part p)) by done.
        rewrite numbered_other by done.
        rewrite app_nil_r. by destruct (find (numbered k) ps).
Qed.

Lemma merged_map_elem_of (ps : list Part) (k : option Z) (v : Part) :
  (k, v) ∈ foldl merge_step [] ps -> entry k ps = Some v.
Proof.
  destruct (merged_map ps) as [Hnd Hget]. intros Hin.
  rewrite <- Hget. by apply map_get_elem_of.
Qed.

Lemma entry_part (ps : list Part) (k : option Z) (v : Part) :
  entry k ps = Some v -> part v = k.
Proof.
  unfold entry. destruct (find (numbered k) ps) as [first|] eqn:Hf; [|done].
  intros [= <-]. simpl. by apply find_numbered_Some in Hf as [? _].
Qed.

Lemma merged_map_values (ps : list Part) :
  map part (foldl merge_step [] ps).*2 = (foldl merge_step [] ps).*1.
Proof.
  pose proof (merged_map_elem_of ps) as Hin.
  induction (foldl merge_step [] ps) as [|[k v] m IH]; simpl; [done|].
  f_equal.
  - eapply entry_part, Hin, list_elem_of_here.
  - apply IH. intros k' v' H'. apply Hin. by apply list_elem_of_further.
Qed.

Section Sorting.

Context {A : Type} (cmp : A -> A -> Z).

Lemma countAndMakeRun_perm (l : list A) :
  (countAndMakeRun cmp l).1 ++ (countAndMakeRun cmp l).2 ≡ₚ l.
Proof.
  destruct l as [|a [|b l]]; [done | done |].
  unfold countAndMakeRun. cbv zeta.
  generalize (2 + run_tail cmp (cmp b a <? 0)%Z b l)%nat. intros n.
  destruct (cmp b a <? 0); cbn [fst snd].
  - rewrite reverse_Permutation. by rewrite take_drop.
  - by rewrite take_drop.
Qed.

Lemma binaryInsert_perm (sorted : list A) (pivot : A) :
  binaryInsert cmp sorted pivot ≡ₚ pivot :: sorted.
Proof.
  unfold binaryInsert. rewrite <- Permutation_middle.
  by rewrite take_drop.
Qed.

Lemma foldl_binaryInsert_perm (rest run : list A) :
  foldl (binaryInsert cmp) run rest ≡ₚ run ++ rest.
Proof.
  revert run. induction rest as [|x rest IH]; intros run; simpl.
  - by rewrite app_nil_r.
  - rewrite IH, binaryInsert_perm. by rewrite <- Permutation_middle.
Qed.

Lemma sort_by_perm (l : list A) : sort_by cmp l ≡ₚ l.
Proof.
  unfold sort_by. pose proof (countAndMakeRun_perm l) as H.
  destruct (countAndMakeRun cmp l) as [run rest]. simpl in H.
  by rewrite foldl_binaryInsert_perm.
Qed.

Lemma halving (left right : nat) :
  (left < right)%nat ->
  let mid := (left + (right - left) / 2)%nat in
  (left <= mid < right)%nat
  /\ (2 * (mid - left) <= right - left)%nat
  /\ (right - left <= 2 * (mid - left) + 1)%nat.
Proof.
  intros Hlt. cbv zeta.
  pose proof (Nat.div_mod_eq (right - left) 2) as E.
  pose proof (Nat.mod_upper_bound (right - left) 2) as U.
  revert E U. generalize ((right - left) / 2)%nat ((right - left) mod 2)%nat.
  intros h r E U. lia.
Qed.

(** The search returns a position between its bounds, and the bounds'
    guarantees hold at it: the element before it does not exceed the
    pivot, the element at it does. The fuel is never what ends it. *)
Lemma insertionPoint_spec (pivot : A) (sorted : list A) (fuel left right : nat) :
  (left <= right)%nat -> (right <= length sorted)%nat ->
  (right - left <= fuel)%nat ->
  (forall x, (0 < left)%nat -> sorted !! (left - 1)%nat = Some x ->
             0 <= cmp pivot x) ->
  (forall x, sorted !! right = Some x -> cmp pivot x < 0) ->
  let i := insertionPoint cmp fuel pivot sorted left right in
  (left <= i <= right)%nat
  /\ (forall x, (0 < i)%nat -> sorted !! (i - 1)%nat = Some x ->
                0 <= cmp pivot x)
  /\ (forall x, sorted !! i = Some x -> cmp pivot x < 0).
Proof.
  revert left right.
  induction fuel as [|fuel IH]; intros left right Hlr Hr Hfuel Hleft Hright;
    cbn [insertionPoint]; cbv zeta.
  - assert (left = right) as -> by lia. done.
  - case_bool_decide as Hlt.
    2:{ assert (left = right) as -> by lia. done. }
    destruct (halving left right Hlt) as (Hmid & Hlow & Hhigh).
    set (mid := (left + (right - left) / 2)%nat) in *.
    destruct (sorted !! mid) as [x|] eqn:Hx.
    2:{ apply lookup_ge_None in Hx. lia. }
    destruct (cmp pivot x <? 0) eqn:Hc.
    + apply Z.ltb_lt in Hc.
      destruct (IH left mid) as (Hb & Hl & Hrr); [lia | lia | lia | done | |].
      { intros y Hy. by simplify_eq. }
      split; [lia | done].
    + apply Z.ltb_ge in Hc.
      destruct (IH (mid + 1)%nat right) as (Hb & Hl & Hrr);
        [lia | lia | lia | | done |].
      { intros y _ Hy. replace (mid + 1 - 1)%nat with mid in Hy by lia.
        by simplify_eq. }
      split; [lia | done].
Qed.

(** More fuel than the width of the interval changes nothing. *)
Lemma insertionPoint_fuel (pivot : A) (sorted : list A)
    (fuel fuel' left right : nat) :
  (right <= length sorted)%nat ->
  (right - left <= fuel)%nat -> (right - left <= fuel')%nat ->
  insertionPoint cmp fuel pivot sorted left right
  = insertionPoint cmp fuel' pivot sorted left right.
Proof.
  revert fuel' left right.
  induction fuel as [|fuel IH]; intros [|fuel'] left right Hr H1 H2;
    cbn [insertionPoint]; try done.
  - by rewrite bool_decide_eq_false_2 by lia.
  - by rewrite bool_decide_eq_false_2 by lia.
  - case_bool_decide as Hlt; [|done].
    destruct (halving left right Hlt) as (Hmid & Hlow & Hhigh).
    set (mid := (left + (right - left) / 2)%nat) in *.
    destruct (sorted !! mid) as [x|]; [|done].
    destruct (cmp pivot x <? 0).
    + apply IH; lia.
    + apply IH; lia.
Qed.

End Sorting.

Lemma compare_parts_flip (a b : Part) :
  compare_parts b a = - compare_parts a b.
Proof. unfold compare_parts. destruct (part a), (part b); lia. Qed.

Lemma chain_cons (a : Part) (l : list Part) :
  chain (a :: l)
  <-> (forall b, head l = Some b -> compare_parts a b <= 0) /\ chain l.
Proof.
  destruct l as [|b l]; cbn [chain head].
  - split; [by intros [_ ?] | by intros [_ ?]].
  - split.
    + intros [H ?]. split; [|done]. by intros ? [= <-].
    + intros [H ?]. split; [|done]. by apply H.
Qed.

(** Entering a chain between a part that does not exceed the new one
    and a part that does keeps it a chain. *)
Lemma chain_insert (l : list Part) (i : nat) (pivot : Part) :
  chain l -> (i <= length l)%nat ->
  (forall x, (0 < i)%nat -> l !! (i - 1)%nat = Some x ->
             0 <= compare_parts pivot x) ->
  (forall x, l !! i = Some x -> compare_parts pivot x < 0) ->
  chain (take i l ++ pivot :: drop i l).
Proof.
  revert i. induction l as [|a l IH]; intros i Hl Hi Hleft Hright.
  - rewrite take_nil, drop_nil. by apply chain_cons.
  - destruct i as [|i]; cbn [take drop app].
    + apply chain_cons. split; [|done].
      intros b [= <-]. specialize (Hright a eq_refl). lia.
    + apply chain_cons in Hl as [Ha Hl]. apply chain_cons. split.
      * intros b Hb. destruct i as [|i].
        -- cbn [take app head] in Hb. injection Hb as <-.
           assert (0 <= compare_parts pivot a) by (apply Hleft; [lia | done]).
           rewrite compare_parts_flip. lia.
        -- destruct l as [|c l]; [simpl in Hi; lia|].
           cbn [take app head] in Hb. injection Hb as <-.
           by apply Ha.
      * apply IH; [done | simpl in Hi; lia | | ].
        -- intros x Hi' Hx. apply Hleft; [lia|].
           destruct i as [|i]; [lia|].
           by replace (S (S i) - 1)%nat with (S (S i - 1)) by lia.
        -- intros x Hx. by apply Hright.
Qed.

Lemma binaryInsert_chain (sorted : list Part) (pivot : Part) :
  chain sorted -> chain (binaryInsert compare_parts sorted pivot).
Proof.
  intros Hs. unfold binaryInsert.
  destruct (insertionPoint_spec compare_parts pivot sorted (length sorted)
              0 (length sorted)) as (Hb & Hl & Hr); [lia | lia | lia | | |].
  - intros x Hx. lia.
  - intros x Hx. apply lookup_lt_Some in Hx. lia.
  - apply chain_insert; [done | lia | done | done].
Qed.

Lemma foldl_binaryInsert_chain (rest run : list Part) :
  chain run -> chain (foldl (binaryInsert compare_parts) run rest).
Proof.
  revert run. induction rest as [|x rest IH]; intros run Hrun; simpl;
    [done|].
  by apply IH, binaryInsert_chain.
Qed.

Lemma run_tail_rising (previous : Part) (l : list Part) :
  chain (previous :: take (run_tail compare_parts false previous l) l).
Proof.
  revert previous. induction l as [|c l IH]; intros previous;
    cbn [run_tail].
  - by apply chain_cons.
  - destruct (compare_parts c previous <? 0) eqn:Hc; cbn [take].
    + by apply chain_cons.
    + apply Z.ltb_ge in Hc. apply chain_cons. split; [|apply IH].
      intros b [= <-]. rewrite compare_parts_flip. lia.
Qed.

Lemma run_tail_falling (previous : Part) (l : list Part) :
  Sorted (fun a b => compare_parts b a < 0)
    (previous :: take (run_tail compare_parts true previous l) l).
Proof.
  revert previous. induction l as [|c l IH]; intros previous;
    cbn [run_tail].
  - repeat constructor.
  - destruct (0 <=? compare_parts c previous) eqn:Hc; cbn [take].
    + repeat constructor.
    + apply Z.leb_gt in Hc. constructor; [apply IH|]. by constructor.
Qed.

Lemma rev_append_chain (l acc : list Part) :
  Sorted (fun a b => compare_parts b a < 0) l ->
  chain acc ->
  (forall a c, head l = Some a -> head acc = Some c ->
               compare_parts a c <= 0) ->
  chain (rev_append l acc).
Proof.
  revert acc. induction l as [|a l IH]; intros acc Hl Hacc Hhd; simpl;
    [done|].
  apply Sorted_inv in Hl as [Hl Ha]. apply IH; [done | |].
  - apply chain_cons. split; [|done]. intros c Hc. by apply Hhd.
  - intros b c Hb [= <-]. destruct l as [|b' l]; [done|].
    injection Hb as <-. apply HdRel_inv in Ha. lia.
Qed.

Lemma countAndMakeRun_chain (l : list Part) :
  chain (countAndMakeRun compare_parts l).1.
Proof.
  destruct l as [|a [|b l]]; [done | done |].
  unfold countAndMakeRun. cbv zeta.
  change (take (2 + ?n) (a :: b :: l)) with (a :: b :: take n l).
  destruct (compare_parts b a <? 0) eqn:Hc; cbn [fst].
  - apply Z.ltb_lt in Hc. unfold reverse. apply rev_append_chain; [|done|done].
    constructor; [apply run_tail_falling | by constructor].
  - apply Z.ltb_ge in Hc. apply chain_cons. split; [|apply run_tail_rising].
    intros ? [= <-]. rewrite compare_parts_flip. lia.
Qed.

Lemma sort_by_chain (l : list Part) : chain (sort_by compare_parts l).
Proof.
  unfold sort_by. pose proof (countAndMakeRun_chain l) as H.
  destruct (countAndMakeRun compare_parts l) as [run rest].
  by apply foldl_binaryInsert_chain.
Qed.

Lemma run_tail_full (previous : Part) (l : list Part) :
  chain (previous :: l) ->
  run_tail compare_parts false previous l = length l.
Proof.
  revert previous. induction l as [|c l IH]; intros previous; [done|].
  intros [Hc Hl]%chain_cons. cbn [run_tail length].
  specialize (Hc c eq_refl). rewrite compare_parts_flip in Hc.
  destruct (compare_parts c previous <? 0) eqn:E.
  - apply Z.ltb_lt in E. lia.
  - f_equal. by apply IH.
Qed.

(** A chain is one rising run: the sort returns it as it is. *)
Lemma sort_by_fix (l : list Part) : chain l -> sort_by compare_parts l = l.
Proof.
  destruct l as [|a [|b l]]; [done | done |].
  intros [Hab Hl]%chain_cons. specialize (Hab b eq_refl).
  unfold sort_by, countAndMakeRun. cbv zeta.
  rewrite compare_parts_flip in Hab.
  destruct (compare_parts b a <? 0) eqn:E.
  { apply Z.ltb_lt in E. lia. }
  rewrite run_tail_full by done.
  change (2 + length l)%nat with (length (a :: b :: l)).
  by rewrite firstn_all, drop_all.
Qed.

Lemma chain_sorted (l : list Part) :
  Forall (fun p => is_Some (part p)) l -> chain l ->
  StronglySorted part_le l.
Proof.
  induction 1 as [|a l [ka Ha] Hall IH]; [constructor|].
  intros [Hhd Hl]%chain_cons. specialize (IH Hl). constructor; [done|].
  destruct IH as [|b l Hs Hb]; [constructor|].
  specialize (Hhd b eq_refl).
  apply Forall_cons in Hall as [[kb Hkb] _].
  unfold compare_parts in Hhd. rewrite Ha, Hkb in Hhd.
  constructor.
  - intros x y Hx Hy. simplify_eq. lia.
  - eapply Forall_impl; [exact Hb|]. intros c Hc x y Hx Hy.
    simplify_eq. specialize (Hc kb y Hkb Hy). lia.
Qed.

Lemma sort_by_sorted (l : list Part) :
  Forall (fun p => is_Some (part p)) l ->
  StronglySorted part_le (sort_by compare_parts l).
Proof.
  intros Hall. apply chain_sorted; [|apply sort_by_chain].
  by rewrite (sort_by_perm compare_parts).
Qed.

Lemma sorted_strict (l : list Part) :
  Forall (fun p => is_Some (part p)) l ->
  NoDup (map part l) ->
  StronglySorted part_le l ->
  StronglySorted part_lt l.
Proof.
  intros Hall Hnd Hs. induction Hs as [|x l Hs IH Hx]; [constructor|].
  apply Forall_cons in Hall as [_ Hall]. simpl in Hnd.
  apply NoDup_cons in Hnd as [Hnot Hnd].
  constructor; [by apply IH|].
  apply Forall_forall. intros y Hy a b Ha Hb.
  pose proof (proj1 (Forall_forall _ _) Hx y Hy a b Ha Hb).
  assert (a <> b); [|lia]. intros ->. apply Hnot.
  rewrite Ha, <- Hb. apply list_elem_of_fmap. by exists y.
Qed.

(** What stage 1 returns, for every input: one part per part number of
    the input, each holding the metadata of the first part with that
    number and the questions of all of them. *)
Lemma mergeDuplicateParts_parts (ps : list Part) :
  let out := mergeDuplicateParts ps in
  NoDup (map part out)
  /\ (forall k, k ∈ map part out <-> k ∈ map part ps)
  /\ Forall (fun pt => entry (part pt) ps = Some pt) out.
Proof.
  simpl. unfold mergeDuplicateParts.
  destruct (merged_map ps) as [Hnd Hget].
  set (m := foldl merge_step [] ps) in *.
  assert (Hperm : sort_by compare_parts m.*2 ≡ₚ m.*2) by apply sort_by_perm.
  split; [|split].
  - rewrite Hperm. unfold m. by rewrite merged_map_values.
  - intros k. rewrite Hperm. unfold m at 1. rewrite merged_map_values.
    fold m. rewrite <- find_numbered_is_Some.
    split.
    + intros Hk. destruct (map_get k m) eqn:He.
      * rewrite Hget in He. unfold entry in He.
        destruct (find (numbered k) ps); [by eexists | done].
      * by apply map_get_None in He.
    + intros [first Hf]. destruct (decide (k ∈ m.*1)) as [|Hk]; [done|].
      apply map_get_None in Hk. rewrite Hget in Hk. unfold entry in Hk.
      by rewrite Hf in Hk.
  - rewrite Hperm. apply Forall_forall. intros pt Hpt.
    apply list_elem_of_fmap in Hpt as ([k v] & -> & Hin). simpl.
    pose proof (merged_map_elem_of ps k v Hin) as He.
    by rewrite (entry_part _ _ _ He).
Qed.

(** Each returned part is the first input part with its number, with
    the questions of all input parts with that number. *)
Lemma merged_part_first (ps : list Part) :
  Forall (fun pt =>
            exists first,
              find (numbered (part pt)) ps = Some first
              /\ metadata pt = metadata first
              /\ questions pt = Some (gathered (part pt) ps))
    (mergeDuplicateParts ps).
Proof.
  destruct (mergeDuplicateParts_parts ps) as (_ & _ & Hall).
  eapply Forall_impl; [exact Hall|]. intros pt He. simpl in He.
  unfold entry in He.
  destruct (find (numbered (part pt)) ps) as [first|]; [|done].
  exists first. injection He as He. split; [done|].
  revert He. generalize (gathered (part pt) ps). by intros g <-.
Qed.

(** Every part number of the input has its merged part. *)
Lemma merged_part_exists (ps : list Part) (p : Part) :
  p ∈ ps ->
  exists first pt,
    find (numbered (part p)) ps = Some first
    /\ pt ∈ mergeDuplicateParts ps
    /\ part pt = part p
    /\ metadata pt = metadata first
    /\ questions pt = Some (gathered (part p) ps).
Proof.
  intros Hp.
  destruct (mergeDuplicateParts_parts ps) as (_ & Hkeys & _).
  assert (Hk : part p ∈ map part (mergeDuplicateParts ps)).
  { apply Hkeys. by apply list_elem_of_fmap_2. }
  apply list_elem_of_fmap in Hk as (pt & Hpt & Hin).
  pose proof (merged_part_first ps) as Hall.
  destruct (proj1 (Forall_forall _ _) Hall pt Hin) as (first & Hf & Hm & Hq).
  rewrite <- Hpt in Hf, Hq. by exists first, pt.
Qed.

(** C10. For every input of [mergeDuplicateParts] and every part number
    that occurs in it, the output has exactly one part with that
    number; its properties other than [questions] (instructions,
    questionsRange and the rest) are those of the first input part with
    the number, and its questions are those of all the input parts with
    the number, in encounter order. The output has no other parts:
    later duplicates contribute their questions and nothing else. *)
Theorem merge_keeps_first_metadata (ps : list Part) :
  (forall p, p ∈ ps ->
     exists first pt,
       find (numbered (part p)) ps = Some first
       /\ pt ∈ mergeDuplicateParts ps
       /\ part pt = part p
       /\ metadata pt = metadata first
       /\ questions pt = Some (gathered (part p) ps))
  /\ NoDup (map part (mergeDuplicateParts ps))
  /\ Forall (fun pt =>
               exists first,
                 find (numbered (part pt)) ps = Some first
                 /\ first ∈ ps
                 /\ metadata pt = metadata first
                 /\ questions pt = Some (gathered (part pt) ps))
       (mergeDuplicateParts ps).
Proof.
  split; [apply merged_part_exists|].
  split; [by destruct (mergeDuplicateParts_parts ps) as (? & _)|].
  eapply Forall_impl; [apply merged_part_first|].
  intros pt (first & Hf & Hm & Hq). exists first.
  split; [done|]. split; [|done].
  by apply find_numbered_Some in Hf as [_ ?].
Qed.

(** What holds of stage 1 for every input: no two output parts share a
    part number, the part numbers are those of the input, the part
    numbered [k] carries the questions of all input parts numbered [k]
    in encounter order; and the output is sorted ascending by part
    number when every input part carries one. *)
Lemma mergeDuplicateParts_general (ps : list Part) :
  let out := mergeDuplicateParts ps in
  NoDup (map part out)
  /\ (forall k, k ∈ map part out <-> k ∈ map part ps)
  /\ (forall pt, pt ∈ out -> questions pt = Some (gathered (part pt) ps))
  /\ (Forall (fun p => is_Some (part p)) ps -> ascending out).
Proof.
  simpl. destruct (mergeDuplicateParts_parts ps) as (Hnd & Hkeys & Hall).
  split; [done|]. split; [done|]. split.
  - intros pt Hpt.
    pose proof (merged_part_first ps) as Hm.
    by destruct (proj1 (Forall_forall _ _) Hm pt Hpt) as (? & _ & _ & ?).
  - intros Hnum.
    assert (Hout : Forall (fun p => is_Some (part p)) (mergeDuplicateParts ps)).
    { apply Forall_forall. intros pt Hpt.
      assert (Hk : part pt ∈ map part ps).
      { apply Hkeys. by apply list_elem_of_fmap_2. }
      apply list_elem_of_fmap in Hk as (p & -> & Hp).
      by apply (proj1 (Forall_forall _ _) Hnum). }
    apply sorted_strict; [done | done |].
    unfold mergeDuplicateParts in *. apply sort_by_sorted.
    by rewrite <- (sort_by_perm compare_parts).
Qed.

(** C5. The part sequence 3, unnumbered, 1 comes back from
    [mergeDuplicateParts] in that order: every comparison with the part
    that has no number gives [NaN], which the sort reads as [0], so the
    three parts pass for one rising run and part 3 stays before part 1.
    The output is not sorted by part number, against the comment above
    the [return] of the function and against the claim. On the claim's
    own example, two parts numbered 2 with questions A, B and C, the
    function returns the one part with A, B, C. *)
Theorem merge_unnumbered_not_ascending :
  map part (mergeDuplicateParts unnumbered_between) = [Some 3; None; Some 1]
  /\ ~ ascending (mergeDuplicateParts unnumbered_between)
  /\ map (fun p => (part p, instructions p, questions p))
       (mergeDuplicateParts duplicated_part_2)
     = [ (Some 2, Some (js "first"),
          Some [question_named "A"; question_named "B"; question_named "C"]) ].
Proof.
  split; [reflexivity|]. split; [|reflexivity]. intros Hs.
  change (mergeDuplicateParts unnumbered_between)
    with [ part_numbered (Some 3) "three" (Some []);
           part_numbered None "unnumbered" (Some []);
           part_numbered (Some 1) "one" (Some []) ] in Hs.
  apply StronglySorted_inv in Hs as [_ Hall].
  apply Forall_cons in Hall as [_ Hall].
  apply Forall_cons in Hall as [Hlt _].
  specialize (Hlt 3 1 eq_refl eq_refl). lia.
Qed.

(* ================================================================== *)
(** ** OCR gateway *)
(* ================================================================== *)

(** C4, counterexample. With the remote primary unhealthy and two
    retries configured, the gateway runs two health checks and waits one
    second between them before it calls the fallback: the retry budget
    of the primary is spent. *)
Lemma unhealthy_primary_spends_retries :
  extractText remote_down server_service []
  = (Ok (mkOcrResult tt (js "Tesseract")),
     [HealthCheck; Delay 1000; HealthCheck; TesseractExtract])
  /\ (extractText remote_down server_service []).2
     <> [HealthCheck; TesseractExtract].
Proof. split; [reflexivity | discriminate]. Qed.

Section Unhealthy.

Context {Payload : Type} (w : World Payload) (svc : OCRService).

Lemma count_snoc (e e' : event) (tr : trace) :
  count e (tr ++ [e'])
  = (count e tr + (if bool_decide (e' = e) then 1 else 0))%nat.
Proof.
  unfold count. rewrite List.filter_app, length_app. f_equal. simpl.
  by destruct (bool_decide (e' = e)).
Qed.

Lemma count_cons (e e' : event) (tr : trace) :
  count e (e' :: tr)
  = ((if bool_decide (e' = e) then 1 else 0) + count e tr)%nat.
Proof. unfold count. simpl. by destruct (bool_decide (e' = e)). Qed.

Lemma unhealthy_attempts_SS (n : nat) :
  unhealthy_attempts (S (S n))
  = HealthCheck :: Delay 1000 :: unhealthy_attempts (S n).
Proof. reflexivity. Qed.

Lemma unhealthy_attempts_checks (n : nat) :
  count HealthCheck (unhealthy_attempts (S n)) = S n
  /\ count (Delay 1000) (unhealthy_attempts (S n)) = n
  /\ count TesseractExtract (unhealthy_attempts (S n)) = 0%nat
  /\ DocTRExtract ∉ unhealthy_attempts (S n).
Proof.
  induction n as [|n (IH1 & IH2 & IH3 & IH4)].
  - repeat split; try reflexivity.
    by intros ?%list_elem_of_singleton.
  - rewrite unhealthy_attempts_SS, !count_cons, IH1, IH2, IH3.
    repeat split; try reflexivity.
    rewrite !not_elem_of_cons. by repeat split.
Qed.

Hypothesis Hprimary : primaryService svc = js "doctr".

Lemma primaryLoop_unhealthy (r : nat) (last : option jserror) (tr : trace) :
  (forall i, (count HealthCheck tr <= i < count HealthCheck tr + r)%nat ->
             health w i = false) ->
  primaryLoop w svc r last tr
  = (inr (match r with
          | O => last
          | S _ => Some (Error (js "docTR service is unhealthy"))
          end),
     tr ++ unhealthy_attempts r).
Proof.
  revert last tr. induction r as [|r IH]; intros last tr Hdown.
  { simpl. by rewrite app_nil_r. }
  cbn [primaryLoop]. unfold attempt, isDocTRHealthy.
  rewrite Hprimary. rewrite bool_decide_eq_true_2 by done.
  rewrite (Hdown (count HealthCheck tr)) by lia.
  rewrite IH.
  - destruct r; simpl.
    + by rewrite app_nil_r.
    + by rewrite <- !app_assoc.
  - intros i Hi. apply Hdown.
    destruct r; rewrite ?count_snoc in Hi; simpl in Hi; lia.
Qed.

(** C4, amended. When the primary is the remote service and each of
    the [maxRetries] health checks reports it unhealthy, [extractText]
    never calls the remote extraction; it spends the whole retry budget
    of the primary on health checks ([maxRetries] of them, one second
    apart) and then calls the fallback once. The result is the
    fallback's, tagged "Tesseract", or, when the fallback fails too, the
    error naming both services with the last primary error. *)
Theorem extractText_unhealthy_primary (n : nat) :
  fallbackService svc <> js "doctr" ->
  maxRetries svc = Z.of_nat (S n) ->
  (forall i, (i <= n)%nat -> health w i = false) ->
  extractText w svc []
  = (match tesseract w 0 with
     | inl p => Ok (mkOcrResult p (js "Tesseract"))
     | inr _ => Throw (both_failed svc (js "docTR service is unhealthy"))
     end,
     unhealthy_attempts (S n) ++ [TesseractExtract])
  /\ (DocTRExtract ∉ unhealthy_attempts (S n) ++ [TesseractExtract])
  /\ count HealthCheck (unhealthy_attempts (S n)) = S n
  /\ count (Delay 1000) (unhealthy_attempts (S n)) = n.
Proof.
  intros Hfb Hmax Hdown.
  destruct (unhealthy_attempts_checks n) as (Hc & Hd & Ht & Hx).
  split; [|split; [|done]].
  - unfold extractText. rewrite Hmax, Nat2Z.id.
    rewrite primaryLoop_unhealthy
      by (intros i Hi; apply Hdown; simpl in Hi; lia).
    rewrite Hprimary. rewrite bool_decide_eq_true_2 by done.
    unfold attempt. rewrite bool_decide_eq_false_2 by done.
    unfold extractTextWithTesseract. rewrite app_nil_l, Ht.
    unfold both_failed. rewrite Hprimary. by destruct (tesseract w 0).
  - rewrite elem_of_app, list_elem_of_singleton. by intros [?|?].
Qed.

End Unhealthy.

Lemma extractText_unhealthy_primary_witness :
  extractText remote_down server_service []
  = (Ok (mkOcrResult tt (js "Tesseract")),
     unhealthy_attempts 2 ++ [TesseractExtract])
  /\ (DocTRExtract ∉ unhealthy_attempts 2 ++ [TesseractExtract])
  /\ count HealthCheck (unhealthy_attempts 2) = 2%nat
  /\ count (Delay 1000) (unhealthy_attempts 2) = 1%nat.
Proof.
  apply (extractText_unhealthy_primary remote_down server_service
           eq_refl 1).
  - discriminate.
  - reflexivity.
  - reflexivity.
Defined.

(* ================================================================== *)
(** ** JSON repair chain *)
(* ================================================================== *)

(** C3, counterexample. On the text "{} }" without the repair package,
    all attempts of the code fail and it throws, although the first
    balanced span is "{}", which cleans to itself and parses: the code
    extracts up to the last closing brace, not the first balanced
    span. *)
Lemma extraction_is_not_first_balanced_span :
  parseJsonSafely unit parse_empty_object None (js "{} }") (js "JSON")
  = Throw (Error (js "Failed to parse JSON JSON after all repair attempts."
                  ++ js " Raw response: {} }"))
  /\ first_balanced_span (js "{} }") = Some (js "{}")
  /\ cleanJsonString (js "{}") = Ok (js "{}")
  /\ parse_empty_object (js "{}") = Some tt.
Proof. repeat split; reflexivity. Qed.

Section Braces.

(** The continuation of the matcher after [.*] in [re_braces]. *)
Let close : mstate -> option mstate := rmatch (Cat (Chr (ch "}")) Eps) Some.

Lemma star_any_close (cs : list jsstring) (b : bool) (s : jsstring) :
  star_greedy any close cs b s
  = (fun t => MState false (drop (length t) s) cs) <$> upto_last_close s.
Proof.
  revert b. induction s as [|c s IH]; intros b; simpl; [done|].
  rewrite IH. destruct (upto_last_close s) as [t|]; simpl; [done|].
  unfold close. simpl. by destruct (ch "}" c).
Qed.

Lemma upto_last_close_prefix (s t : jsstring) :
  upto_last_close s = Some t -> take (length t) s = t.
Proof.
  revert t. induction s as [|c s IH]; intros t; simpl; [done|].
  destruct (upto_last_close s) as [t'|].
  - intros [= <-]. simpl. f_equal. by apply IH.
  - destruct (ch "}" c); [|done]. intros [= <-]. done.
Qed.

Lemma upto_last_close_length (s t : jsstring) :
  upto_last_close s = Some t -> (length t <= length s)%nat.
Proof.
  intros H. rewrite <- (upto_last_close_prefix s t H), length_take. lia.
Qed.

Lemma match_here_braces (b : bool) (s : jsstring) :
  match_here re_braces b s
  = match s with
    | c :: s' =>
        if ch "{" c then
          (fun t => (drop (length t) s', [])) <$> upto_last_close s'
        else None
    | [] => None
    end.
Proof.
  unfold match_here. destruct s as [|c s']; simpl; [done|].
  destruct (ch "{" c); [|done].
  change (rmatch (Chr (ch "}")) (rmatch Eps Some)) with close.
  rewrite star_any_close. by destruct (upto_last_close s').
Qed.

Lemma find_from_no_close (b : bool) (s : jsstring) :
  upto_last_close s = None -> find_from re_braces b s = None.
Proof.
  revert b. induction s as [|c s IH]; intros b;
    cbn [find_from upto_last_close].
  { intros _. by rewrite match_here_braces. }
  destruct (upto_last_close s) eqn:Hs; [done|].
  destruct (ch "}" c); [done|]. intros _.
  rewrite match_here_braces, Hs. rewrite IH by done.
  by destruct (ch "{" c).
Qed.

(** The extraction step of the code takes the span from the first
    opening brace to the last closing brace. *)
Lemma first_match_braces (raw : jsstring) :
  first_match re_braces raw = outer_span raw.
Proof.
  unfold first_match, outer_span. generalize true.
  induction raw as [|c s IH]; intros b.
  { cbn [find_from from_first_open]. by rewrite match_here_braces. }
  cbn [find_from from_first_open]. rewrite match_here_braces.
  destruct (ch "{" c) eqn:Hc; [|apply IH].
  destruct (upto_last_close s) as [t|] eqn:Ht; simpl.
  - unfold taken. pose proof (upto_last_close_length s t Ht).
    rewrite length_drop.
    replace (length (c :: s) - (length s - length t))%nat
      with (S (length t)) by (simpl; lia).
    simpl. by rewrite (upto_last_close_prefix s t Ht).
  - by apply find_from_no_close.
Qed.

End Braces.

Section Chain.

Context {J : Type} (parse : jsstring -> option J)
        (repair : option (jsstring -> option jsstring)).

Lemma attempts_eq (raw : jsstring) :
  attempts parse repair raw
  = [ try_direct J parse raw; try_cleaned J parse raw;
      try_repaired J parse repair raw; try_extracted J parse raw ].
Proof.
  unfold attempts, try_direct, try_repaired, try_extracted.
  rewrite first_match_braces. reflexivity.
Qed.

Lemma parseJsonSafely_nonempty (raw context : jsstring) :
  raw <> [] ->
  parseJsonSafely J parse repair raw context
  = match try_direct J parse raw with
    | Some v => Ok v
    | None =>
        match try_cleaned J parse raw with
        | Some v => Ok v
        | None =>
            match try_repaired J parse repair raw with
            | Some v => Ok v
            | None =>
                match try_extracted J parse raw with
                | Some v => Ok v
                | None => Throw (Error (failure_message context raw))
                end
            end
        end
    end.
Proof. by destruct raw. Qed.

(** C3, amended. For a non-empty text [parseJsonSafely] attempts, in
    order, (a) the direct parse, (b) cleanup then parse, (c) the repair
    pass then parse, when the repair package is installed, (d) cleanup
    and parse of the span from the first opening brace to the last
    closing brace. It returns the first success; it throws only when
    every attempt failed, and the message then ends with the first 200
    code units of the text (followed by an ellipsis when the text is
    longer). An empty text throws at once, with another message. *)
Theorem parseJsonSafely_chain (raw context : jsstring) :
  match raw with
  | [] =>
      parseJsonSafely J parse repair raw context
      = Throw (Error (js "Empty " ++ context ++ js " response received"))
  | _ :: _ =>
      match parseJsonSafely J parse repair raw context with
      | Ok v =>
          exists i : nat,
            attempts parse repair raw !! i = Some (Some v)
            /\ forall j : nat, (j < i)%nat ->
                 attempts parse repair raw !! j = Some None
      | Throw e =>
          Forall (fun a => a = None) (attempts parse repair raw)
          /\ e = Error (js "Failed to parse " ++ context
                        ++ js " JSON after all repair attempts. Raw response: "
                        ++ excerpt raw)
          /\ (length (take 200 raw) <= 200)%nat
      end
  end.
Proof.
  destruct raw as [|c raw']; [done|].
  rewrite parseJsonSafely_nonempty, attempts_eq by done.
  generalize (c :: raw'). intros raw.
  destruct (try_direct J parse raw) as [v|] eqn:H1.
  { exists 0%nat. split; [reflexivity | intros j Hj; lia]. }
  destruct (try_cleaned J parse raw) as [v|] eqn:H2.
  { exists 1%nat. split; [reflexivity|].
    intros [|j] Hj; [reflexivity | lia]. }
  destruct (try_repaired J parse repair raw) as [v|] eqn:H3.
  { exists 2%nat. split; [reflexivity|].
    intros [|[|j]] Hj; [reflexivity | reflexivity | lia]. }
  destruct (try_extracted J parse raw) as [v|] eqn:H4.
  { exists 3%nat. split; [reflexivity|].
    intros [|[|[|j]]] Hj; [reflexivity | reflexivity | reflexivity | lia]. }
  split; [by repeat constructor|]. split.
  - unfold failure_message, truncatedResponse, excerpt, substring0.
    do 4 f_equal. destruct (200 <? length raw)%nat eqn:Hlen; [done|].
    apply Nat.ltb_ge in Hlen. rewrite app_nil_r.
    symmetry. by apply take_ge.
  - rewrite length_take. lia.
Qed.

End Chain.

(* ================================================================== *)
(** ** The matcher and [replace] *)
(* ================================================================== *)

Section Matcher.

Implicit Types (r : regex) (k : mstate -> option mstate) (s : jsstring).

(** A property of the text still to read that every step of the matcher
    keeps. *)
Variable F : N -> Prop.

Lemma star_greedy_fails p k cs b s :
  Forall F s ->
  (forall st', Forall F (rest st') -> k st' = None) ->
  star_greedy p k cs b s = None.
Proof.
  intros Hs Hk. revert b. induction Hs as [|c s Hc Hs IH]; intros b; simpl.
  - by apply Hk.
  - rewrite IH. destruct (p c); apply Hk; by constructor.
Qed.

Lemma star_lazy_fails p k cs b s :
  Forall F s ->
  (forall st', Forall F (rest st') -> k st' = None) ->
  star_lazy p k cs b s = None.
Proof.
  intros Hs Hk. revert b. induction Hs as [|c s Hc Hs IH]; intros b; simpl.
  - by rewrite Hk.
  - rewrite Hk by (by constructor). rewrite IH. by destruct (p c).
Qed.

(** If the continuation fails wherever the matcher can hand over, the
    match fails. *)
Lemma rmatch_fails r k st :
  Forall F (rest st) ->
  (forall st', Forall F (rest st') -> k st' = None) ->
  rmatch r k st = None.
Proof.
  revert k st. induction r as [|p|p|p|p|r1 IH1 r2 IH2|r IH| |p];
    intros k st Hst Hk; simpl.
  - by apply Hk.
  - destruct (rest st) as [|c s'] eqn:Hr; [done|].
    apply Forall_cons in Hst as [_ Hs']. destruct (p c); [|done].
    by apply Hk.
  - by apply star_greedy_fails.
  - by apply star_lazy_fails.
  - destruct (rest st) as [|c s'] eqn:Hr; [apply Hk; by rewrite Hr|].
    rewrite (Hk st) by (by rewrite Hr).
    apply Forall_cons in Hst as [_ Hs']. destruct (p c); [|done].
    by rewrite Hk.
  - apply IH1; [done|]. intros st' Hst'. by apply IH2.
  - apply IH; [done|]. intros st' Hst'. by apply Hk.
  - destruct (at_start st); [by apply Hk | done].
  - destruct (rest st) as [|c s'] eqn:Hr; [done|].
    destruct (p c); [|done]. apply Hk. by rewrite Hr.
Qed.

End Matcher.

Section Replace.

Implicit Types (r : regex) (s : jsstring)
  (repl : jsstring -> list jsstring -> jsstring).

(** A pattern that needs a code unit of a class finds no match in a
    text without any. *)
Lemma rmatch_needs p r k st :
  Needs p r ->
  Forall (fun c => p c = false) (rest st) ->
  rmatch r k st = None.
Proof.
  intros Hn. revert k st.
  induction Hn as [q Hq|q Hq|r1 r2 _ IH|r1 r2 _ IH|r _ IH];
    intros k st Hst; simpl.
  - destruct (rest st) as [|c s']; [done|].
    apply Forall_cons in Hst as [Hc _].
    destruct (q c) eqn:Hqc; [|done]. apply Hq in Hqc. congruence.
  - destruct (rest st) as [|c s']; [done|].
    apply Forall_cons in Hst as [Hc _].
    destruct (q c) eqn:Hqc; [|done]. apply Hq in Hqc. congruence.
  - by apply IH.
  - apply (rmatch_fails (fun c => p c = false)); [done|].
    intros st' Hst'. by apply IH.
  - by apply IH.
Qed.

Lemma find_from_needs p r b s :
  Needs p r -> Forall (fun c => p c = false) s -> find_from r b s = None.
Proof.
  intros Hn Hs. revert b.
  induction Hs as [|c s Hc Hs IH]; intros b; simpl; unfold match_here.
  - by rewrite (rmatch_needs p).
  - rewrite (rmatch_needs p) by (done || by constructor). apply IH.
Qed.

(** Where a pattern has no match, [replace] returns the text itself. *)
Lemma replace_from_no_match r repl b s :
  find_from r b s = None -> replace_from r repl b 0 s = s.
Proof.
  revert b. induction s as [|c s IH]; intros b; simpl.
  - by destruct (match_here r b []) as [[? ?]|].
  - destruct (match_here r b (c :: s)) as [[? ?]|]; [done|].
    intros H. by rewrite IH.
Qed.

Lemma replace_all_no_match r repl s :
  first_match r s = None -> replace_all r repl s = s.
Proof. apply replace_from_no_match. Qed.

Lemma replace_all_needs p r repl s :
  Needs p r -> Forall (fun c => p c = false) s -> replace_all r repl s = s.
Proof.
  intros Hn Hs. apply replace_from_no_match. by apply (find_from_needs p).
Qed.

(** The code units of the result come from the text or from the
    replacements. *)
Lemma replace_from_Forall (Q : N -> Prop) r repl b n s :
  (forall m cs, Forall Q (repl m cs)) ->
  Forall Q s -> Forall Q (replace_from r repl b n s).
Proof.
  intros Hrepl Hs. revert b n.
  induction Hs as [|c s Hc Hs IH]; intros b n.
  - destruct n; simpl; [|done].
    destruct (match_here r b []) as [[after cs]|]; [|done].
    rewrite Forall_app. split; [apply Hrepl | constructor].
  - destruct n; simpl; [|apply IH].
    destruct (match_here r b (c :: s)) as [[after cs]|].
    + rewrite Forall_app. split; [apply Hrepl|].
      destruct (length _); [constructor; [done|] |]; apply IH.
    + constructor; [done | apply IH].
Qed.

End Replace.

(* ================================================================== *)
(** ** Whitespace: [trim] and the [\s+] pass *)
(* ================================================================== *)

Section Whitespace.

Implicit Types (s t : jsstring) (c : N).

Lemma trimStart_split s :
  exists pre, s = pre ++ trimStart s /\ Forall (fun c => is_space c = true) pre.
Proof.
  induction s as [|c s (pre & Hs & Hpre)]; simpl.
  - by exists [].
  - destruct (is_space c) eqn:Hc.
    + exists (c :: pre). split; [simpl; congruence | by constructor].
    + by exists [].
Qed.

Lemma trimStart_head s :
  match trimStart s with
  | c :: _ => is_space c = false
  | [] => True
  end.
Proof.
  induction s as [|c s IH]; simpl; [done|].
  by destruct (is_space c) eqn:Hc.
Qed.

Lemma trimStart_fix s :
  match s with
  | c :: _ => is_space c = false
  | [] => True
  end ->
  trimStart s = s.
Proof. destruct s as [|c s]; simpl; [done|]. by intros ->. Qed.

Lemma trimStart_snoc s c :
  is_space c = false -> trimStart (s ++ [c]) = trimStart s ++ [c].
Proof.
  intros Hc. induction s as [|d s IH]; simpl; [by rewrite Hc|].
  by destruct (is_space d).
Qed.

Lemma trim_infix s : exists pre post, s = pre ++ trim s ++ post.
Proof.
  unfold trim.
  destruct (trimStart_split s) as (pre & Hs & _).
  destruct (trimStart_split (rev (trimStart s))) as (pre' & Hr & _).
  exists pre, (rev pre').
  rewrite <- rev_app_distr, <- Hr, rev_involutive. exact Hs.
Qed.

Lemma trim_trimmed s : trimmed (trim s).
Proof.
  unfold trimmed, trim. rewrite rev_involutive.
  split; [|apply trimStart_head].
  pose proof (trimStart_head s) as Hh.
  destruct (trimStart s) as [|c t]; [done|]. simpl.
  rewrite trimStart_snoc by done.
  by rewrite rev_app_distr.
Qed.

Lemma trim_fix s : trimmed s -> trim s = s.
Proof.
  intros [Hh Hl]. unfold trim.
  rewrite (trimStart_fix s Hh), (trimStart_fix (rev s) Hl).
  apply rev_involutive.
Qed.

Lemma star_space_all (cs : list jsstring) (b : bool) s :
  exists b', star_greedy is_space Some cs b s
             = Some (MState b' (trimStart s) cs).
Proof.
  revert b. induction s as [|c s IH]; intros b; simpl; [by eexists|].
  destruct (is_space c); [|by eexists].
  destruct (IH false) as [b' ->]. by eexists.
Qed.

Lemma match_here_spaces (b : bool) s :
  match_here re_spaces b s
  = match s with
    | c :: s' => if is_space c then Some (trimStart s', []) else None
    | [] => None
    end.
Proof.
  unfold match_here. destruct s as [|c s']; simpl; [done|].
  destruct (is_space c); [|done].
  by destruct (star_space_all [] false s') as [b' ->].
Qed.

Lemma replace_from_skip r repl (b : bool) (pre s : jsstring) :
  replace_from r repl b (length pre) (pre ++ s)
  = replace_from r repl (match pre with [] => b | _ => false end) 0 s.
Proof.
  revert b. induction pre as [|c pre IH]; intros b; simpl; [done|].
  rewrite IH. by destruct pre.
Qed.

Lemma squeeze_nil b : squeeze b [] = [].
Proof. unfold squeeze. cbn [replace_from]. by rewrite match_here_spaces. Qed.

Lemma squeeze_space b c s :
  is_space c = true ->
  squeeze b (c :: s) = 32%N :: squeeze false (trimStart s).
Proof.
  intros Hc. unfold squeeze. cbn [replace_from].
  rewrite match_here_spaces, Hc.
  destruct (trimStart_split s) as (pre & Hs & _).
  assert (Ht : taken (c :: s) (trimStart s) = c :: pre).
  { unfold taken. rewrite Hs at 1 3. rewrite length_cons, length_app.
    replace (S (length pre + length (trimStart s)) - length (trimStart s))%nat
      with (length (c :: pre)) by (simpl; lia).
    apply (take_app_length (c :: pre)). }
  rewrite Ht. cbn [length always space app].
  rewrite Hs at 1. rewrite replace_from_skip. by destruct pre.
Qed.

Lemma squeeze_other b c s :
  is_space c = false -> squeeze b (c :: s) = c :: squeeze false s.
Proof.
  intros Hc. unfold squeeze. cbn [replace_from].
  by rewrite match_here_spaces, Hc.
Qed.

Lemma squeeze_collapsed_aux (n : nat) :
  forall b s, (length s <= n)%nat -> collapsed (squeeze b s).
Proof.
  induction n as [|n IH]; intros b s Hn.
  { destruct s; [|simpl in Hn; lia]. by rewrite squeeze_nil. }
  destruct s as [|c s]; [by rewrite squeeze_nil|].
  simpl in Hn. destruct (is_space c) eqn:Hc.
  - rewrite squeeze_space by done.
    destruct (trimStart_split s) as (pre & Hs & _).
    assert (Hlen : (length (trimStart s) <= n)%nat).
    { apply (f_equal length) in Hs. rewrite length_app in Hs. lia. }
    split; [|by apply IH]. intros _. split; [done|].
    pose proof (trimStart_head s) as Hh.
    destruct (trimStart s) as [|d t]; [by rewrite squeeze_nil|].
    by rewrite squeeze_other.
  - rewrite squeeze_other by done. split; [congruence|].
    apply IH. lia.
Qed.

(** After the [\s+] pass the text is whitespace-normalised. *)
Lemma squeeze_collapsed s :
  collapsed (replace_all re_spaces (always space) s).
Proof. by apply (squeeze_collapsed_aux (length s)). Qed.

(** On whitespace-normalised text the [\s+] pass changes nothing. *)
Lemma squeeze_fix b s : collapsed s -> squeeze b s = s.
Proof.
  revert b. induction s as [|c s IH]; intros b; [by rewrite squeeze_nil|].
  intros [Hc Hs]. destruct (is_space c) eqn:Hsp.
  - destruct (Hc eq_refl) as [-> Hnext].
    rewrite squeeze_space by done. f_equal.
    rewrite (trimStart_fix s) by (by destruct s). by apply IH.
  - rewrite squeeze_other by done. f_equal. by apply IH.
Qed.

Lemma collapsed_app_r pre s : collapsed (pre ++ s) -> collapsed s.
Proof. induction pre as [|c pre IH]; simpl; [done|]. intros [_ H]. auto. Qed.

Lemma collapsed_app_l s post : collapsed (s ++ post) -> collapsed s.
Proof.
  induction s as [|c s IH]; simpl; [done|].
  intros [Hc Hs]. split; [|by apply IH].
  intros Hsp. destruct (Hc Hsp) as [-> Hn]. split; [done|].
  by destruct s.
Qed.

Lemma collapsed_trim s : collapsed s -> collapsed (trim s).
Proof.
  destruct (trim_infix s) as (pre & post & Hs). intros H.
  rewrite Hs in H. by apply collapsed_app_r, collapsed_app_l in H.
Qed.

Lemma collapsed_no_newline s :
  collapsed s -> Forall (fun c => is_newline c = false) s.
Proof.
  induction s as [|c s IH]; simpl; [constructor|].
  intros [Hc Hs]. constructor; [|by apply IH].
  destruct (is_newline c) eqn:Hn; [|done].
  apply N.eqb_eq in Hn. subst c. by destruct (Hc eq_refl).
Qed.

End Whitespace.

(* ================================================================== *)
(** ** [cleanOCRText] *)
(* ================================================================== *)


(** For every input the result is whitespace-normalised and has no
    whitespace at either end. *)
Lemma cleanOCRText_normalised (x : jsstring) :
  collapsed (cleanOCRText x) /\ trimmed (cleanOCRText x).
Proof.
  split; [|apply trim_trimmed].
  apply collapsed_trim. unfold run_passes, passes. cbn [foldl fst snd].
  apply squeeze_collapsed.
Qed.

Section Plain.

(** Proving [Needs trigger r] for the patterns of the source. *)
Ltac side :=
  let c := fresh "c" in
  let Hc := fresh "Hc" in
  intros c Hc; unfold trigger, is_dash in *;
  first
    [ apply N.eqb_eq in Hc; subst; reflexivity
    | repeat (apply orb_prop in Hc; destruct Hc as [Hc|Hc]);
      rewrite Hc; btauto ].

Ltac needs :=
  lazymatch goal with
  | |- Needs _ (Cat _ _) =>
      first [ apply Needs_cat_l; needs | apply Needs_cat_r; needs ]
  | |- Needs _ (Grp _) => apply Needs_grp; needs
  | |- Needs _ (Chr _) => apply Needs_chr; side
  | |- Needs _ (Ahead _) => apply Needs_ahead; side
  end.

Ltac needs_of r := cbv [r seq foldr plus lit_ci lit]; needs.

Lemma needs_page : Needs trigger re_page. Proof. needs_of re_page. Qed.
Lemma needs_ielts : Needs trigger re_ielts. Proof. needs_of re_ielts. Qed.
Lemma needs_test : Needs trigger re_test. Proof. needs_of re_test. Qed.
Lemma needs_pipe : Needs trigger re_pipe. Proof. needs_of re_pipe. Qed.
Lemma needs_underscores : Needs trigger re_underscores.
Proof. needs_of re_underscores. Qed.
Lemma needs_emdashes : Needs trigger re_emdashes.
Proof. needs_of re_emdashes. Qed.
Lemma needs_spaced_pipe : Needs trigger re_spaced_pipe.
Proof. needs_of re_spaced_pipe. Qed.
Lemma needs_num_dot : Needs trigger re_num_dot.
Proof. needs_of re_num_dot. Qed.
Lemma needs_lI_dot : Needs trigger re_lI_dot. Proof. needs_of re_lI_dot. Qed.
Lemma needs_O_dot : Needs trigger re_O_dot. Proof. needs_of re_O_dot. Qed.
Lemma needs_hyphen_break : Needs trigger re_hyphen_break.
Proof. needs_of re_hyphen_break. Qed.
Lemma needs_hyphen_word : Needs trigger re_hyphen_word.
Proof. needs_of re_hyphen_word. Qed.
Lemma needs_lower_upper : Needs trigger re_lower_upper.
Proof. needs_of re_lower_upper. Qed.
Lemma needs_digit_upper : Needs trigger re_digit_upper.
Proof. needs_of re_digit_upper. Qed.
Lemma needs_alpha_digit : Needs trigger re_alpha_digit.
Proof. needs_of re_alpha_digit. Qed.
Lemma needs_dash : Needs trigger re_dash. Proof. needs_of re_dash. Qed.
Lemma needs_sentence : Needs trigger re_sentence.
Proof. needs_of re_sentence. Qed.

Lemma needs_nl_lower : Needs is_newline re_nl_lower.
Proof. cbv [re_nl_lower seq foldr]. apply Needs_cat_l, Needs_chr. auto. Qed.
Lemma needs_newlines : Needs is_newline re_newlines.
Proof. cbv [re_newlines plus]. apply Needs_cat_l, Needs_chr. auto. Qed.

Create HintDb passes discriminated.

#[local] Hint Resolve needs_page needs_ielts needs_test needs_pipe
  needs_underscores needs_emdashes needs_spaced_pipe needs_num_dot
  needs_lI_dot needs_O_dot needs_hyphen_break needs_hyphen_word
  needs_lower_upper needs_digit_upper needs_alpha_digit needs_dash
  needs_sentence : passes.

(** A pass that needs a trigger leaves plain text alone. *)
Lemma pass_plain r repl (s : jsstring) :
  Needs trigger r -> plain s -> replace_all r repl s = s.
Proof. intros Hn Hs. by apply (replace_all_needs trigger). Qed.

(** A pass that inserts nothing but spaces keeps plain text plain. *)
Lemma pass_keeps_plain r (t : jsstring) (s : jsstring) :
  plain t -> plain s -> plain (replace_all r (always t) s).
Proof. intros Ht Hs. by apply replace_from_Forall. Qed.

Lemma plain_nil : plain [].
Proof. constructor. Qed.

Lemma plain_space : plain space.
Proof. by repeat constructor. Qed.

#[local] Hint Resolve plain_nil plain_space pass_keeps_plain : passes.

Ltac skip_pass :=
  match goal with
  | |- context [replace_all ?r ?repl ?s] =>
      rewrite (pass_plain r repl s) by auto with passes
  end.

(** Plain text stays plain through all the passes. *)
Lemma run_passes_plain (x : jsstring) : plain x -> plain (run_passes passes x).
Proof.
  intros Hx. unfold run_passes, passes. cbn [foldl fst snd].
  repeat first [ skip_pass | apply pass_keeps_plain; auto with passes ].
Qed.

Lemma plain_trim (s : jsstring) : plain s -> plain (trim s).
Proof.
  destruct (trim_infix s) as (pre & post & Hs). unfold plain.
  rewrite Hs at 1. rewrite !Forall_app. tauto.
Qed.


End Plain.


(* ================================================================== *)
(** ** More on the matcher: what a match consumes and captures *)
(* ================================================================== *)

Section Consumes.

Implicit Types (r : regex) (k : mstate -> option mstate) (s : jsstring).

(** A property of code units that the text has. *)
Variable Q : N -> Prop.

Lemma star_greedy_sound p k cs b s res :
  Forall Q s -> Forall (Forall Q) cs ->
  star_greedy p k cs b s = Some res ->
  exists st', sound Q st' /\ k st' = Some res.
Proof.
  intros Hs Hcs. revert b.
  induction Hs as [|c s Hc Hs IH]; intros b; simpl.
  - intros H. exists (MState b [] cs). by repeat split.
  - destruct (p c).
    + destruct (star_greedy p k cs false s) eqn:E.
      * intros [= <-]. by apply (IH false).
      * intros H. exists (MState b (c :: s) cs).
        repeat split; [by constructor | done..].
    + intros H. exists (MState b (c :: s) cs).
      repeat split; [by constructor | done..].
Qed.

Lemma star_lazy_sound p k cs b s res :
  Forall Q s -> Forall (Forall Q) cs ->
  star_lazy p k cs b s = Some res ->
  exists st', sound Q st' /\ k st' = Some res.
Proof.
  intros Hs Hcs. revert b.
  induction Hs as [|c s Hc Hs IH]; intros b; simpl.
  - destruct (k (MState b [] cs)) eqn:E; [|done].
    intros [= <-]. exists (MState b [] cs). by repeat split.
  - destruct (k (MState b (c :: s) cs)) eqn:E.
    + intros [= <-]. exists (MState b (c :: s) cs).
      repeat split; [by constructor | done..].
    + destruct (p c); [|done]. apply IH.
Qed.

Lemma rmatch_sound r k st res :
  sound Q st -> rmatch r k st = Some res ->
  exists st', sound Q st' /\ k st' = Some res.
Proof.
  revert k st res.
  induction r as [|p|p|p|p|r1 IH1 r2 IH2|r IH| |p];
    intros k st res [Hst Hcs]; simpl.
  - intros H. by exists st.
  - destruct (rest st) as [|c s'] eqn:Hr; [done|].
    apply Forall_cons in Hst as [_ Hs']. destruct (p c); [|done].
    intros H. by exists (MState false s' (caps st)).
  - by apply star_greedy_sound.
  - by apply star_lazy_sound.
  - destruct (rest st) as [|c s'] eqn:Hr.
    + intros H. exists st. repeat split; [by rewrite Hr | done..].
    + assert (sound Q st) as Hsound by (split; [by rewrite Hr | done]).
      apply Forall_cons in Hst as [_ Hs']. destruct (p c).
      * destruct (k (MState false s' (caps st))) eqn:E.
        -- intros [= <-]. by exists (MState false s' (caps st)).
        -- intros H. by exists st.
      * intros H. by exists st.
  - intros H. apply IH1 in H as (st1 & Hst1 & H); [|done].
    by apply IH2 in H.
  - intros H. apply IH in H as (st1 & [Hr1 Hc1] & H); [|done].
    eexists. split; [|exact H]. split; simpl; [done|].
    apply Forall_app. split; [done|]. constructor; [|done].
    by apply Forall_take.
  - destruct (at_start st); [|done]. intros H. by exists st.
  - destruct (rest st) as [|c s'] eqn:Hr; [done|].
    destruct (p c); [|done]. intros H. exists st.
    repeat split; [by rewrite Hr | done..].
Qed.

Lemma match_here_sound r b s after cs :
  Forall Q s -> match_here r b s = Some (after, cs) ->
  Forall Q after /\ Forall (Forall Q) cs.
Proof.
  intros Hs. unfold match_here.
  destruct (rmatch r Some (MState b s [])) as [st|] eqn:E; [|done].
  intros [= <- <-].
  apply rmatch_sound in E as (st' & Hst' & [= ->]); [done|].
  by split.
Qed.

(** The code units of the result of [replace] come from the text, or
    from what the template adds to the match and the captures. *)
Lemma replace_from_pieces r repl b n s :
  (forall m cs, Forall Q m -> Forall (Forall Q) cs -> Forall Q (repl m cs)) ->
  Forall Q s -> Forall Q (replace_from r repl b n s).
Proof.
  intros Hrepl Hs. revert b n.
  induction Hs as [|c s Hc Hs IH]; intros b n.
  - destruct n; simpl; [|done].
    destruct (match_here r b []) as [[after cs]|] eqn:E; [|done].
    apply match_here_sound in E as [_ Hcs]; [|done].
    rewrite Forall_app. split; [|constructor].
    apply Hrepl; [apply Forall_take; constructor | done].
  - destruct n; simpl; [|apply IH].
    destruct (match_here r b (c :: s)) as [[after cs]|] eqn:E.
    + apply match_here_sound in E as [_ Hcs]; [|by constructor].
      rewrite Forall_app. split.
      * apply Hrepl; [|done]. apply Forall_take. by constructor.
      * destruct (length _); [constructor; [done|] |]; apply IH.
    + constructor; [done | apply IH].
Qed.

End Consumes.

Section Clears.

Implicit Types (r : regex) (s : jsstring)
  (repl : jsstring -> list jsstring -> jsstring).

(** A match leaves a suffix of the text. *)
Lemma match_here_shorter r b s after cs :
  match_here r b s = Some (after, cs) ->
  (length after <= length s)%nat.
Proof.
  intros H.
  apply (match_here_sound (fun _ => True)) in H as H'.
  2: { by apply Forall_true. }
  clear H'. revert H. unfold match_here.
  destruct (rmatch r Some (MState b s [])) as [st|] eqn:E; [|done].
  intros [= <- <-].
  enough (forall r k st res,
    rmatch r k st = Some res ->
    exists st', (length (rest st') <= length (rest st))%nat
                /\ k st' = Some res) as Hgen.
  { apply Hgen in E as (st' & Hlen & [= ->]). done. }
  clear. intros r.
  assert (forall p k cs b s res,
    star_greedy p k cs b s = Some res ->
    exists st', (length (rest st') <= length s)%nat /\ k st' = Some res)
    as Hgreedy.
  { intros p k cs b s. revert b.
    induction s as [|c s IH]; intros b res; simpl.
    - intros H. by exists (MState b [] cs).
    - destruct (p c).
      + destruct (star_greedy p k cs false s) eqn:E.
        * intros [= <-]. apply IH in E as (st' & Hlen & Hk).
          exists st'. split; [lia | done].
        * intros H. by exists (MState b (c :: s) cs).
      + intros H. by exists (MState b (c :: s) cs). }
  assert (forall p k cs b s res,
    star_lazy p k cs b s = Some res ->
    exists st', (length (rest st') <= length s)%nat /\ k st' = Some res)
    as Hlazy.
  { intros p k cs b s. revert b.
    induction s as [|c s IH]; intros b res; simpl.
    - destruct (k (MState b [] cs)) eqn:E; [|done].
      intros [= <-]. by exists (MState b [] cs).
    - destruct (k (MState b (c :: s) cs)) eqn:E.
      + intros [= <-]. by exists (MState b (c :: s) cs).
      + destruct (p c); [|done]. intros H.
        apply IH in H as (st' & Hlen & Hk).
        exists st'. split; [lia | done]. }
  induction r as [|p|p|p|p|r1 IH1 r2 IH2|r IH| |p];
    intros k st res; simpl.
  - intros H. by exists st.
  - destruct (rest st) as [|c s'] eqn:Hr; [done|].
    destruct (p c); [|done].
    intros H. exists (MState false s' (caps st)). simpl. split; [lia|done].
  - apply Hgreedy.
  - apply Hlazy.
  - destruct (rest st) as [|c s'] eqn:Hr.
    + intros H. exists st. by rewrite Hr.
    + destruct (p c).
      * destruct (k (MState false s' (caps st))) eqn:E.
        -- intros [= <-]. exists (MState false s' (caps st)). simpl.
           split; [lia|done].
        -- intros H. exists st. by rewrite Hr.
      * intros H. exists st. by rewrite Hr.
  - intros H. apply IH1 in H as (st1 & Hlen1 & H).
    apply IH2 in H as (st2 & Hlen2 & H).
    exists st2. split; [lia | done].
  - intros H. apply IH in H as (st1 & Hlen1 & H).
    eexists. split; [|exact H]. done.
  - destruct (at_start st); [|done]. intros H. by exists st.
  - destruct (rest st) as [|c s'] eqn:Hr; [done|].
    destruct (p c); [|done]. intros H. exists st. by rewrite Hr.
Qed.

(** If the pattern clears class [p] and the template adds no code unit
    of the class, none is left. *)
Lemma replace_from_clears (p : N -> bool) r repl b n s :
  clears p r ->
  (forall m cs, Forall (fun c => p c = false) (repl m cs)) ->
  Forall (fun c => p c = false) (replace_from r repl b n s).
Proof.
  intros Hr Hrepl. revert b n.
  induction s as [|c s IH]; intros b n.
  - destruct n; simpl; [|done].
    destruct (match_here r b []) as [[after cs]|]; [|done].
    rewrite Forall_app. split; [apply Hrepl | constructor].
  - destruct n; simpl; [|apply IH].
    destruct (match_here r b (c :: s)) as [[after cs]|] eqn:E.
    + rewrite Forall_app. split; [apply Hrepl|].
      destruct (length (taken (c :: s) after)) eqn:Hlen;
        [constructor|]; try apply IH.
      destruct (p c) eqn:Hpc; [|done].
      destruct (Hr b c s Hpc) as (after' & cs' & E' & Hshort).
      rewrite E in E'. injection E' as <- <-.
      unfold taken in Hlen. rewrite length_take in Hlen. simpl in Hlen. lia.
    + constructor; [|apply IH].
      destruct (p c) eqn:Hpc; [|done].
      destruct (Hr b c s Hpc) as (after' & cs' & E' & _). congruence.
Qed.

Lemma clears_chr (p : N -> bool) : clears p (Chr p).
Proof.
  intros b c s Hpc. exists s, []. unfold match_here. simpl.
  by rewrite Hpc.
Qed.

(** Replacing a single class by a single code unit is a map. *)
Lemma replace_chr_map (p : N -> bool) (d : N) b s :
  replace_from (Chr p) (always [d]) b 0 s
  = map (fun c => if p c then d else c) s.
Proof.
  revert b. induction s as [|c s IH]; intros b; [done|].
  cbn [replace_from map]. unfold match_here. cbn [rmatch rest caps].
  destruct (p c); cbn [rest caps]; [|by rewrite IH].
  assert (taken (c :: s) s = [c]) as ->.
  { unfold taken. cbn [length].
    by replace (S (length s) - length s)%nat with 1%nat by lia. }
  cbn [length]. unfold always at 1. cbn [app]. by rewrite IH.
Qed.

End Clears.

(* ================================================================== *)
(** ** Stage 6: dash normalisation *)
(* ================================================================== *)

Lemma hyphenate_map (s : jsstring) :
  hyphenate s = map (fun c => if in_class c then 45%N else c) s.
Proof. apply (replace_chr_map in_class 45). Qed.

Lemma hyphenate_length (s : jsstring) : length (hyphenate s) = length s.
Proof. by rewrite hyphenate_map, length_map. Qed.

Lemma hyphenate_clean (s : jsstring) :
  Forall (fun c => in_class c = false) (hyphenate s).
Proof.
  rewrite hyphenate_map. apply Forall_forall. intros c Hc.
  apply list_elem_of_fmap in Hc as (c0 & -> & _).
  by destruct (in_class c0) eqn:E.
Qed.

Lemma hyphenate_fix (s : jsstring) :
  Forall (fun c => in_class c = false) s -> hyphenate s = s.
Proof.
  rewrite hyphenate_map. induction 1 as [|c s Hc _ IH]; [done|].
  simpl. by rewrite Hc, IH.
Qed.

Lemma hyphenate_truthy (o : option jsstring) :
  truthy_str (hyphenate <$> o) = truthy_str o.
Proof.
  destruct o as [s|]; [|done]. simpl.
  pose proof (hyphenate_length s) as H.
  destruct s, (hyphenate _); simpl in *; congruence.
Qed.


Lemma standardizeQuestionIds_ok (s : Structure) (ps : list Part) :
  parts s = Some ps ->
  Forall (fun p => is_Some (questions p)) ps ->
  standardizeQuestionIds s
  = Ok (mkStructure (test s) (section s)
          (Some (map (fun p =>
                        set_questions
                          (Some (map (fun q =>
                                        standardizeQuestion (copy_question q))
                                   (questions_of p))) p) ps))).
Proof.
  intros Hps Hall. unfold standardizeQuestionIds, deep_copy.
  rewrite Hps. simpl.
  rewrite (forEach_ok _
    (fun _ p => set_questions
                  (Some (map standardizeQuestion (questions_of p))) p)).
  - simpl. do 3 f_equal.
    rewrite (imap_const (fun p => set_questions
      (Some (map standardizeQuestion (questions_of p))) p)).
    rewrite <- list_fmap_compose. apply list_fmap_ext.
    intros i p Hp. simpl.
    apply (Forall_lookup_1 _ _ _ _ Hall) in Hp as [qs Hqs].
    unfold copy_part, questions_of, set_questions. rewrite Hqs. simpl.
    by rewrite <- list_fmap_compose.
  - intros i p Hp. apply list_lookup_fmap_Some in Hp as (p0 & -> & Hp0).
    apply (Forall_lookup_1 _ _ _ _ Hall) in Hp0 as [qs Hqs].
    unfold copy_part, questions_of. rewrite Hqs. simpl.
    rewrite (forEach_ok _ (fun _ => standardizeQuestion)) by done.
    simpl. by rewrite (imap_const standardizeQuestion).
Qed.

Lemma hyphenate_hyphenated (s : jsstring) : hyphenate s = hyphenated s.
Proof.
  rewrite hyphenate_map. unfold hyphenated. apply map_ext. intros c.
  unfold in_class, rewritten_by_stage6.
  destruct (N.eqb_spec c 226) as [->|H1]; [done|].
  destruct (N.eqb_spec c 8364) as [->|H2]; [done|].
  destruct (N.eqb_spec c 8220) as [->|H3]; [done|].
  destruct (N.eqb_spec c 8221) as [->|H4]; [done|].
  rewrite bool_decide_eq_false_2; [done|].
  rewrite !elem_of_cons, elem_of_nil. tauto.
Qed.

(** What stage 6 does to one question: the two properties are
    rewritten, also when they are empty or absent (nothing to rewrite
    then). *)
Lemma standardizeQuestion_eq (q : Question) :
  standardizeQuestion q
  = set_numberRange (hyphenate <$> numberRange q)
      (set_questionId (hyphenate <$> questionId q) q).
Proof.
  destruct q as [qid num ty it ac ii an dv nr tx qt qi tl op b64 u h].
  unfold standardizeQuestion.
  cbn [questionId numberRange set_questionId set_numberRange
       number type inputType answerConstraints isInteractive answer
       draggableVariants text questionText q_instructions textList options
       base64 url headline].
  destruct qid as [[|c qid]|], nr as [[|d nr]|]; reflexivity.
Qed.

(** X1. On a document with its arrays, [standardizeQuestionIds] returns
    a document with the same parts and questions in place, each question
    the deep copy of the input question but for its [questionId] and
    its [numberRange]: in these two, every code unit U+00E2, U+20AC,
    U+201C or U+201D has become a hyphen and every other code unit, an
    en dash or an em dash too, is what it was. *)
Theorem standardizeQuestionIds_dashes (s : Structure) :
  has_arrays s ->
  exists ps',
    standardizeQuestionIds s
      = Ok (mkStructure (test s) (section s) (Some ps'))
    /\ length ps' = length (default [] (parts s))
    /\ forall k p, default [] (parts s) !! k = Some p ->
         exists p',
           ps' !! k = Some p'
           /\ metadata p' = metadata p
           /\ is_Some (questions p')
           /\ length (questions_of p') = length (questions_of p)
           /\ forall j q, questions_of p !! j = Some q ->
                exists q',
                  questions_of p' !! j = Some q'
                  /\ questionId q' = hyphenated <$> questionId q
                  /\ numberRange q' = hyphenated <$> numberRange q
                  /\ set_questionId (questionId q)
                       (set_numberRange (numberRange q) q')
                     = copy_question q.
Proof.
  unfold has_arrays. destruct (parts s) as [ps|] eqn:Hps; [|done].
  intros Hall. eexists. split; [by apply standardizeQuestionIds_ok|].
  cbn [default from_option id].
  split; [apply length_map|].
  intros k p Hp. eexists. split; [by rewrite list_lookup_fmap, Hp|].
  split; [done|]. split; [by eexists|].
  split; [unfold questions_of at 1; simpl; apply length_map|].
  intros j q Hq. unfold questions_of at 1. simpl.
  eexists. split; [by rewrite list_lookup_fmap, Hq|].
  rewrite standardizeQuestion_eq.
  destruct q as [qid num ty it ac ii an dv nr tx qt qi tl op b64 u h].
  cbn [questionId numberRange set_questionId set_numberRange copy_question
       set_inputType set_answerConstraints
       number type inputType answerConstraints isInteractive answer
       draggableVariants text questionText q_instructions textList options
       base64 url headline].
  split; [destruct qid; simpl; by rewrite ?hyphenate_hyphenated|].
  split; [destruct nr; simpl; by rewrite ?hyphenate_hyphenated|].
  reflexivity.
Qed.

Lemma standardizeQuestionIds_dashes_witness :
  exists ps',
    standardizeQuestionIds dashed_structure
      = Ok (mkStructure (test dashed_structure) (section dashed_structure)
              (Some ps'))
    /\ length ps' = length (default [] (parts dashed_structure))
    /\ forall k p, default [] (parts dashed_structure) !! k = Some p ->
         exists p',
           ps' !! k = Some p'
           /\ metadata p' = metadata p
           /\ is_Some (questions p')
           /\ length (questions_of p') = length (questions_of p)
           /\ forall j q, questions_of p !! j = Some q ->
                exists q',
                  questions_of p' !! j = Some q'
                  /\ questionId q' = hyphenated <$> questionId q
                  /\ numberRange q' = hyphenated <$> numberRange q
                  /\ set_questionId (questionId q)
                       (set_numberRange (numberRange q) q')
                     = copy_question q.
Proof.
  apply (standardizeQuestionIds_dashes dashed_structure).
  unfold has_arrays. simpl. repeat constructor. by eexists.
Defined.

(* ================================================================== *)
(** ** What the text cleaners never leave behind *)
(* ================================================================== *)

Section Keeps.

Implicit Types (r : regex) (s : jsstring)
  (repl : jsstring -> list jsstring -> jsstring).

Variable Q : N -> Prop.

Lemma adds_only_always (t : jsstring) : Forall Q t -> adds_only Q (always t).
Proof. by intros Ht m cs _ _. Qed.

Lemma cap_pieces (i : nat) (cs : list jsstring) :
  Forall (Forall Q) cs -> Forall Q (cap i cs).
Proof.
  intros Hcs. unfold cap. destruct (cs !! i) as [t|] eqn:E; simpl; [|done].
  by apply (Forall_lookup_1 _ _ _ _ Hcs E).
Qed.

Lemma adds_only_join12 : adds_only Q join12.
Proof.
  intros m cs _ Hcs. unfold join12. apply Forall_app.
  split; by apply cap_pieces.
Qed.

Lemma adds_only_space12 : Q 32%N -> adds_only Q space12.
Proof.
  intros H32 m cs _ Hcs. unfold space12. rewrite !Forall_app.
  repeat split; [by apply cap_pieces | by repeat constructor
                | by apply cap_pieces].
Qed.

Lemma adds_only_num_dot : Q 32%N -> Q 46%N -> adds_only Q num_dot.
Proof.
  intros H32 H46 m cs _ Hcs. unfold num_dot. rewrite Forall_app.
  split; [by apply cap_pieces | by repeat constructor].
Qed.

Lemma replace_all_keeps r repl s :
  adds_only Q repl -> Forall Q s -> Forall Q (replace_all r repl s).
Proof. intros Hrepl Hs. by apply replace_from_pieces. Qed.

Lemma trim_keeps s : Forall Q s -> Forall Q (trim s).
Proof.
  intros Hs. destruct (trim_infix s) as (pre & post & Heq).
  rewrite Heq in Hs. by apply Forall_app in Hs as [_ [Hs _]%Forall_app].
Qed.

End Keeps.

Lemma star_greedy_some (p : N -> bool) (cs : list jsstring) (b : bool)
    (s : jsstring) :
  exists st, star_greedy p Some cs b s = Some st
             /\ (length (rest st) <= length s)%nat.
Proof.
  revert b. induction s as [|c s IH]; intros b; simpl.
  - by eexists.
  - destruct (p c); [|by eexists].
    destruct (IH false) as (st & -> & Hlen).
    exists st. split; [done | lia].
Qed.

Lemma clears_plus (p : N -> bool) : clears p (plus p).
Proof.
  intros b c s Hpc. unfold match_here, plus. cbn [rmatch rest caps].
  rewrite Hpc. cbn [rmatch rest caps at_start].
  destruct (star_greedy_some p [] false s) as (st & -> & Hlen).
  by exists (rest st), (caps st).
Qed.

Lemma long_dash_cases (c : N) :
  (N.eqb c en_dash || N.eqb c em_dash) = true ->
  c = en_dash \/ c = em_dash.
Proof.
  intros H. apply orb_true_iff in H as [H|H]; apply N.eqb_eq in H; auto.
Qed.

Lemma clears_dash :
  clears (fun c => N.eqb c en_dash || N.eqb c em_dash) re_dash.
Proof.
  intros b c s Hc. unfold match_here, re_dash, seq.
  cbn [foldr rmatch rest caps at_start star_greedy].
  assert (is_space c = false /\ is_dash c = true) as [-> Hd].
  { by destruct (long_dash_cases c Hc) as [-> | ->]. }
  cbn [rmatch rest caps at_start]. rewrite Hd.
  cbn [rmatch rest caps at_start].
  revert b. clear. 
  enough (forall b s0, exists st,
    star_greedy is_space (fun st => Some st) [] b s0 = Some st
    /\ (length (rest st) <= length s0)%nat) as H.
  { intros _. destruct (H false s) as (st & -> & Hlen).
    by exists (rest st), (caps st). }
  intros b s0. apply star_greedy_some.
Qed.

(** The passes of [cleanOCRText] after the one that deletes the pipes,
    after the one that rewrites the underscores, and after the one that
    rewrites the dashes add none of them. *)
Ltac keeps :=
  first [ apply adds_only_always; by repeat constructor
        | apply adds_only_join12
        | apply adds_only_space12; done
        | apply adds_only_num_dot; done ].

Lemma cleanOCRText_no_pipe (x : jsstring) :
  Forall (fun c => ch "|" c = false) (cleanOCRText x).
Proof.
  unfold cleanOCRText. apply trim_keeps.
  unfold run_passes, passes. cbn [foldl fst snd].
  do 17 (apply replace_all_keeps; [keeps|]).
  apply replace_from_clears; [apply clears_chr | done].
Qed.

Lemma cleanOCRText_no_underscore (x : jsstring) :
  Forall (fun c => ch "_" c = false) (cleanOCRText x).
Proof.
  unfold cleanOCRText. apply trim_keeps.
  unfold run_passes, passes. cbn [foldl fst snd].
  do 16 (apply replace_all_keeps; [keeps|]).
  apply replace_from_clears; [apply clears_plus|].
  intros m cs. by repeat constructor.
Qed.

Lemma cleanOCRText_no_long_dash (x : jsstring) :
  Forall (fun c => (N.eqb c en_dash || N.eqb c em_dash) = false)
    (cleanOCRText x).
Proof.
  unfold cleanOCRText. apply trim_keeps.
  unfold run_passes, passes. cbn [foldl fst snd].
  do 2 (apply replace_all_keeps; [keeps|]).
  apply replace_from_clears; [apply clears_dash|].
  intros m cs. by repeat constructor.
Qed.

(** X2. For every input, the result of [cleanOCRText] has no whitespace
    at either end, has single spaces as its only whitespace, and
    contains no pipe, no underscore, no en dash and no em dash. *)
Theorem cleanOCRText_output (x : jsstring) :
  trimmed (cleanOCRText x)
  /\ collapsed (cleanOCRText x)
  /\ Forall (fun c => noise c = false) (cleanOCRText x).
Proof.
  destruct (cleanOCRText_normalised x) as [Hc Ht].
  split; [done|]. split; [done|].
  pose proof (cleanOCRText_no_pipe x) as H1.
  pose proof (cleanOCRText_no_underscore x) as H2.
  pose proof (cleanOCRText_no_long_dash x) as H3.
  revert H1 H2 H3. generalize (cleanOCRText x). intros y.
  clear. rewrite !Forall_forall. intros H1 H2 H3 c Hin.
  unfold noise. rewrite (H1 c Hin), (H2 c Hin). exact (H3 c Hin).
Qed.

(** X3. [cleanJsonString] throws on the empty string, with the message
    "Invalid JSON string provided", and on no other string; what it
    returns has no whitespace at either end and contains no control
    character other than tab, line feed and carriage return. *)
Theorem cleanJsonString_output (raw : jsstring) :
  match raw with
  | [] => cleanJsonString raw = Throw (Error (js "Invalid JSON string provided"))
  | _ :: _ =>
      exists cleaned,
        cleanJsonString raw = Ok cleaned
        /\ trimmed cleaned
        /\ Forall (fun c => control c = false) cleaned
  end.
Proof.
  destruct raw as [|c raw]; [done|].
  eexists. split; [reflexivity|]. split; [apply trim_trimmed|].
  apply trim_keeps. unfold run_passes, json_passes. cbn [foldl fst snd].
  apply (replace_from_clears control); [apply clears_chr | done].
Qed.

(* ================================================================== *)
(** ** OCR gateway: effort and order of the calls, for every world *)
(* ================================================================== *)

Section Effort.

Context {Payload : Type} (w : World Payload).

Lemma count_app (e : event) (a b : trace) :
  count e (a ++ b) = (count e a + count e b)%nat.
Proof. unfold count. by rewrite List.filter_app, length_app. Qed.

Lemma checked_nil (tr : trace) : checked w tr [].
Proof. by intros [|i] Hi. Qed.

Lemma count_absent (e : event) (ev : trace) : e ∉ ev -> count e ev = 0%nat.
Proof.
  induction ev as [|x ev IH]; [done|].
  intros [Hx Hev]%not_elem_of_cons. rewrite count_cons, IH by done.
  by rewrite bool_decide_eq_false_2.
Qed.

Lemma checked_app (tr ev1 ev2 : trace) :
  checked w tr ev1 -> checked w (tr ++ ev1) ev2 ->
  checked w tr (ev1 ++ ev2).
Proof.
  intros H1 H2 i Hi. unfold trace in *.
  destruct (decide (i < length ev1)%nat) as [Hlt|Hge].
  - rewrite lookup_app_l in Hi by done.
    destruct (H1 i Hi) as (j & -> & Hj & Hh).
    exists j. split; [done|].
    rewrite lookup_app_l by lia. split; [done|].
    rewrite take_app_le by lia. done.
  - rewrite lookup_app_r in Hi by lia.
    destruct (H2 _ Hi) as (j & Hij & Hj & Hh).
    exists (length ev1 + j)%nat. split; [lia|].
    rewrite lookup_app_r by lia.
    replace (length ev1 + j - length ev1)%nat with j by lia.
    split; [done|].
    rewrite take_app_ge by lia.
    replace (length ev1 + j - length ev1)%nat with j by lia.
    by rewrite app_assoc.
Qed.

Lemma checked_free (tr ev : trace) :
  DocTRExtract ∉ ev -> checked w tr ev.
Proof.
  intros Hn i Hi. destruct Hn. by apply list_elem_of_lookup_2 in Hi.
Qed.

(** One attempt: what it adds to the trace, and what it can throw. *)
Lemma attempt_events (name : jsstring) (unhealthy : string) (tr : trace) :
  exists ev,
    (attempt w name unhealthy tr).2 = tr ++ ev
    /\ (extractions ev <= 1)%nat
    /\ (count HealthCheck ev <= 1)%nat
    /\ (forall ms, Delay ms ∉ ev)
    /\ checked w tr ev
    /\ forall e, (attempt w name unhealthy tr).1 = Throw e ->
                 exists msg, e = Error msg.
Proof.
  unfold attempt, isDocTRHealthy, extractTextWithDocTR,
    extractTextWithTesseract.
  destruct (bool_decide (name = js "doctr")).
  - destruct (health w (count HealthCheck tr)) eqn:Hh.
    + exists [HealthCheck; DocTRExtract]. cbn [fst snd].
      rewrite <- app_assoc. repeat split; [cbv; lia.. | | |].
      * intros ms H. by repeat (apply elem_of_cons in H as [?|H]; [done|]);
          apply elem_of_nil in H.
      * intros [|[|i]] Hi; try done.
        exists 0%nat. by rewrite take_0, app_nil_r.
      * destruct (doctr w _); [done|]. intros e [= <-]. by eexists.
    + exists [HealthCheck]. cbn [fst snd]. repeat split; [cbv; lia.. | | |].
      * intros ms H. by repeat (apply elem_of_cons in H as [?|H]; [done|]);
          apply elem_of_nil in H.
      * by intros [|i] Hi.
      * intros e [= <-]. by eexists.
  - exists [TesseractExtract]. cbn [fst snd].
    repeat split; [cbv; lia.. | | |].
    + intros ms H. by repeat (apply elem_of_cons in H as [?|H]; [done|]);
        apply elem_of_nil in H.
    + by intros [|i] Hi.
    + destruct (tesseract w _); [done|]. intros e [= <-]. by eexists.
Qed.

(** The retry loop with [r] attempts left. *)
Lemma primaryLoop_events (svc : OCRService) (r : nat)
    (last : option jserror) (tr : trace) :
  exists ev,
    (primaryLoop w svc r last tr).2 = tr ++ ev
    /\ (extractions ev <= r)%nat
    /\ (count HealthCheck ev <= r)%nat
    /\ (count (Delay 1000) ev <= r - 1)%nat
    /\ (forall ms, Delay ms ∈ ev -> ms = 1000)
    /\ checked w tr ev
    /\ forall o, (primaryLoop w svc r last tr).1 = inr o ->
         match r with
         | O => o = last
         | S _ => exists msg, o = Some (Error msg)
         end.
Proof.
  revert last tr. induction r as [|r IH]; intros last tr.
  { exists []. simpl. rewrite app_nil_r.
    repeat split; try (cbv; lia).
    - intros ms H. by apply elem_of_nil in H.
    - apply checked_nil.
    - by intros o [= <-]. }
  cbn [primaryLoop].
  destruct (attempt_events (primaryService svc)
              "docTR service is unhealthy" tr)
    as (ev1 & Htr & Hx & Hh & Hd & Hc & Herr).
  destruct (attempt w (primaryService svc) "docTR service is unhealthy" tr)
    as [[res|e] tr1]; cbn [fst snd] in *; subst tr1.
  { exists ev1. cbn [fst snd]. repeat split; try lia; try done.
    - rewrite count_absent by apply Hd. lia.
    - intros ms H. by apply Hd in H. }
  destruct (Herr e eq_refl) as [msg ->].
  destruct r as [|r].
  { exists ev1. cbn [primaryLoop fst snd]. repeat split; try lia; try done.
    - rewrite count_absent by apply Hd. lia.
    - intros ms H. by apply Hd in H.
    - intros o [= <-]. by eexists. }
  destruct (IH (Some (Error msg)) ((tr ++ ev1) ++ [Delay 1000]))
    as (ev2 & Htr2 & Hx2 & Hh2 & Hd2 & Hms2 & Hc2 & Herr2).
  exists (ev1 ++ [Delay 1000] ++ ev2).
  split; [by rewrite Htr2, <- !app_assoc|].
  unfold extractions in *. rewrite !count_app.
  rewrite (count_absent (Delay 1000) ev1) by apply Hd.
  change (count DocTRExtract [Delay 1000]) with 0%nat.
  change (count TesseractExtract [Delay 1000]) with 0%nat.
  change (count HealthCheck [Delay 1000]) with 0%nat.
  change (count (Delay 1000) [Delay 1000]) with 1%nat.
  repeat split; try lia.
  - intros ms H. rewrite !elem_of_app in H.
    destruct H as [H|[H|H]]; [by apply Hd in H | | by apply Hms2].
    apply list_elem_of_singleton in H. by injection H.
  - apply checked_app; [done|].
    apply checked_app; [by apply checked_free; intros ?%list_elem_of_singleton|].
    exact Hc2.
  - exact Herr2.
Qed.

(** A call of [extractText]. *)
Lemma extractText_events (svc : OCRService) (tr : trace) :
  let n := Z.to_nat (maxRetries svc) in
  exists ev,
    (extractText w svc tr).2 = tr ++ ev
    /\ (extractions ev <= n + 1)%nat
    /\ (count HealthCheck ev <= n + 1)%nat
    /\ (count (Delay 1000) ev <= n - 1)%nat
    /\ (forall ms, Delay ms ∈ ev -> ms = 1000)
    /\ checked w tr ev
    /\ forall e, (extractText w svc tr).1 = Throw e ->
         (0 < n)%nat -> exists msg, e = Error msg.
Proof.
  intros n. unfold extractText. fold n.
  destruct (primaryLoop_events svc n None tr)
    as (ev1 & Htr & Hx & Hh & Hd & Hms & Hc & Herr).
  destruct (primaryLoop w svc n None tr) as [[res|last] tr1];
    cbn [fst snd] in *; subst tr1.
  { exists ev1. cbn [fst snd]. repeat split; try lia; done. }
  specialize (Herr last eq_refl).
  destruct (bool_decide (fallbackService svc ≠ primaryService svc)).
  - destruct (attempt_events (fallbackService svc)
                "docTR fallback service is also unhealthy" (tr ++ ev1))
      as (ev2 & Htr2 & Hx2 & Hh2 & Hd2 & Hc2 & _).
    exists (ev1 ++ ev2).
    assert ((let (r, tr2) :=
               attempt w (fallbackService svc)
                 "docTR fallback service is also unhealthy" (tr ++ ev1) in
             tr2) = tr ++ ev1 ++ ev2) as Htrace.
    { destruct (attempt w _ _ _). simpl in Htr2. by rewrite Htr2, app_assoc. }
    unfold extractions in *. rewrite !count_app.
    rewrite (count_absent (Delay 1000) ev2) by apply Hd2.
    split.
    { destruct (attempt w _ _ _) as [[res|e] tr2]; cbn [fst snd] in *;
        [by rewrite Htr2, app_assoc|].
      destruct last; cbn [snd]; by rewrite Htr2, app_assoc. }
    repeat split; try lia.
    + intros ms H. apply elem_of_app in H as [H|H]; [by apply Hms|].
      by apply Hd2 in H.
    + by apply checked_app.
    + intros e He Hn.
      destruct (attempt w _ _ _) as [[res|e2] tr2]; [done|].
      destruct n; [lia|]. destruct Herr as [msg ->].
      cbn [fst] in He. injection He as <-. by eexists.
  - exists ev1.
    split; [by destruct last|].
    repeat split; try lia; try done.
    intros e He Hn. destruct n; [lia|]. destruct Herr as [msg ->].
    cbn [fst] in He. injection He as <-. by eexists.
Qed.

End Effort.


(** X4. Whatever the backends answer, one call of [extractText] makes
    at most [maxRetries + 1] backend calls and at most [maxRetries + 1]
    health checks, and waits at most [maxRetries - 1] times, one second
    each time. *)
Theorem extractText_effort {Payload : Type} (w : World Payload)
    (svc : OCRService) (tr : trace) :
  let n := Z.to_nat (maxRetries svc) in
  exists ev,
    (extractText w svc tr).2 = tr ++ ev
    /\ (extractions ev <= n + 1)%nat
    /\ (count HealthCheck ev <= n + 1)%nat
    /\ (count (Delay 1000) ev <= n - 1)%nat
    /\ (forall ms, Delay ms ∈ ev -> ms = 1000).
Proof.
  intros n.
  destruct (extractText_events w svc tr)
    as (ev & Htr & Hx & Hh & Hd & Hms & _).
  by exists ev.
Qed.

(** X5. Whatever the backends answer, [extractText] calls the remote
    extraction only directly after a health check that found the remote
    service healthy, for the primary and for the fallback. *)
Theorem extractText_checks_health {Payload : Type} (w : World Payload)
    (svc : OCRService) (tr : trace) :
  exists ev,
    (extractText w svc tr).2 = tr ++ ev /\ checked w tr ev.
Proof.
  destruct (extractText_events w svc tr)
    as (ev & Htr & _ & _ & _ & _ & Hc & _).
  by exists ev.
Qed.

Section Local.

Context {Payload : Type} (w : World Payload) (svc : OCRService).

Lemma local_attempts_SS (n : nat) :
  local_attempts (S (S n))
  = TesseractExtract :: Delay 1000 :: local_attempts (S n).
Proof. reflexivity. Qed.

Lemma local_attempts_calls (n : nat) :
  count TesseractExtract (local_attempts (S n)) = S n
  /\ count (Delay 1000) (local_attempts (S n)) = n.
Proof.
  induction n as [|n [IH1 IH2]]; [done|].
  by rewrite local_attempts_SS, !count_cons, IH1, IH2.
Qed.

Hypothesis Hprimary : primaryService svc <> js "doctr".

Lemma primaryLoop_local (r : nat) (msgs : nat -> jsstring)
    (last : option jserror) (tr : trace) :
  (forall i, (i < r)%nat ->
     tesseract w (count TesseractExtract tr + i) = inr (msgs i)) ->
  primaryLoop w svc r last tr
  = (inr (match r with
          | O => last
          | S m => Some (Error (msgs m))
          end),
     tr ++ local_attempts r).
Proof.
  revert msgs last tr. induction r as [|r IH]; intros msgs last tr Hdown.
  { simpl. by rewrite app_nil_r. }
  cbn [primaryLoop]. unfold attempt, extractTextWithTesseract.
  rewrite bool_decide_eq_false_2 by done.
  pose proof (Hdown 0%nat ltac:(lia)) as H0. rewrite Nat.add_0_r in H0.
  rewrite H0.
  rewrite (IH (fun i => msgs (S i))).
  - destruct r; simpl.
    + by rewrite app_nil_r.
    + by rewrite <- !app_assoc.
  - intros i Hi. rewrite <- (Hdown (S i)) by lia. f_equal.
    destruct r; [lia|]. rewrite !count_snoc. simpl. lia.
Qed.

(** X6. When the fallback is the service that is also the primary, and
    it is not the remote one (the configuration the constructor builds
    by default), and every one of the [maxRetries] attempts fails, then
    [extractText] makes exactly [maxRetries] calls of the local engine,
    one second apart, tries no fallback, and throws the error of the
    last attempt as it is. *)
Theorem extractText_same_fallback (n : nat) (msgs : nat -> jsstring)
    (tr : trace) :
  fallbackService svc = primaryService svc ->
  maxRetries svc = Z.of_nat (S n) ->
  (forall i, (i <= n)%nat ->
     tesseract w (count TesseractExtract tr + i) = inr (msgs i)) ->
  extractText w svc tr
  = (Throw (Error (msgs n)), tr ++ local_attempts (S n))
  /\ count TesseractExtract (local_attempts (S n)) = S n
  /\ count (Delay 1000) (local_attempts (S n)) = n
  /\ (HealthCheck ∉ local_attempts (S n))
  /\ (DocTRExtract ∉ local_attempts (S n)).
Proof.
  intros Hfb Hmax Hdown.
  destruct (local_attempts_calls n) as [Hc Hd].
  split; [|split; [done|split; [done|]]].
  - unfold extractText. rewrite Hmax, Nat2Z.id.
    rewrite (primaryLoop_local (S n) msgs)
      by (intros i Hi; apply Hdown; lia).
    rewrite Hfb. by rewrite bool_decide_eq_false_2 by (by intros []).
  - clear. induction n as [|m [IH1 IH2]].
    + split; by intros ?%list_elem_of_singleton.
    + rewrite local_attempts_SS, !not_elem_of_cons. by repeat split.
Qed.

End Local.

Lemma extractText_same_fallback_witness :
  extractText all_down default_service []
  = (Throw (Error (js "tesseract failure 1")),
     [] ++ local_attempts 2)
  /\ count TesseractExtract (local_attempts 2) = 2%nat
  /\ count (Delay 1000) (local_attempts 2) = 1%nat
  /\ (HealthCheck ∉ local_attempts 2)
  /\ (DocTRExtract ∉ local_attempts 2).
Proof.
  refine (extractText_same_fallback all_down default_service _ 1
            (fun i => js "tesseract failure " ++ string_of_Z (Z.of_nat i))
            [] _ _ _).
  - discriminate.
  - reflexivity.
  - reflexivity.
  - intros i Hi. reflexivity.
Defined.

(* ================================================================== *)
(** ** OCR gateway: batches *)
(* ================================================================== *)

Lemma newOCRService_retries (options : Options) (env : option jsstring) :
  (forall z, opt_maxRetries options = Some z -> 0 <= z) ->
  (0 < Z.to_nat (maxRetries (newOCRService options env)))%nat.
Proof.
  intros H. unfold newOCRService, or_num. simpl.
  destruct (opt_maxRetries options) as [z|]; simpl; [|lia].
  specialize (H z eq_refl). destruct (Z.eqb_spec z 0); simpl; lia.
Qed.

Section Batches.

Context {Payload : Type} (w : World Payload) (svc : OCRService).

Lemma extractions_app (a b : trace) :
  extractions (a ++ b) = (extractions a + extractions b)%nat.
Proof. unfold extractions. rewrite !count_app. lia. Qed.

Lemma batchFrom_entries (i : nat) (imagePaths : list jsstring) (tr : trace) :
  (0 < Z.to_nat (maxRetries svc))%nat ->
  exists entries ev,
    batchFrom w svc i imagePaths tr = (Ok entries, tr ++ ev)
    /\ length entries = length imagePaths
    /\ (forall k e, entries !! k = Some e ->
          index e = (i + k)%nat /\ imagePaths !! k = Some (imagePath e))
    /\ (extractions ev
        <= length imagePaths * (Z.to_nat (maxRetries svc) + 1))%nat.
Proof.
  intros Hn. revert i tr.
  induction imagePaths as [|path rest IH]; intros i tr.
  { exists [], []. simpl. rewrite app_nil_r.
    split; [done|]. split; [done|]. split; [by intros [|k] e|].
    unfold extractions, count. simpl. lia. }
  cbn [batchFrom].
  destruct (extractText_events w svc tr)
    as (ev1 & Htr & Hx & _ & _ & _ & _ & Herr).
  destruct (extractText w svc tr) as [r tr1]; cbn [fst snd] in *; subst tr1.
  destruct (IH (S i) (tr ++ ev1)) as (entries & ev2 & Hb & Hlen & Hent & Hx2).
  assert (exists entry, batchEntry i path r = Ok entry
                        /\ index entry = i /\ imagePath entry = path)
    as (entry & -> & Hi & Hp).
  { destruct r as [res|e]; [by eexists|].
    destruct (Herr e eq_refl Hn) as [msg ->]. by eexists. }
  rewrite Hb. exists (entry :: entries), (ev1 ++ ev2).
  split; [by rewrite app_assoc|].
  split; [simpl; by rewrite Hlen|].
  split.
  - intros [|k] e He.
    + injection He as <-. rewrite Nat.add_0_r. by rewrite Hp.
    + destruct (Hent k e He) as [Hk Hk']. split; [lia | done].
  - rewrite extractions_app. simpl. lia.
Qed.

End Batches.

(** X7. For a service built by the constructor with no retry option or
    a non-negative one, [extractTextBatch] returns one entry for every
    image path, in order, each with its position as [index] and its
    path as [imagePath], whether the extraction of the image succeeded
    or failed: a failure does not stop the batch. The batch makes at
    most [maxRetries + 1] backend calls per image. *)
Theorem extractTextBatch_entries {Payload : Type} (w : World Payload)
    (options : Options) (env : option jsstring)
    (imagePaths : list jsstring) (tr : trace) :
  (forall z, opt_maxRetries options = Some z -> 0 <= z) ->
  let svc := newOCRService options env in
  exists entries ev,
    extractTextBatch w svc imagePaths tr = (Ok entries, tr ++ ev)
    /\ length entries = length imagePaths
    /\ (forall k e, entries !! k = Some e ->
          index e = k /\ imagePaths !! k = Some (imagePath e))
    /\ (extractions ev
        <= length imagePaths * (Z.to_nat (maxRetries svc) + 1))%nat.
Proof.
  intros Hopt svc. apply batchFrom_entries.
  by apply newOCRService_retries.
Qed.

Lemma extractTextBatch_entries_witness :
  let svc := newOCRService (mkOptions None None None) None in
  exists entries ev,
    extractTextBatch all_down svc [js "a.png"; js "b.png"] []
    = (Ok entries, [] ++ ev)
    /\ length entries = length [js "a.png"; js "b.png"]
    /\ (forall k e, entries !! k = Some e ->
          index e = k /\ [js "a.png"; js "b.png"] !! k = Some (imagePath e))
    /\ (extractions ev
        <= length [js "a.png"; js "b.png"]
           * (Z.to_nat (maxRetries svc) + 1))%nat.
Proof.
  apply (extractTextBatch_entries all_down (mkOptions None None None) None
           [js "a.png"; js "b.png"] []).
  intros z Hz. discriminate.
Defined.

(** X8. With a retry budget of zero or less and the primary service
    also as fallback, [extractText] contacts no backend and throws the
    [null] it has in [lastError]; [extractTextBatch] then fails on its
    first image with a [TypeError] (its [catch] reads the message of
    what was thrown) instead of recording the failure. *)
Theorem extractTextBatch_no_budget {Payload : Type} (w : World Payload)
    (svc : OCRService) (path : jsstring) (rest : list jsstring)
    (tr : trace) :
  maxRetries svc <= 0 ->
  fallbackService svc = primaryService svc ->
  extractText w svc tr = (Throw ThrownNull, tr)
  /\ extractTextBatch w svc (path :: rest) tr = (Throw TypeError, tr).
Proof.
  intros Hmax Hfb.
  assert (extractText w svc tr = (Throw ThrownNull, tr)) as Hx.
  { unfold extractText.
    replace (Z.to_nat (maxRetries svc)) with 0%nat by lia.
    cbn [primaryLoop]. rewrite Hfb.
    by rewrite bool_decide_eq_false_2 by (by intros []). }
  split; [done|].
  unfold extractTextBatch. cbn [batchFrom]. by rewrite Hx.
Qed.

Lemma extractTextBatch_no_budget_witness :
  extractText all_down no_budget [] = (Throw ThrownNull, [])
  /\ extractTextBatch all_down no_budget [js "a.png"] []
     = (Throw TypeError, []).
Proof.
  apply (extractTextBatch_no_budget all_down no_budget (js "a.png") [] []).
  - unfold no_budget. simpl. lia.
  - reflexivity.
Defined.

(* ================================================================== *)
(** ** Stage 2: a second run changes nothing *)
(* ================================================================== *)

Ltac qfields :=
  cbn [questionId number type inputType answerConstraints isInteractive
       answer draggableVariants numberRange text questionText
       q_instructions textList options base64 url headline
       set_questionId set_number set_type set_inputType
       set_answerConstraints set_isInteractive set_answer
       set_draggableVariants set_numberRange present].

Lemma getInputTypeForQuestionType_truthy (t : option jsstring) :
  truthy_prop (Some (getInputTypeForQuestionType t)) = true.
Proof.
  unfold getInputTypeForQuestionType.
  destruct (lookup_literal typeMap t) as [v|]; [|done].
  destruct (truthy_prop (Some v)) eqn:Hv; [exact Hv | reflexivity].
Qed.

Lemma getDefaultAnswerConstraints_truthy (t : option jsstring) :
  truthy_prop (Some (getDefaultAnswerConstraints t)) = true.
Proof.
  unfold getDefaultAnswerConstraints.
  destruct (lookup_literal constraintMap t) as [v|]; [|done].
  destruct (truthy_prop (Some v)) eqn:Hv; [exact Hv | reflexivity].
Qed.

Lemma truthy_str_app_r (a b : jsstring) :
  truthy_str (Some b) = true -> truthy_str (Some (a ++ b)) = true.
Proof. by destruct a, b. Qed.

Section Stage2Again.

Variable toLowerCase : jsstring -> jsstring.

Lemma autoDetectQuestionType_truthy (q : Question) :
  truthy_str (Some (autoDetectQuestionType toLowerCase q)) = true.
Proof.
  pose proof (autoDetectQuestionType_nonempty toLowerCase q) as H.
  by destruct (autoDetectQuestionType toLowerCase q).
Qed.

(** The questions that stage 2 leaves alone: every default is in
    place. *)
Lemma fixQuestion_settled (t : jsstring) (n : Z) (j : nat) (q : Question) :
  settled n j (fixQuestion toLowerCase t n j q).
Proof.
  destruct q as [qid num ty it ac ii an dv nr tx qt qi tl op b64 u h].
  unfold settled, fixQuestion. qfields.
  unfold defaultQuestionId; qfields;
    destruct (truthy_str qid) eqn:Hid; qfields;
    unfold defaultNumber; qfields;
    destruct (truthy_num num) eqn:Hnum; qfields;
    unfold defaultType; qfields;
    destruct (truthy_str ty) eqn:Hty; qfields;
    unfold defaultInputType; qfields;
    destruct (truthy_prop it) eqn:Hit; qfields;
    unfold defaultAnswerConstraints; qfields;
    destruct (truthy_prop ac) eqn:Hac; qfields;
    unfold defaultIsInteractive; qfields;
    destruct ii as [b|]; qfields;
    unfold defaultAnswer; qfields;
    destruct an as [a|]; qfields;
    (split; [first [ exact Hid | reflexivity ]|]);
    (split; [first [ left; exact Hnum | right; reflexivity ]|]);
    (split; [first [ exact Hty | apply autoDetectQuestionType_truthy ]|]);
    (split; [first [ exact Hit | apply getInputTypeForQuestionType_truthy ]|]);
    (split; [first [ exact Hac | apply getDefaultAnswerConstraints_truthy ]|]);
    split; reflexivity.
Qed.

Lemma fixQuestion_fix (t : jsstring) (n : Z) (j : nat) (q : Question) :
  settled n j q -> fixQuestion toLowerCase t n j q = q.
Proof.
  destruct q as [qid num ty it ac ii an dv nr tx qt qi tl op b64 u h].
  unfold settled. qfields.
  intros (Hid & Hnum & Hty & Hit & Hac & Hii & Han).
  unfold fixQuestion.
  unfold defaultQuestionId; qfields. rewrite Hid.
  unfold defaultNumber; qfields.
  assert ((if truthy_num num
           then mkQuestion qid num ty it ac ii an dv nr tx qt qi tl op b64 u h
           else set_number (Some ((n - 1) * 10 + Z.of_nat j + 1))
                  (mkQuestion qid num ty it ac ii an dv nr tx qt qi tl op
                     b64 u h))
          = mkQuestion qid num ty it ac ii an dv nr tx qt qi tl op b64 u h)
    as ->.
  { destruct Hnum as [-> | ->]; [done|]. by destruct (truthy_num _). }
  unfold defaultType; qfields. rewrite Hty.
  unfold defaultInputType; qfields. rewrite Hit.
  unfold defaultAnswerConstraints; qfields. rewrite Hac.
  unfold defaultIsInteractive; qfields. rewrite Hii.
  unfold defaultAnswer; qfields. by rewrite Han.
Qed.

Lemma fixPart_fix (t : jsstring) (k : nat) (p : Part) :
  fixPart toLowerCase t k (fixPart toLowerCase t k p)
  = fixPart toLowerCase t k p.
Proof.
  unfold fixPart at 1.
  set (p' := fixPart toLowerCase t k p).
  assert (exists n, part p' = Some n /\ n <> 0
                    /\ truthy_str (instructions p') = true
                    /\ truthy_str (questionsRange p') = true
                    /\ exists qs, questions p' = Some qs
                         /\ Forall2 (fun _ q => True) qs qs
                         /\ forall j q, qs !! j = Some q -> settled n j q)
    as (n & Hn & Hn0 & Hi & Hr & qs & Hqs & _ & Hsettled).
  { subst p'. unfold fixPart. cbn [part instructions questionsRange questions].
    eexists. split; [reflexivity|]. split.
    { destruct (truthy_num (part p)) eqn:E; [|lia].
      destruct (part p) as [z|]; [|done]. simpl in *.
      by destruct (Z.eqb_spec z 0). }
    split. { by destruct (truthy_str (instructions p)) eqn:E. }
    split.
    { destruct (truthy_str (questionsRange p)) eqn:E; [done|].
      by apply truthy_str_app_r. }
    eexists. split; [reflexivity|]. split; [by apply Forall2_same_length_lookup_2|].
    intros j q Hq. apply list_lookup_imap_Some in Hq as (q0 & _ & ->).
    apply fixQuestion_settled. }
  rewrite Hn, Hi, Hr, Hqs. cbn [default truthy_num id].
  destruct (Z.eqb_spec n 0) as [?|_]; [lia|]. cbn [negb].
  clearbody p'. destruct p' as [pn pi pr pq pe].
  cbn [part instructions questionsRange questions extra] in *.
  subst pn pq. f_equal. f_equal.
  apply list_eq. intros j. rewrite list_lookup_imap.
  destruct (qs !! j) as [q|] eqn:Hq; [|done]. cbn [fmap option_fmap option_map].
  f_equal. apply fixQuestion_fix. by apply Hsettled.
Qed.

(** X9. [validateAndFixStructure] is idempotent: on its own result it
    changes nothing, for every input document. *)
Theorem validateAndFixStructure_idempotent (s : Structure) :
  validateAndFixStructure toLowerCase
    (validateAndFixStructure toLowerCase s)
  = validateAndFixStructure toLowerCase s.
Proof.
  unfold validateAndFixStructure at 1.
  set (s' := validateAndFixStructure toLowerCase s).
  assert (exists t sec ps,
            s' = mkStructure (Some t) (Some sec) (Some ps)
            /\ truthy_str (Some t) = true /\ truthy_str (Some sec) = true
            /\ forall k p, ps !! k = Some p -> fixPart toLowerCase t k p = p)
    as (t & sec & ps & -> & Ht & Hsec & Hps).
  { subst s'. unfold validateAndFixStructure. eexists _, _, _.
    split; [reflexivity|].
    split. { by destruct (truthy_str (test s)) eqn:E;
               [destruct (test s) as [[|??]|]|]. }
    split. { by destruct (truthy_str (section s)) eqn:E;
               [destruct (section s) as [[|??]|]|]. }
    intros k p Hp. apply list_lookup_imap_Some in Hp as (p0 & _ & ->).
    apply fixPart_fix. }
  cbn [test section parts default]. rewrite Ht, Hsec. cbn [id]. f_equal. f_equal.
  apply list_eq. intros k. rewrite list_lookup_imap.
  destruct (ps !! k) as [p|] eqn:Hp; [|done].
  cbn [fmap option_fmap option_map]. f_equal. by apply Hps.
Qed.

Lemma autoDetectQuestionType_table (q : Question) :
  let t := autoDetectQuestionType toLowerCase q in
  t ∈ map (fun e => js e.1) typeMap
  /\ own typeMap t = Some (getInputTypeForQuestionType (Some t))
  /\ own constraintMap t = Some (getDefaultAnswerConstraints (Some t)).
Proof.
  unfold autoDetectQuestionType.
  repeat match goal with |- context [if ?b then _ else _] => destruct b end;
    (split; [by repeat first [apply list_elem_of_here
                             | apply list_elem_of_further] |]);
    split; reflexivity.
Qed.

(** X10. The type that [autoDetectQuestionType] picks is always one of
    the seven types of the two tables, so the defaults derived from a
    detected type are the table entries: never the fallback values for
    an unknown type, never a member inherited from [Object.prototype]. *)
Theorem autoDetectQuestionType_known (q : Question) :
  let t := autoDetectQuestionType toLowerCase q in
  t ∈ map (fun e => js e.1) typeMap
  /\ own typeMap t = Some (getInputTypeForQuestionType (Some t))
  /\ own constraintMap t = Some (getDefaultAnswerConstraints (Some t)).
Proof. apply autoDetectQuestionType_table. Qed.

End Stage2Again.

(* ================================================================== *)
(** ** Stage 7: a second run changes nothing; numbers are distinct *)
(* ================================================================== *)

Lemma renumberQuestion_fix test partNo p i q :
  renumberQuestion test partNo p i (renumberQuestion test partNo p i q)
  = renumberQuestion test partNo p i q.
Proof.
  destruct q as [qid num ty it ac ii an dv nr tx qt qi tl op b64 u h].
  unfold renumberQuestion, type_is. cbn [type].
  destruct (negb (bool_decide (ty = Some (js "divider")))
            && negb (bool_decide (ty = Some (js "image")))) eqn:E.
  - cbn [set_number questionId number type inputType answerConstraints
         isInteractive answer draggableVariants numberRange text
         questionText q_instructions textList options base64 url headline].
    destruct (truthy_str qid) eqn:Hid;
      cbn [set_questionId set_number questionId number type inputType
           answerConstraints isInteractive answer draggableVariants
           numberRange text questionText q_instructions textList options
           base64 url headline].
    + rewrite E. cbn [truthy_str js app]. reflexivity.
    + rewrite E, Hid. reflexivity.
  - cbn [type]. by rewrite E.
Qed.

Lemma renumberPart_fix test i p :
  renumberPart test i (renumberPart test i p) = renumberPart test i p.
Proof.
  unfold renumberPart, set_questions.
  cbn [part instructions questionsRange questions extra default id].
  do 2 f_equal. apply list_eq. intros j. rewrite !list_lookup_imap.
  destruct (default [] (questions p) !! j) as [q|]; [|done].
  cbn [fmap option_fmap option_map]. f_equal. apply renumberQuestion_fix.
Qed.

(** X11. [enforceQuestionNumbering] is idempotent: on a document with
    its arrays it returns a document on which a second run returns the
    same document. *)
Theorem enforceQuestionNumbering_idempotent (s : Structure) :
  has_arrays s ->
  exists s',
    enforceQuestionNumbering s = Ok s'
    /\ enforceQuestionNumbering s' = Ok s'.
Proof.
  unfold has_arrays. destruct (parts s) as [ps|] eqn:Hps; [|done].
  intros Hall. eexists. split; [by apply enforceQuestionNumbering_ok|].
  erewrite enforceQuestionNumbering_ok; [|reflexivity|].
  - cbn [test section]. do 3 f_equal. apply list_eq. intros k.
    rewrite !list_lookup_imap.
    destruct (ps !! k) as [p|]; [|done].
    cbn [fmap option_fmap option_map]. f_equal. apply renumberPart_fix.
  - apply Forall_forall. intros p' Hp'.
    apply list_elem_of_lookup in Hp' as [k Hk].
    apply list_lookup_imap_Some in Hk as (p0 & _ & ->). by eexists.
Qed.

Lemma enforceQuestionNumbering_idempotent_witness :
  exists s',
    enforceQuestionNumbering misnumbered = Ok s'
    /\ enforceQuestionNumbering s' = Ok s'.
Proof.
  apply (enforceQuestionNumbering_idempotent misnumbered).
  unfold has_arrays. simpl. repeat constructor; by eexists.
Defined.

(** X12. When no part has more than ten questions, the numbers that
    [enforceQuestionNumbering] assigns are positive and pairwise
    distinct over the whole document: two numbered questions (neither
    divider nor image) with the same number are the same question. *)
Theorem enforceQuestionNumbering_distinct (s : Structure) :
  has_arrays s ->
  at_most_ten s ->
  exists ps',
    enforceQuestionNumbering s
      = Ok (mkStructure (test s) (section s) (Some ps'))
    /\ forall (p1 i1 p2 i2 : nat) (pt1 pt2 : Part) (q1 q2 : Question)
              (n : Z),
         ps' !! p1 = Some pt1 -> questions_of pt1 !! i1 = Some q1 ->
         ps' !! p2 = Some pt2 -> questions_of pt2 !! i2 = Some q2 ->
         counted q1 = true -> counted q2 = true ->
         number q1 = Some n -> number q2 = Some n ->
         0 < n /\ p1 = p2 /\ i1 = i2.
Proof.
  unfold has_arrays, at_most_ten.
  destruct (parts s) as [ps|] eqn:Hps; [|done].
  intros Hall Hten. eexists. split; [by apply enforceQuestionNumbering_ok|].
  assert (forall p i pt q n,
    imap (renumberPart (test s)) ps !! p = Some pt ->
    questions_of pt !! i = Some q -> counted q = true ->
    number q = Some n ->
    n = 10 * Z.of_nat p + Z.of_nat i + 1 /\ (i < 10)%nat) as Hnum.
  { intros p i pt q n Hp Hq Hc Hn.
    apply list_lookup_imap_Some in Hp as (pt0 & Hp0 & ->).
    unfold renumberPart, questions_of in Hq. simpl in Hq.
    apply list_lookup_imap_Some in Hq as (q0 & Hq0 & ->).
    unfold counted, type_is in Hc. rewrite renumberQuestion_type in Hc.
    apply andb_true_iff in Hc as [Hd Hi].
    apply negb_true_iff, bool_decide_eq_false in Hd.
    apply negb_true_iff, bool_decide_eq_false in Hi.
    rewrite renumberQuestion_number in Hn by done.
    injection Hn as <-. split; [done|].
    apply lookup_lt_Some in Hq0.
    simpl in Hten. apply (Forall_lookup_1 _ _ _ _ Hten) in Hp0.
    unfold questions_of in Hp0. lia. }
  intros p1 i1 p2 i2 pt1 pt2 q1 q2 n Hp1 Hq1 Hp2 Hq2 Hc1 Hc2 Hn1 Hn2.
  destruct (Hnum _ _ _ _ _ Hp1 Hq1 Hc1 Hn1) as [E1 B1].
  destruct (Hnum _ _ _ _ _ Hp2 Hq2 Hc2 Hn2) as [E2 B2].
  lia.
Qed.

Lemma enforceQuestionNumbering_distinct_witness :
  exists ps',
    enforceQuestionNumbering misnumbered
      = Ok (mkStructure (test misnumbered) (section misnumbered) (Some ps'))
    /\ forall (p1 i1 p2 i2 : nat) (pt1 pt2 : Part) (q1 q2 : Question)
              (n : Z),
         ps' !! p1 = Some pt1 -> questions_of pt1 !! i1 = Some q1 ->
         ps' !! p2 = Some pt2 -> questions_of pt2 !! i2 = Some q2 ->
         counted q1 = true -> counted q2 = true ->
         number q1 = Some n -> number q2 = Some n ->
         0 < n /\ p1 = p2 /\ i1 = i2.
Proof.
  apply (enforceQuestionNumbering_distinct misnumbered).
  - unfold has_arrays. simpl. repeat constructor; by eexists.
  - unfold at_most_ten. simpl. repeat constructor; simpl; lia.
Defined.

(* ================================================================== *)
(** ** Stage 8: when the report is returned and what it says *)
(* ================================================================== *)

Section ForEachInv.

Context {A B : Type}.

(** A loop that returns has run its callback on every element; a loop
    that throws has met an element on which the callback throws that
    exception. *)
Lemma forEach_from_inv (f : nat -> A -> result B) (n : nat) (l : list A) :
  match forEach_from f n l with
  | Ok ys =>
      length ys = length l
      /\ forall i x, l !! i = Some x ->
           exists y, f (n + i)%nat x = Ok y /\ ys !! i = Some y
  | Throw e => exists i x, l !! i = Some x /\ f (n + i)%nat x = Throw e
  end.
Proof.
  revert n. induction l as [|x l IH]; intros n; simpl.
  { split; [done|]. by intros [|i] x. }
  destruct (f n x) as [y|e] eqn:Hx; simpl.
  - specialize (IH (S n)).
    destruct (forEach_from f (S n) l) as [ys|e]; simpl.
    + destruct IH as [Hlen IH]. split; [by rewrite Hlen|].
      intros [|i] x' Hi.
      * injection Hi as <-. exists y. by rewrite Nat.add_0_r.
      * destruct (IH i x' Hi) as (y' & Hy & Hy'). exists y'.
        by replace (n + S i)%nat with (S n + i)%nat by lia.
    + destruct IH as (i & x' & Hi & He). exists (S i), x'.
      by replace (n + S i)%nat with (S n + i)%nat by lia.
  - exists 0%nat, x. by rewrite Nat.add_0_r.
Qed.

End ForEachInv.

Lemma missing_nil (absent : bool) (msg : jsstring) :
  missing absent msg = [] <-> absent = false.
Proof. by destruct absent. Qed.

Lemma app_nil_iff {A} (a b : list A) : a ++ b = [] <-> a = [] /\ b = [].
Proof. split; [apply app_eq_nil | by intros [-> ->]]. Qed.

Lemma concat_nil_iff {A} (ls : list (list A)) :
  concat ls = [] <-> Forall (fun l => l = []) ls.
Proof.
  induction ls as [|l ls IH]; simpl.
  - split; [constructor | done].
  - rewrite app_nil_iff, IH, Forall_cons. done.
Qed.

Lemma questionErrors_nil (k i : nat) (q : Question) :
  questionErrors k i q = [] <-> question_complete q = true.
Proof.
  unfold questionErrors, question_complete, counted.
  destruct (type_is "divider" q), (type_is "image" q); simpl; try done.
  rewrite !app_nil_iff, !missing_nil, !andb_true_iff, !negb_false_iff.
  tauto.
Qed.

Lemma partErrors_inv (k : nat) (p : Part) :
  match partErrors k p with
  | Ok errs =>
      is_Some (questions p) /\ (errs = [] <-> part_complete p = true)
  | Throw e => e = TypeError /\ questions p = None
  end.
Proof.
  unfold partErrors, part_complete, questions_of.
  destruct (questions p) as [qs|] eqn:Hqs; [|done].
  cbn [forEach_opt present negb default].
  rewrite (forEach_ok _ (questionErrors k)) by done.
  cbn [mbind result_bind]. split; [by eexists|].
  rewrite !app_nil_iff, !missing_nil, !andb_true_iff, !negb_false_iff.
  rewrite concat_nil_iff, forallb_forall.
  enough (Forall (fun l => l = []) (imap (questionErrors k) qs)
          <-> forall q, In q qs -> question_complete q = true) by tauto.
  rewrite Forall_forall. split.
  - intros H q Hq. apply list_elem_of_In, list_elem_of_lookup in Hq as [i Hi].
    apply (questionErrors_nil k i), H.
    apply list_elem_of_lookup. exists i.
    by rewrite list_lookup_imap, Hi.
  - intros H errs Herrs. apply list_elem_of_lookup in Herrs as [i Hi].
    apply list_lookup_imap_Some in Hi as (q & Hq & ->).
    apply questionErrors_nil, H, list_elem_of_In.
    by apply list_elem_of_lookup_2 in Hq.
Qed.

Lemma validateRequiredFields_spec (s : Structure) :
  match validateRequiredFields s with
  | Ok v => has_arrays s /\ valid v = complete s
  | Throw e => e = TypeError /\ ~ has_arrays s
  end.
Proof.
  unfold validateRequiredFields, has_arrays, complete.
  destruct (parts s) as [ps|] eqn:Hps; [|by split; [|tauto]].
  cbn [forEach_opt present negb default]. unfold forEach.
  pose proof (forEach_from_inv partErrors 0 ps) as Hinv.
  destruct (forEach_from partErrors 0 ps) as [perrs|e];
    cbn [mbind result_bind valid].
  - destruct Hinv as [Hlen Hinv]. split.
    + apply Forall_forall. intros p Hp.
      apply list_elem_of_lookup in Hp as [k Hk].
      destruct (Hinv k p Hk) as (errs & He & _).
      pose proof (partErrors_inv k p) as Hp. simpl in He.
      rewrite He in Hp. tauto.
    + apply eq_true_iff_eq. rewrite bool_decide_eq_true.
      rewrite length_zero_iff_nil.
      rewrite !app_nil_iff, !missing_nil, !andb_true_iff, !negb_false_iff.
      rewrite concat_nil_iff, forallb_forall.
      enough (Forall (fun l => l = []) perrs
              <-> forall p, In p ps -> part_complete p = true) by tauto.
      rewrite Forall_forall. split.
      * intros H p Hp.
        apply list_elem_of_In, list_elem_of_lookup in Hp as [k Hk].
        destruct (Hinv k p Hk) as (errs & He & Hy).
        pose proof (partErrors_inv k p) as Hp. simpl in He.
        rewrite He in Hp. apply Hp, H.
        by apply list_elem_of_lookup_2 in Hy.
      * intros H errs Herrs. apply list_elem_of_lookup in Herrs as [k Hk].
        assert (k < length ps)%nat as Hlt
          by (rewrite <- Hlen; by apply lookup_lt_Some in Hk).
        apply lookup_lt_is_Some_2 in Hlt as [p Hp].
        destruct (Hinv k p Hp) as (errs' & He & Hy).
        rewrite Hk in Hy. injection Hy as <-.
        pose proof (partErrors_inv k p) as Hp'. simpl in He.
        rewrite He in Hp'. apply Hp', H, list_elem_of_In.
        by apply list_elem_of_lookup_2 in Hp.
  - destruct Hinv as (k & p & Hk & He).
    pose proof (partErrors_inv k p) as Hp. simpl in He. rewrite He in Hp.
    destruct Hp as [-> Hq]. split; [done|].
    intros Hall. apply (Forall_lookup_1 _ _ _ _ Hall) in Hk as [? ?].
    congruence.
Qed.

(** X13. [validateRequiredFields] returns its report exactly on the
    documents that have a [parts] array and a [questions] array in
    every part, and throws a [TypeError] on all others; in a report it
    returns, [valid] is true exactly when every required property is
    there (test, section, and for every part its number, instructions
    and range, and for every question that is neither divider nor image
    its questionId, number, type, inputType, isInteractive and
    answer). *)
Theorem validateRequiredFields_report (s : Structure) :
  match validateRequiredFields s with
  | Ok v => has_arrays s /\ valid v = complete s
  | Throw e => e = TypeError /\ ~ has_arrays s
  end.
Proof. apply validateRequiredFields_spec. Qed.

(* ================================================================== *)
(** ** Stage 1: nothing is lost, and a second run changes nothing *)
(* ================================================================== *)

Lemma concat_questions_perm (l l' : list Part) :
  l ≡ₚ l' ->
  concat (map questions_of l) ≡ₚ concat (map questions_of l').
Proof.
  induction 1 as [|x l l' _ IH|x y l|l l' l'' _ IH1 _ IH2]; simpl.
  - done.
  - by rewrite IH.
  - rewrite !app_assoc. f_equiv. apply Permutation_app_comm.
  - by rewrite IH1.
Qed.

Lemma map_update_questions (k : option Z) (e : Part) (nq : list Question)
    (m : PartMap) :
  map_get k m = Some e ->
  concat (map questions_of
            (map_update k (set_questions (Some (questions_of e ++ nq)) e)
               m).*2)
  ≡ₚ concat (map questions_of m.*2) ++ nq.
Proof.
  induction m as [|[k' v] m IH]; simpl; [done|].
  destruct (bool_decide (k = k')) eqn:E.
  - intros [= ->]. simpl. unfold questions_of at 1. simpl.
    rewrite <- !app_assoc. f_equiv. apply Permutation_app_comm.
  - intros H. simpl. rewrite IH by done. by rewrite app_assoc.
Qed.

Lemma merged_questions (ps : list Part) :
  concat (map questions_of (foldl merge_step [] ps).*2)
  ≡ₚ concat (map questions_of ps).
Proof.
  induction ps as [|p ps IH] using rev_ind; [done|].
  rewrite foldl_snoc, map_app, concat_app. simpl. rewrite app_nil_r.
  set (m := foldl merge_step [] ps) in *. unfold merge_step.
  destruct (map_get (part p) m) as [e|] eqn:He.
  - etrans; [by apply (map_update_questions (part p) e (questions_of p))|].
    by rewrite IH.
  - rewrite fmap_app, map_app, concat_app. simpl.
    rewrite app_nil_r. by rewrite IH.
Qed.

Lemma mergeDuplicateParts_perm (ps : list Part) :
  concat (map questions_of (mergeDuplicateParts ps))
  ≡ₚ concat (map questions_of ps).
Proof.
  unfold mergeDuplicateParts.
  rewrite (concat_questions_perm _ _ (sort_by_perm compare_parts _)).
  apply merged_questions.
Qed.

(** X14. [mergeDuplicateParts] neither loses nor duplicates a question:
    the questions of the returned parts are, as a multiset, the
    questions of the input parts (a part without a [questions] array
    counting for none). *)
Theorem mergeDuplicateParts_keeps_questions (ps : list Part) :
  concat (map questions_of (mergeDuplicateParts ps))
  ≡ₚ concat (map questions_of ps).
Proof. apply mergeDuplicateParts_perm. Qed.

Lemma map_get_fresh (k : option Z) (l : list Part) :
  k ∉ map part l -> map_get k (map (fun p => (part p, p)) l) = None.
Proof.
  intros H. apply map_get_None. by rewrite <- list_fmap_compose.
Qed.

(** Without duplicate numbers the map of stage 1 holds the parts
    themselves. *)
Lemma merged_distinct (l : list Part) :
  NoDup (map part l) ->
  Forall (fun p => is_Some (questions p)) l ->
  foldl merge_step [] l = map (fun p => (part p, p)) l.
Proof.
  induction l as [|p l IH] using rev_ind; [done|].
  rewrite map_app. intros Hnd Hall. simpl in Hnd.
  apply NoDup_app in Hnd as (Hnd & Hfresh & _).
  apply Forall_app in Hall as [Hall [[qs Hqs] _]%Forall_cons].
  rewrite foldl_snoc, IH by done.
  generalize (map_get_fresh (part p) l). unfold merge_step.
  intros ->.
  - rewrite map_app. simpl. do 3 f_equal.
    destruct p. simpl in *. by rewrite Hqs.
  - intros Hin. apply (Hfresh _ Hin). apply list_elem_of_singleton. done.
Qed.

Lemma mergeDuplicateParts_fix (l : list Part) :
  NoDup (map part l) ->
  Forall (fun p => is_Some (questions p)) l ->
  chain l ->
  mergeDuplicateParts l = l.
Proof.
  intros Hnd Hall Hchain. unfold mergeDuplicateParts.
  rewrite merged_distinct by done.
  assert (map snd (map (fun p => (part p, p)) l) = l) as ->.
  { clear. induction l as [|p l IH]; simpl; [done|]. by rewrite IH. }
  by apply sort_by_fix.
Qed.

(** X15. [mergeDuplicateParts] is idempotent on every sequence of fewer
    than 64 parts, parts without a number included: merging its own
    result returns that result. (Up to that length the sort of V8 is
    the one insertion pass modelled here.) *)
Theorem mergeDuplicateParts_idempotent (ps : list Part) :
  (length ps < 64)%nat ->
  mergeDuplicateParts (mergeDuplicateParts ps) = mergeDuplicateParts ps.
Proof.
  intros _. apply mergeDuplicateParts_fix.
  - by destruct (mergeDuplicateParts_parts ps) as (Hnd & _).
  - eapply Forall_impl; [apply merged_part_first|].
    intros pt (first & _ & _ & Hq). by eexists.
  - apply sort_by_chain.
Qed.

Lemma mergeDuplicateParts_idempotent_witness :
  mergeDuplicateParts (mergeDuplicateParts unnumbered_between)
  = mergeDuplicateParts unnumbered_between.
Proof.
  apply (mergeDuplicateParts_idempotent unnumbered_between). simpl. lia.
Defined.

Lemma ascending_chain (l : list Part) :
  Forall (fun p => is_Some (part p)) l -> ascending l ->
  NoDup (map part l) /\ chain l.
Proof.
  intros Hall Hasc. induction Hasc as [|x l Hasc IH Hx]; simpl.
  { split; [constructor | done]. }
  apply Forall_cons in Hall as [[kx Hkx] Hall].
  destruct (IH Hall) as [Hnd Hchain]. split.
  - constructor; [|done]. intros Hin.
    apply list_elem_of_fmap in Hin as (y & Hy & Hiny).
    pose proof (proj1 (Forall_forall _ _) Hx y Hiny kx kx Hkx) as Hlt.
    rewrite <- Hy in Hlt. specialize (Hlt Hkx). lia.
  - split; [|done]. destruct l as [|y l]; [done|].
    apply Forall_cons in Hx as [Hxy _].
    apply Forall_cons in Hall as [[ky Hky] _].
    unfold compare_parts. rewrite Hkx, Hky.
    specialize (Hxy kx ky Hkx Hky). lia.
Qed.

(** X16. A sequence of parts that all carry a number and a [questions]
    array, in strictly ascending order of their numbers, is returned by
    [mergeDuplicateParts] as it is. *)
Theorem mergeDuplicateParts_ascending (ps : list Part) :
  Forall (fun p => is_Some (part p)) ps ->
  Forall (fun p => is_Some (questions p)) ps ->
  ascending ps ->
  mergeDuplicateParts ps = ps.
Proof.
  intros Hnum Hqs Hasc.
  destruct (ascending_chain ps Hnum Hasc) as [Hnd Hchain].
  by apply mergeDuplicateParts_fix.
Qed.

Lemma mergeDuplicateParts_ascending_witness :
  mergeDuplicateParts two_parts = two_parts.
Proof.
  apply (mergeDuplicateParts_ascending two_parts).
  - repeat constructor; by eexists.
  - repeat constructor; by eexists.
  - unfold ascending, two_parts, part_numbered.
    repeat constructor.
    intros x y [= <-] [= <-]. lia.
Defined.

(* ================================================================== *)
(** ** Map detection *)
(* ================================================================== *)

Lemma starts_with_spec (p s : jsstring) :
  starts_with p s = true <-> exists post, s = p ++ post.
Proof.
  revert s. induction p as [|a p IH]; intros s; simpl.
  { split; [by exists s | done]. }
  destruct s as [|b s].
  { split; [done | by intros [post ?]]. }
  rewrite andb_true_iff, N.eqb_eq, IH. split.
  - intros [-> [post ->]]. by exists post.
  - intros [post [= -> ->]]. split; [done | by exists post].
Qed.

Lemma includes_spec (sub s : jsstring) :
  includes sub s = true <-> occurs sub s.
Proof.
  induction s as [|c s IH]; simpl.
  - rewrite orb_false_r, starts_with_spec. split.
    + intros [post ->]. by exists [], post.
    + intros ([|? pre] & post & H); [by exists post | done].
  - rewrite orb_true_iff, starts_with_spec, IH. split.
    + intros [[post ->] | (pre & post & ->)].
      * by exists [], post.
      * by exists (c :: pre), post.
    + intros ([|c' pre] & post & H).
      * left. by exists post.
      * right. injection H as -> ->. by exists pre, post.
Qed.

Lemma occurs_longer (k pre post t : jsstring) :
  occurs (pre ++ k ++ post) t -> occurs k t.
Proof.
  intros (a & b & ->). exists (a ++ pre), (post ++ b).
  by rewrite <- !app_assoc.
Qed.

Lemma occurs_elem (k t : jsstring) (c : N) :
  c ∈ k -> occurs k t -> c ∈ t.
Proof. intros Hc (a & b & ->). rewrite !elem_of_app. auto. Qed.

Lemma no_A_tilde_spec (t : jsstring) : no_A_tilde t = true -> 195%N ∉ t.
Proof.
  unfold no_A_tilde. rewrite forallb_forall. intros H Hin.
  apply list_elem_of_In, H in Hin. done.
Qed.

(** X17. [detectMapImage] answers true exactly when the lower-cased
    text contains, anywhere and also inside a longer word, one of the
    twenty-five keywords map, plan, diagram, layout, museum, building,
    entrance, exit, reception, shop, gallery, room, north, south, east,
    west, stairs, lift, elevator, parking, garden, path, route,
    direction, location. The two other entries of the list in the
    source decide nothing: "floor plan" contains "plan", and the
    eleventh, which the source file holds as "caf" with U+00C3 U+00A9
    after it, is never found, because the lower-cased text holds no
    U+00C3. *)
Theorem detectMapImage_occurs (toLowerCase : jsstring -> jsstring)
    (ocrText : jsstring) :
  no_A_tilde (toLowerCase ocrText) = true ->
  detectMapImage toLowerCase ocrText = true
  <-> exists keyword,
        keyword ∈ live_keywords /\ occurs keyword (toLowerCase ocrText).
Proof.
  intros Hno%no_A_tilde_spec.
  unfold detectMapImage. rewrite existsb_exists. split.
  - intros (k & Hk & Hin). apply includes_spec in Hin.
    unfold mapKeywords in Hk. cbn [map app] in Hk.
    assert (k = js "floor plan" \/ k = js "caf" ++ [195%N; 169%N]
            \/ In k live_keywords) as [-> | [-> | Hlive]].
    { unfold live_keywords. cbn [map]. cbn [In] in *. intuition. }
    + exists (js "plan"). split.
      * unfold live_keywords. cbn [map]. apply list_elem_of_In.
        cbn [In]. auto.
      * by apply (occurs_longer (js "plan") (js "floor ") []).
    + exfalso. apply Hno. eapply occurs_elem; [|exact Hin].
      apply list_elem_of_In. cbn. auto 10.
    + exists k. split; [by apply list_elem_of_In | done].
  - intros (k & Hk & Hin). exists k.
    split; [|by apply includes_spec].
    apply list_elem_of_In in Hk. unfold mapKeywords, live_keywords in *.
    cbn [map app In] in *. intuition.
Qed.

Lemma detectMapImage_occurs_witness :
  detectMapImage ascii_toLowerCase (js "Ground FLOOR Plan") = true
  <-> exists keyword,
        keyword ∈ live_keywords
        /\ occurs keyword (ascii_toLowerCase (js "Ground FLOOR Plan")).
Proof.
  apply (detectMapImage_occurs ascii_toLowerCase (js "Ground FLOOR Plan")).
  reflexivity.
Defined.

(* ================================================================== *)
(** ** Stage 3: where the map image goes *)
(* ================================================================== *)

Lemma existsb_image_snoc (acc : list Question) (q : Question) :
  existsb (type_is "image") (acc ++ [q])
  = existsb (type_is "image") acc || type_is "image" q.
Proof. rewrite existsb_app. simpl. by rewrite orb_false_r. Qed.

(** Once an image question is in the array, the loop only copies. *)
Lemma injectLoop_copy imgs test partNo (acc qs : list Question) :
  existsb (type_is "image") acc = true ->
  injectLoop imgs test partNo acc qs = acc ++ qs.
Proof.
  revert acc. induction qs as [|q qs IH]; intros acc Hacc; simpl.
  { by rewrite app_nil_r. }
  rewrite Hacc, andb_false_r.
  rewrite IH by (by rewrite existsb_image_snoc, Hacc).
  by rewrite <- app_assoc.
Qed.

Lemma injectLoop_none imgs test partNo (acc qs : list Question) :
  find isMap imgs = None ->
  injectLoop imgs test partNo acc qs = acc ++ qs.
Proof.
  intros Hnone. revert acc. induction qs as [|q qs IH]; intros acc; simpl.
  { by rewrite app_nil_r. }
  rewrite Hnone.
  assert (forall b : bool, (if b then acc else acc) = acc) as ->
    by (by intros []).
  by rewrite IH, <- app_assoc.
Qed.

Lemma type_is_exclusive (q : Question) :
  type_is "map-labelling" q = true -> type_is "image" q = false.
Proof.
  unfold type_is. intros H%bool_decide_eq_true.
  apply bool_decide_eq_false. by rewrite H.
Qed.

Lemma injectLoop_place imgs test partNo img (acc qs : list Question) :
  find isMap imgs = Some img ->
  existsb (type_is "image") acc = false ->
  injectLoop imgs test partNo acc qs
  = acc ++ place_map (mapQuestion test partNo img) qs.
Proof.
  intros Himg. revert acc. induction qs as [|q qs IH]; intros acc Hacc; simpl.
  { by rewrite app_nil_r. }
  rewrite Himg, Hacc, andb_true_r.
  destruct (type_is "map-labelling" q) eqn:Hmap.
  - rewrite (type_is_exclusive q Hmap).
    rewrite injectLoop_copy.
    + by rewrite <- !app_assoc.
    + rewrite !existsb_image_snoc, Hacc. done.
  - destruct (type_is "image" q) eqn:Himage.
    + rewrite injectLoop_copy by (by rewrite existsb_image_snoc, Himage, orb_true_r).
      by rewrite <- app_assoc.
    + rewrite IH by (by rewrite existsb_image_snoc, Hacc, Himage).
      by rewrite <- app_assoc.
Qed.

Lemma injectImageObjects_ok (s : Structure) (ps : list Part)
    (img : UploadedImage) (imgs : list UploadedImage) :
  parts s = Some ps ->
  injectImageObjects s (img :: imgs)
  = Ok (mkStructure (test s) (section s)
          (Some (map (fun p => injectPart (img :: imgs) (test s)
                                 (copy_part p)) ps))).
Proof.
  intros Hps. unfold injectImageObjects, deep_copy. rewrite Hps. simpl.
  rewrite (forEach_ok _ (fun _ => injectPart (img :: imgs) (test s)))
    by done.
  simpl. do 3 f_equal.
  rewrite (imap_const (injectPart (img :: imgs) (test s))).
  by rewrite <- list_fmap_compose.
Qed.

Lemma questions_of_copy (p : Part) :
  questions_of (copy_part p) = map copy_question (questions_of p).
Proof. unfold questions_of, copy_part. by destruct (questions p). Qed.



(* ================================================================== *)
(** ** Stage 4: embedded images *)
(* ================================================================== *)

Lemma rmatch_lit (a : string) (b : bool) (s : jsstring)
    (cs : list jsstring) :
  exists b',
    rmatch (lit a) Some (MState b s cs)
    = if starts_with (js a) s
      then Some (MState b' (drop (length (js a)) s) cs)
      else None.
Proof.
  revert b s. induction a as [|c a IH]; intros b s.
  { exists b. by destruct s. }
  cbn [lit rmatch js rest caps]. destruct s as [|x s]; [by exists b|].
  cbn [starts_with length drop]. unfold ch, code.
  rewrite (N.eqb_sym (N_of_ascii c) x).
  destruct (N.eqb x (N_of_ascii c)); [|by exists b].
  cbn [andb]. apply IH.
Qed.

Lemma replace_first_from_bol (r : regex)
    (repl : jsstring -> list jsstring -> jsstring) (s : jsstring) :
  replace_first_from (Cat Bol r) repl false s = s.
Proof. induction s as [|c s IH]; simpl; [done|]. by rewrite IH. Qed.

(** The pattern of stage 4 removes the PNG data-URI prefix at the very
    start of the text and nothing else. *)
Lemma replace_data_prefix (b : jsstring) :
  replace_first re_data_prefix (always []) b = payload_of b.
Proof.
  unfold replace_first, payload_of, re_data_prefix, data_prefix.
  destruct b as [|c b].
  { reflexivity. }
  cbn [replace_first_from]. unfold match_here. cbn [rmatch at_start].
  destruct (rmatch_lit "data:image/png;base64," true (c :: b) [])
    as [b' ->].
  destruct (starts_with _ _); [done|].
  by rewrite replace_first_from_bol.
Qed.

Lemma writes_app (a b : list fs_event) :
  writes (a ++ b) = (writes a + writes b)%nat.
Proof. unfold writes. by rewrite List.filter_app, length_app. Qed.

Lemma stored_mono (w : FsWorld) (tr ev0 ev ev1 : list fs_event)
    (q q' : Question) :
  stored w (tr ++ ev0) ev q q' -> stored w tr (ev0 ++ ev ++ ev1) q q'.
Proof.
  unfold stored. destruct (embedded q); [|done].
  intros (before & after & Hev & Hq). cbv zeta in *.
  exists (ev0 ++ before), (after ++ ev1). cbv zeta.
  rewrite <- !app_assoc in *. rewrite Hev. rewrite <- !app_assoc.
  split; [|exact Hq].
  by destruct (truthy_str (questionId q)).
Qed.

Lemma stored_first (w : FsWorld) (tr ev ev1 : list fs_event)
    (q q' : Question) :
  stored w tr ev q q' -> stored w tr (ev ++ ev1) q q'.
Proof.
  intros H. apply (stored_mono w tr [] ev ev1). by rewrite app_nil_r.
Qed.

Lemma stored_later (w : FsWorld) (tr ev0 ev : list fs_event)
    (q q' : Question) :
  stored w (tr ++ ev0) ev q q' -> stored w tr (ev0 ++ ev) q q'.
Proof.
  intros H. apply (stored_mono w tr ev0 ev []) in H.
  by rewrite app_nil_r in H.
Qed.

Lemma writes_now (tr : list fs_event) : writes (tr ++ [Now]) = writes tr.
Proof. rewrite writes_app. apply Nat.add_0_r. Qed.

(** The body of the loop of stage 4. *)
Lemma materialise_stored (w : FsWorld) (q : Question)
    (tr : list fs_event) :
  exists ev,
    (materialise w q tr).2 = tr ++ ev
    /\ stored w tr ev q (materialise w q tr).1
    /\ writes ev = (if embedded q then 1 else 0)%nat
    /\ (embedded q = false -> ev = []).
Proof.
  unfold materialise, stored, embedded.
  destruct (type_is "image" q && truthy_str (base64 q)) eqn:E.
  2: { exists []. by rewrite app_nil_r. }
  rewrite replace_data_prefix.
  destruct (truthy_str (questionId q)) eqn:Hid.
  - set (done := write_ok w (writes tr)).
    exists [WriteFile (default [] (questionId q) ++ js ".png")
              (payload_of (default [] (base64 q))) done].
    split; [by destruct done|]. split; [|done].
    exists [], []. cbv zeta. rewrite !app_nil_r. fold done.
    split; [done|]. by destruct done.
  - set (name := js "image-" ++ string_of_Z (clock w (clock_reads tr))).
    rewrite writes_now.
    set (done := write_ok w (writes tr)).
    exists [Now; WriteFile (name ++ js ".png")
                   (payload_of (default [] (base64 q))) done].
    split; [destruct done; cbn [snd]; by rewrite <- app_assoc|].
    split; [|done].
    exists [], []. cbv zeta. rewrite !app_nil_r. fold name done.
    split; [done|]. by destruct done.
Qed.

Lemma materialiseAll_stored (w : FsWorld) (qs : list Question)
    (tr : list fs_event) :
  exists ev,
    (materialiseAll w qs tr).2 = tr ++ ev
    /\ Forall2 (stored w tr ev) qs (materialiseAll w qs tr).1
    /\ writes ev = length (List.filter embedded qs)
    /\ (Forall (fun q => embedded q = false) qs -> ev = []).
Proof.
  revert tr. induction qs as [|q qs IH]; intros tr.
  { exists []. simpl. by rewrite app_nil_r. }
  cbn [materialiseAll].
  destruct (materialise_stored w q tr) as (ev1 & Htr1 & Hst1 & Hw1 & Hno1).
  destruct (materialise w q tr) as [q' tr1]. cbn [fst snd] in *. subst tr1.
  destruct (IH (tr ++ ev1)) as (ev2 & Htr2 & Hst2 & Hw2 & Hno2).
  destruct (materialiseAll w qs (tr ++ ev1)) as [qs' tr2].
  cbn [fst snd] in *. subst tr2.
  exists (ev1 ++ ev2). split; [by rewrite app_assoc|]. split; [|split].
  - constructor.
    + by apply stored_first.
    + eapply Forall2_impl; [exact Hst2|]. intros x y Hxy.
      by apply stored_later.
  - rewrite writes_app, Hw1, Hw2. simpl. by destruct (embedded q).
  - intros [Hq Hqs]%Forall_cons. by rewrite Hno1, Hno2.
Qed.

Lemma materialiseParts_stored (w : FsWorld) (ps : list Part)
    (tr : list fs_event) :
  Forall (fun p => is_Some (questions p)) ps ->
  exists ps' ev,
    materialiseParts w ps tr = (Ok ps', tr ++ ev)
    /\ Forall2 (fun p p' =>
                  metadata p' = metadata p
                  /\ is_Some (questions p')
                  /\ Forall2 (stored w tr ev) (questions_of p)
                       (questions_of p'))
         ps ps'
    /\ writes ev
       = length (List.filter embedded (concat (map questions_of ps)))
    /\ (Forall (fun q => embedded q = false)
          (concat (map questions_of ps)) ->
        ev = [] /\ ps' = ps).
Proof.
  intros Hall. revert tr.
  induction Hall as [|p ps [qs Hqs] Hall IH]; intros tr.
  { exists [], []. simpl. by rewrite app_nil_r. }
  cbn [materialiseParts]. rewrite Hqs.
  destruct (materialiseAll_stored w qs tr) as (ev1 & Htr1 & Hst1 & Hw1 & Hno1).
  destruct (materialiseAll w qs tr) as [qs' tr1]. cbn [fst snd] in *.
  subst tr1.
  destruct (IH (tr ++ ev1)) as (ps' & ev2 & -> & Hst2 & Hw2 & Hno2).
  assert (questions_of p = qs) as Hp by (unfold questions_of; by rewrite Hqs).
  exists (set_questions (Some qs') p :: ps'), (ev1 ++ ev2).
  split; [by rewrite app_assoc|]. split; [|split].
  - constructor.
    + split; [done|]. split; [by eexists|].
      rewrite Hp. unfold questions_of. cbn [set_questions questions default].
      eapply Forall2_impl; [exact Hst1|]. intros x y Hxy.
      by apply stored_first.
    + eapply Forall2_impl; [exact Hst2|].
      intros x y (Hm & Hq & Hxy). split; [done|]. split; [done|].
      eapply Forall2_impl; [exact Hxy|]. intros a b Hab.
      by apply stored_later.
  - cbn [map concat]. rewrite List.filter_app, length_app, writes_app.
    rewrite Hw1, Hw2. by rewrite Hp.
  - cbn [map concat]. rewrite Hp.
    intros [H1 H2]%Forall_app.
    destruct (Hno2 H2) as [-> ->]. rewrite (Hno1 H1).
    split; [done|]. f_equal.
    assert (qs' = qs) as ->.
    { clear -Hst1 H1. induction Hst1 as [|x y l l' Hxy _ IH]; [done|].
      apply Forall_cons in H1 as [Hx Hl]. unfold stored in Hxy.
      rewrite Hx in Hxy. subst y. by rewrite IH. }
    destruct p. simpl in *. by rewrite Hqs.
Qed.

Lemma embedded_copy (q : Question) :
  embedded (copy_question q) = embedded q.
Proof. reflexivity. Qed.

Lemma copied_parts (ps : list Part) :
  Forall (fun p => is_Some (questions p)) ps ->
  Forall (fun p => is_Some (questions p)) (map copy_part ps)
  /\ concat (map questions_of (map copy_part ps))
     = map copy_question (concat (map questions_of ps)).
Proof.
  induction 1 as [|p ps [qs Hqs] _ [IH1 IH2]]; [done|]. split.
  - constructor; [|done]. unfold copy_part. rewrite Hqs. by eexists.
  - cbn [map concat]. rewrite IH2, questions_of_copy. by rewrite map_app.
Qed.

Lemma filter_embedded_copy (qs : list Question) :
  length (List.filter embedded (map copy_question qs))
  = length (List.filter embedded qs).
Proof.
  induction qs as [|q qs IH]; [done|]. cbn [map List.filter].
  rewrite embedded_copy. destruct (embedded q); simpl; by rewrite IH.
Qed.

(** X19. On a document with its arrays [processBase64Images] returns,
    whatever the file system does: parts and questions keep their
    places, and a question that is not an image with base64 text is the
    deep copy of the input question. For every image question with
    base64 text the events of the stage hold a write of the text
    without its PNG data-URI prefix; the file is named after the
    questionId when the question has one, and otherwise "image-" and
    the value that the clock gives when it is read directly before the
    write; the question has its base64 replaced by the URL of that file
    when the write goes through and is the deep copy when it fails.
    There are exactly as many writes as such questions. *)
Theorem processBase64Images_stores (w : FsWorld) (s : Structure)
    (tr : list fs_event) :
  has_arrays s ->
  exists ps' ev,
    processBase64Images w s tr
      = (Ok (mkStructure (test s) (section s) (Some ps')), tr ++ ev)
    /\ length ps' = length (default [] (parts s))
    /\ (forall k p, default [] (parts s) !! k = Some p ->
          exists p',
            ps' !! k = Some p'
            /\ metadata p' = metadata p
            /\ is_Some (questions p')
            /\ length (questions_of p') = length (questions_of p)
            /\ forall j q, questions_of p !! j = Some q ->
                 exists q',
                   questions_of p' !! j = Some q'
                   /\ stored w tr ev (copy_question q) q')
    /\ writes ev = length (List.filter embedded (all_questions s)).
Proof.
  unfold has_arrays, all_questions, processBase64Images, deep_copy.
  destruct (parts s) as [ps|] eqn:Hps; [|done].
  intros Hall. cbn [parts test section fmap option_fmap option_map default].
  destruct (copied_parts ps Hall) as [Hall' Hcat].
  destruct (materialiseParts_stored w (map copy_part ps) tr Hall')
    as (ps' & ev & -> & Hst & Hw & _).
  exists ps', ev. split; [done|].
  split; [by rewrite <- (Forall2_length _ _ _ Hst), length_map|].
  split.
  - intros k p Hp. cbn [id] in Hp.
    assert (map copy_part ps !! k = Some (copy_part p)) as Hcp
      by (by rewrite list_lookup_fmap, Hp).
    destruct (Forall2_lookup_l _ _ _ _ _ Hst Hcp) as (p' & Hp' & Hm & Hq & Hqs).
    exists p'. split; [done|]. split; [done|]. split; [done|].
    rewrite questions_of_copy in Hqs.
    split; [by rewrite <- (Forall2_length _ _ _ Hqs), length_map|].
    intros j q Hq0.
    assert (map copy_question (questions_of p) !! j = Some (copy_question q))
      as Hcq by (by rewrite list_lookup_fmap, Hq0).
    destruct (Forall2_lookup_l _ _ _ _ _ Hqs Hcq) as (q' & Hq' & Hstored).
    by exists q'.
  - by rewrite Hw, Hcat, filter_embedded_copy.
Qed.

Lemma processBase64Images_stores_witness :
  exists ps' ev,
    processBase64Images disk_ok picture_part []
      = (Ok (mkStructure (test picture_part) (section picture_part)
               (Some ps')), [] ++ ev)
    /\ length ps' = length (default [] (parts picture_part))
    /\ (forall k p, default [] (parts picture_part) !! k = Some p ->
          exists p',
            ps' !! k = Some p'
            /\ metadata p' = metadata p
            /\ is_Some (questions p')
            /\ length (questions_of p') = length (questions_of p)
            /\ forall j q, questions_of p !! j = Some q ->
                 exists q',
                   questions_of p' !! j = Some q'
                   /\ stored disk_ok [] ev (copy_question q) q')
    /\ writes ev = length (List.filter embedded (all_questions picture_part)).
Proof.
  apply (processBase64Images_stores disk_ok picture_part []).
  unfold has_arrays. simpl. repeat constructor. by eexists.
Defined.

(** X20. On a document with its arrays in which no image question
    carries base64 text, [processBase64Images] touches neither the
    clock nor the file system and returns the deep copy of the
    document. *)
Theorem processBase64Images_nothing_embedded (w : FsWorld) (s : Structure)
    (tr : list fs_event) :
  has_arrays s ->
  Forall (fun q => embedded q = false) (all_questions s) ->
  processBase64Images w s tr = (Ok (deep_copy s), tr).
Proof.
  unfold has_arrays, all_questions, processBase64Images.
  destruct (parts s) as [ps|] eqn:Hps; [|done].
  intros Hall Hnone. unfold deep_copy at 1 2. rewrite Hps.
  cbn [parts test section fmap option_fmap option_map default] in *.
  destruct (copied_parts ps Hall) as [Hall' Hcat].
  destruct (materialiseParts_stored w (map copy_part ps) tr Hall')
    as (ps' & ev & -> & _ & _ & Hno).
  destruct Hno as [-> ->].
  - rewrite Hcat. apply Forall_forall. intros cq Hcq.
    apply list_elem_of_fmap in Hcq as (q & -> & Hq).
    rewrite embedded_copy. by apply (proj1 (Forall_forall _ _) Hnone).
  - rewrite app_nil_r. unfold deep_copy. by rewrite Hps.
Qed.

Lemma processBase64Images_nothing_embedded_witness :
  processBase64Images disk_ok map_part [] = (Ok (deep_copy map_part), []).
Proof.
  apply (processBase64Images_nothing_embedded disk_ok map_part []).
  - unfold has_arrays. simpl. repeat constructor. by eexists.
  - unfold all_questions. simpl. by repeat constructor.
Defined.

(* ================================================================== *)
(** ** The completion loop of the extraction endpoints *)
(* ================================================================== *)

Section Completion.

Context {J : Type} (parse : jsstring -> option J)
        (repair : option (jsstring -> option jsstring))
        (answers : nat -> completion) (label : jsstring).

Lemma apiFailed_message (msg : jsstring) :
  apiFailed msg = Error (js "OpenAI API failed after 3 attempts: " ++ msg).
Proof. reflexivity. Qed.

Lemma invalidJson_message (msg : jsstring) :
  invalidJson msg
  = js "Invalid JSON response from AI after 3 attempts: " ++ msg.
Proof. reflexivity. Qed.

(** A non-empty text on which all four attempts fail. *)
Lemma parseJsonSafely_fails (raw context : jsstring) :
  raw <> [] ->
  Forall (fun a => a = None) (attempts parse repair raw) ->
  truthy_str (Some raw) = true
  /\ parseJsonSafely J parse repair raw context
     = Throw (Error (failure_message context raw)).
Proof.
  intros Hne Hall. split; [by destruct raw|].
  rewrite parseJsonSafely_nonempty by done.
  rewrite attempts_eq in Hall.
  apply Forall_cons in Hall as [-> Hall].
  apply Forall_cons in Hall as [-> Hall].
  apply Forall_cons in Hall as [-> Hall].
  by apply Forall_cons in Hall as [-> _].
Qed.

Local Opaque parseJsonSafely string_of_Z apiFailed invalidJson.

Ltac step H :=
  match type of H with
  | context [answers ?n] =>
      let E := fresh "E" in
      destruct (answers n) as [?msg|[[|? ?raw]|]] eqn:E
  | context [parseJsonSafely ?J ?p ?r ?raw ?ctx] =>
      let E := fresh "P" in
      destruct (parseJsonSafely J p r raw ctx) as [?v|?e] eqn:E
  end;
  cbn [truthy_str default] in H.

(** X21. The completion loop asks the model at least once and at most
    three times and ends with a request, not with a wait; it waits only
    one second (after a reply that does not parse) or two seconds (after
    a failed call). It ends with the structure parsed from the reply to
    its last request, or, after the third request, with an error whose
    message starts with "OpenAI API failed after 3 attempts: ", whatever
    went wrong on that attempt: a failed call, an empty reply or a reply
    that does not parse. *)
Theorem requestStructure_outcome :
  let out := requestStructure parse repair answers label in
  (1 <= requests out.2 <= 3)%nat
  /\ last out.2 = Some Request
  /\ (forall ms, Wait ms ∈ out.2 -> ms = 1000 \/ ms = 2000)
  /\ match out.1 with
     | Ok (Some v) =>
         exists raw,
           answers (requests out.2 - 1) = Completed (Some raw)
           /\ parseJsonSafely J parse repair raw
                (label ++ string_of_Z (Z.of_nat (requests out.2)))
              = Ok v
     | Ok None => False
     | Throw e =>
         requests out.2 = 3%nat
         /\ exists msg,
              e = Error (js "OpenAI API failed after 3 attempts: " ++ msg)
     end.
Proof.
  assert (forall tr : list llm_event,
            (forall ms, Wait ms ∈ tr -> ms = 1000 \/ ms = 2000)
            <-> Forall (fun e => match e with
                                 | Wait ms => ms = 1000 \/ ms = 2000
                                 | Request => True
                                 end) tr) as Hwaits.
  { intros tr. rewrite Forall_forall. split.
    - intros H [|ms] Hin; [done | by apply H].
    - intros H ms Hin. by apply (H (Wait ms)). }
  cbn zeta.
  destruct (requestStructure parse repair answers label) as [r tr] eqn:Hout.
  cbn [fst snd]. rewrite Hwaits.
  unfold requestStructure, maxAttempts in Hout. cbn [completionLoop] in Hout.
  unfold maxAttempts in Hout.
  cbn [Nat.sub app requests List.filter is_request length] in Hout.
  change (bool_decide (1 = 3)%nat) with false in Hout.
  change (bool_decide (2 = 3)%nat) with false in Hout.
  change (bool_decide (3 = 3)%nat) with true in Hout.
  cbv iota in Hout.
  repeat step Hout;
    injection Hout as <- <-;
    cbn [Nat.sub app requests List.filter is_request length last];
    (split; [lia|]); (split; [reflexivity|]);
    (split; [repeat first [ apply Forall_nil
                          | apply Forall_cons; split;
                            [first [exact I | by left | by right]|] ]|]).
  all: first [ eexists; split; eassumption
             | split; [reflexivity|]; rewrite apiFailed_message; by eexists ].
Qed.

(** X22. When each of the three replies is a non-empty text on which
    every attempt of [parseJsonSafely] fails, the loop asks three times,
    one second apart, and throws an error that wraps the parser's
    message twice: "OpenAI API failed after 3 attempts: Invalid JSON
    response from AI after 3 attempts: Failed to parse", the label and
    the attempt number 3, and the excerpt of the third reply. *)
Theorem requestStructure_unparseable (raws : nat -> jsstring) :
  (forall i, (i < 3)%nat ->
     answers i = Completed (Some (raws i))
     /\ raws i <> []
     /\ Forall (fun a => a = None) (attempts parse repair (raws i))) ->
  requestStructure parse repair answers label
  = (Throw (Error (js "OpenAI API failed after 3 attempts: "
                   ++ js "Invalid JSON response from AI after 3 attempts: "
                   ++ js "Failed to parse " ++ label ++ js "3"
                   ++ js " JSON after all repair attempts. Raw response: "
                   ++ excerpt (raws 2%nat))),
     [Request; Wait 1000; Request; Wait 1000; Request]).
Proof.
  intros H.
  assert (forall i ctx, (i < 3)%nat ->
            truthy_str (Some (raws i)) = true
            /\ parseJsonSafely J parse repair (raws i) ctx
               = Throw (Error (failure_message ctx (raws i)))) as Hfail.
  { intros i ctx Hi. destruct (H i Hi) as (_ & Hne & Hall).
    by apply parseJsonSafely_fails. }
  unfold requestStructure, maxAttempts. cbn [completionLoop].
  unfold maxAttempts. cbn [Nat.sub app requests List.filter is_request length].
  destruct (H 0%nat ltac:(lia)) as (-> & _). cbn [default id].
  destruct (Hfail 0%nat (label ++ string_of_Z (Z.of_nat 1)) ltac:(lia))
    as [-> ->].
  rewrite (bool_decide_eq_false_2 (1 = 3)%nat) by done.
  cbn [Nat.sub app requests List.filter is_request length].
  destruct (H 1%nat ltac:(lia)) as (-> & _). cbn [default id].
  destruct (Hfail 1%nat (label ++ string_of_Z (Z.of_nat 2)) ltac:(lia))
    as [-> ->].
  rewrite (bool_decide_eq_false_2 (2 = 3)%nat) by done.
  cbn [Nat.sub app requests List.filter is_request length].
  destruct (H 2%nat ltac:(lia)) as (-> & _). cbn [default id].
  destruct (Hfail 2%nat (label ++ string_of_Z (Z.of_nat 3)) ltac:(lia))
    as [-> ->].
  rewrite (bool_decide_eq_true_2 (3 = 3)%nat) by done.
  f_equal. rewrite apiFailed_message, invalidJson_message. f_equal.
  f_equal. f_equal. cbn [message].
  unfold failure_message, truncatedResponse, excerpt, substring0.
  destruct (200 <? length (raws 2%nat))%nat eqn:Hlen.
  - by rewrite <- !app_assoc.
  - apply Nat.ltb_ge in Hlen. rewrite app_nil_r, take_ge by done.
    by rewrite <- !app_assoc.
Qed.

Local Transparent parseJsonSafely string_of_Z apiFailed invalidJson.

End Completion.

Lemma requestStructure_unparseable_witness :
  requestStructure parse_empty_object None
    (fun _ => Completed (Some (js "oops"))) (js "GPT-4 attempt ")
  = (Throw (Error (js "OpenAI API failed after 3 attempts: "
                   ++ js "Invalid JSON response from AI after 3 attempts: "
                   ++ js "Failed to parse " ++ js "GPT-4 attempt " ++ js "3"
                   ++ js " JSON after all repair attempts. Raw response: "
                   ++ excerpt (js "oops"))),
     [Request; Wait 1000; Request; Wait 1000; Request]).
Proof.
  apply (requestStructure_unparseable parse_empty_object None
           (fun _ => Completed (Some (js "oops"))) (js "GPT-4 attempt ")
           (fun _ => js "oops")).
  intros i Hi. split; [reflexivity|]. split; [discriminate|].
  vm_compute. repeat constructor.
Defined.

(* ================================================================== *)
(** ** The pipeline as the endpoints run it *)
(* ================================================================== *)

Lemma copy_prop_fix (o : option jsprop) : copy_prop (copy_prop o) = copy_prop o.
Proof. by destruct o as [[]|]. Qed.

Lemma copy_question_fix (q : Question) :
  copy_question (copy_question q) = copy_question q.
Proof.
  destruct q. unfold copy_question. simpl. by rewrite !copy_prop_fix.
Qed.

Lemma copy_part_fix (p : Part) : copy_part (copy_part p) = copy_part p.
Proof.
  destruct p as [n i r [qs|] e]; [|done]. unfold copy_part, set_questions.
  cbn [part instructions questionsRange questions extra fmap option_fmap
       option_map].
  do 2 f_equal. induction qs as [|q qs IH]; [done|].
  cbn [map]. by rewrite copy_question_fix, IH.
Qed.

(** Deep copies of a deep copy change nothing more. *)
Lemma copies_once (n : nat) (ps : list Part) :
  Nat.iter (S n) (map copy_part) ps = map copy_part ps.
Proof.
  induction n as [|n IH]; [done|].
  change (Nat.iter (S (S n)) (map copy_part) ps)
    with (map copy_part (Nat.iter (S n) (map copy_part) ps)).
  rewrite IH. clear. induction ps as [|p ps IH]; [done|].
  cbn [map]. by rewrite copy_part_fix, IH.
Qed.

Section Stable.

Variable P : Question -> Prop.

Lemma each_question_arrays (s : Structure) :
  each_question P s -> has_arrays s.
Proof.
  intros (ps & Hps & Hall). unfold has_arrays. rewrite Hps.
  eapply Forall_impl; [exact Hall|]. intros p (qs & Hqs & _). by eexists.
Qed.

Lemma follows_refl (s : Structure) : each_question P s -> follows P s s.
Proof.
  intros (ps & Hps & Hall). split; [done|]. split; [done|].
  exists ps, ps. split; [done|]. split; [done|].
  apply Forall_Forall2_diag. eapply Forall_impl; [exact Hall|].
  intros p Hp. by split.
Qed.

Lemma follows_trans (s1 s2 s3 : Structure) :
  follows P s1 s2 -> follows P s2 s3 -> follows P s1 s3.
Proof.
  intros (Ht & Hs & ps1 & ps2 & Hp1 & Hp2 & H12)
         (Ht' & Hs' & ps2' & ps3 & Hp2' & Hp3 & H23).
  rewrite Hp2 in Hp2'. injection Hp2' as <-.
  split; [congruence|]. split; [congruence|].
  exists ps1, ps3. split; [done|]. split; [done|].
  clear -H12 H23. revert ps3 H23.
  induction H12 as [|p1 p2 l1 l2 [Hm _] _ IH]; intros ps3 H23.
  - inversion H23. constructor.
  - inversion H23 as [|? p3 ? l3 [Hm' Hq] H23']; subst.
    constructor; [|by apply IH].
    split; [congruence | done].
Qed.

Lemma follows_each (s s' : Structure) : follows P s s' -> each_question P s'.
Proof.
  intros (_ & _ & ps & ps' & _ & Hps' & H). exists ps'. split; [done|].
  clear -H. induction H as [|p p' l l' [_ Hq] _ IH]; by constructor.
Qed.

(** A stage that maps every part with a function that keeps the
    properties of the part and property [P] of the questions. *)
Lemma mapped_follows (s : Structure) (f : Part -> Part) :
  (forall p qs, questions p = Some qs -> Forall P qs ->
     metadata (f p) = metadata p
     /\ exists qs', questions (f p) = Some qs' /\ Forall P qs') ->
  each_question P s ->
  follows P s
    (mkStructure (test s) (section s)
       (Some (map f (default [] (parts s))))).
Proof.
  intros Hf (ps & Hps & Hall). split; [done|]. split; [done|].
  exists ps, (map f ps). rewrite Hps. split; [done|]. split; [done|].
  apply Forall2_fmap_r, Forall_Forall2_diag.
  eapply Forall_impl; [exact Hall|]. intros p (qs & Hqs & HP).
  by apply (Hf p qs).
Qed.

Hypothesis HP : stable P.

Lemma stable_copies (qs : list Question) :
  Forall P qs -> Forall P (map copy_question qs).
Proof.
  intros H. apply Forall_fmap. eapply Forall_impl; [exact H|].
  intros q Hq. by apply HP.
Qed.

Lemma place_map_Forall (m : Question) (qs : list Question) :
  P m -> Forall P qs -> Forall P (place_map m qs).
Proof.
  intros Hm. induction 1 as [|q qs Hq Hqs IH]; simpl; [done|].
  destruct (type_is "image" q); [by constructor|].
  destruct (type_is "map-labelling" q); by repeat constructor.
Qed.

Lemma injectImageObjects_follows (s : Structure)
    (imgs : list UploadedImage) :
  each_question P s ->
  exists s', injectImageObjects s imgs = Ok s' /\ follows P s s'.
Proof.
  intros Hs. destruct imgs as [|img imgs].
  { exists s. split; [done | by apply follows_refl]. }
  pose proof Hs as (ps & Hps & _).
  rewrite (injectImageObjects_ok s ps) by done.
  eexists. split; [reflexivity|].
  replace ps with (default [] (parts s)) by (by rewrite Hps).
  apply mapped_follows; [|done].
  intros p qs Hqs Hall. split; [done|].
  unfold injectPart, copy_part. rewrite Hqs.
  cbn [set_questions questions part fmap option_fmap option_map default].
  eexists. split; [reflexivity|].
  destruct (find isMap (img :: imgs)) as [mapImage|] eqn:Hfind.
  - rewrite (injectLoop_place _ _ _ mapImage) by done.
    apply place_map_Forall; [apply HP | by apply stable_copies].
  - rewrite injectLoop_none by done. by apply stable_copies.
Qed.

Lemma stored_keeps (w : FsWorld) (tr ev : list fs_event)
    (q q' : Question) :
  stored w tr ev q q' -> P q -> P q'.
Proof.
  unfold stored. destruct (embedded q); [|by intros ->].
  intros (before & after & _ & ->) Hq.
  destruct (write_ok w _); [by apply HP | done].
Qed.

Lemma stored_all (w : FsWorld) (tr ev : list fs_event)
    (qs qs' : list Question) :
  Forall2 (stored w tr ev) qs qs' -> Forall P qs -> Forall P qs'.
Proof.
  induction 1 as [|q q' l l' Hq _ IH]; [done|].
  intros [HPq HPl]%Forall_cons. constructor; [|by apply IH].
  by eapply stored_keeps.
Qed.

Lemma processBase64Images_follows (w : FsWorld) (s : Structure)
    (tr : list fs_event) :
  each_question P s ->
  exists s' tr',
    processBase64Images w s tr = (Ok s', tr') /\ follows P s s'.
Proof.
  intros (ps & Hps & Hall).
  unfold processBase64Images, deep_copy. rewrite Hps.
  cbn [parts test section fmap option_fmap option_map].
  assert (Forall (fun p => is_Some (questions p)) ps) as Harr.
  { eapply Forall_impl; [exact Hall|]. intros p (qs & Hqs & _). by eexists. }
  destruct (copied_parts ps Harr) as [Harr' _].
  destruct (materialiseParts_stored w (map copy_part ps) tr Harr')
    as (ps' & ev & -> & Hst & _ & _).
  eexists _, _. split; [reflexivity|]. split; [done|]. split; [done|].
  exists ps, ps'. split; [done|]. split; [done|].
  revert Hst Hall. clear -HP. generalize ps'. clear ps'.
  induction ps as [|p l IH]; intros ps' Hst Hall.
  { inversion Hst. constructor. }
  cbn [map] in Hst.
  inversion Hst as [|? p' ? l' (Hm & [qs' Hqs'] & Hq) Hst']; subst.
  apply Forall_cons in Hall as [(qs & Hqs & HPqs) Hall].
  constructor; [|by apply IH].
  split; [done|]. exists qs'. split; [done|].
  rewrite questions_of_copy in Hq. unfold questions_of in Hq.
  rewrite Hqs, Hqs' in Hq. cbn [default id] in Hq.
  eapply stored_all; [exact Hq|]. by apply stable_copies.
Qed.

Lemma linkMatchingQuestions_follows (s : Structure) :
  each_question P s ->
  exists s', linkMatchingQuestions s = Ok s' /\ follows P s s'.
Proof.
  intros Hs. pose proof Hs as (ps & Hps & _).
  rewrite (linkMatchingQuestions_ok s ps) by done.
  eexists. split; [reflexivity|].
  replace ps with (default [] (parts s)) by (by rewrite Hps).
  apply mapped_follows; [|done].
  intros p qs Hqs Hall. split; [unfold linkPart, copy_part; by rewrite Hqs|].
  unfold linkPart, copy_part. rewrite Hqs.
  cbn [set_questions questions fmap option_fmap option_map default].
  eexists. split; [reflexivity|].
  apply Forall_fmap. apply stable_copies in Hall.
  eapply Forall_impl; [exact Hall|]. intros q Hq. simpl.
  destruct (_ && _); [by apply HP | done].
Qed.

Lemma standardizeQuestionIds_follows (s : Structure) :
  each_question P s ->
  exists s', standardizeQuestionIds s = Ok s' /\ follows P s s'.
Proof.
  intros Hs. pose proof Hs as (ps & Hps & Hall).
  rewrite (standardizeQuestionIds_ok s ps); [|done|].
  2: { eapply Forall_impl; [exact Hall|]. intros p (qs & Hqs & _).
       by eexists. }
  eexists. split; [reflexivity|].
  replace ps with (default [] (parts s)) by (by rewrite Hps).
  apply mapped_follows; [|done].
  intros p qs Hqs HPqs. split; [done|].
  eexists. split; [reflexivity|].
  unfold questions_of. rewrite Hqs. cbn [default].
  apply Forall_fmap. eapply Forall_impl; [exact HPqs|].
  intros q Hq. simpl. by apply HP, HP.
Qed.

End Stable.

Lemma mapQuestion_not_counted t n img :
  counted (mapQuestion t n img) = false.
Proof.
  unfold counted, type_is, mapQuestion. cbn [type].
  rewrite (bool_decide_eq_true_2 (Some (js "image") = Some (js "image")))
    by done.
  apply andb_false_r.
Qed.

Lemma stable_ready : stable ready.
Proof.
  unfold stable. split; [|split; [|split; [|split]]].
  - intros q H Hc. apply (H Hc).
  - intros q v H Hc. apply (H Hc).
  - intros q H. unfold ready. rewrite standardizeQuestion_eq. intros Hc.
    destruct (H Hc) as (Hid & Hty & Hii & Han).
    cbn [questionId type isInteractive answer set_questionId
         set_numberRange].
    by rewrite hyphenate_truthy.
  - intros q u H Hc. apply (H Hc).
  - intros t n img Hc. by rewrite mapQuestion_not_counted in Hc.
Qed.

Lemma stable_solid : stable solid.
Proof.
  unfold stable. split; [|split; [|split; [|split]]].
  - intros q H Hc. destruct (H Hc) as [Ht Hn].
    unfold copy_question. cbn [inputType set_inputType set_answerConstraints].
    by destruct (inputType q) as [[]|].
  - intros q v H Hc. apply (H Hc).
  - intros q H. unfold solid. rewrite standardizeQuestion_eq. intros Hc.
    apply (H Hc).
  - intros q u H Hc. apply (H Hc).
  - intros t n img Hc. by rewrite mapQuestion_not_counted in Hc.
Qed.

Lemma stable_and (P Q : Question -> Prop) :
  stable P -> stable Q -> stable (fun q => P q /\ Q q).
Proof.
  intros (P1 & P2 & P3 & P4 & P5) (Q1 & Q2 & Q3 & Q4 & Q5).
  unfold stable. split; [|split; [|split; [|split]]].
  - intros q [? ?]. split; auto.
  - intros q v [? ?]. split; auto.
  - intros q [? ?]. split; auto.
  - intros q u [? ?]. split; auto.
  - intros t n img. split; auto.
Qed.


Lemma own_str (table : list (string * string)) (key : jsstring) (v : jsprop) :
  own table key = Some v -> exists s, v = PStr s.
Proof.
  induction table as [|[k x] table IH]; simpl; [done|].
  destruct (bool_decide (key = js k)); [|done].
  intros [= <-]. by eexists.
Qed.

Lemma getInputTypeForQuestionType_data (t : option jsstring) :
  inherited (default (js "undefined") t) <> Some PFunction ->
  getInputTypeForQuestionType t <> PFunction.
Proof.
  intros Hinh. unfold getInputTypeForQuestionType, lookup_literal.
  destruct (own typeMap (default (js "undefined") t)) as [v|] eqn:E.
  - apply own_str in E as [s ->].
    by destruct (truthy_prop (Some (PStr s))).
  - destruct (inherited (default (js "undefined") t)) as [[s| |]|];
      simpl; try done. by destruct s.
Qed.

Section Stage2Base.

Variable toLowerCase : jsstring -> jsstring.

Lemma autoDetected_data (q : Question) :
  getInputTypeForQuestionType (Some (autoDetectQuestionType toLowerCase q))
  <> PFunction.
Proof.
  destruct (autoDetectQuestionType_table toLowerCase q) as (_ & H & _).
  cbv zeta in H. apply own_str in H as [s Hs]. by rewrite Hs.
Qed.

Lemma fixQuestion_ready (t : jsstring) (n : Z) (j : nat) (q : Question) :
  ready (fixQuestion toLowerCase t n j q).
Proof.
  intros _.
  by destruct (fixQuestion_settled toLowerCase t n j q)
    as (Hid & _ & Hty & _ & _ & Hii & Han).
Qed.

Lemma fixQuestion_solid (t : jsstring) (n : Z) (j : nat) (q : Question) :
  ordinary q -> solid (fixQuestion toLowerCase t n j q).
Proof.
  destruct q as [qid num ty it ac ii an dv nr tx qt qi tl op b64 u h].
  unfold ordinary, solid, fixQuestion. qfields. intros [Hit Hty] _.
  unfold defaultQuestionId; qfields;
    destruct (truthy_str qid) eqn:Hid; qfields;
    unfold defaultNumber; qfields;
    destruct (truthy_num num) eqn:Hnum; qfields;
    unfold defaultType; qfields;
    destruct (truthy_str ty) eqn:Htty; qfields;
    unfold defaultInputType; qfields;
    destruct (truthy_prop it) eqn:Htit; qfields;
    unfold defaultAnswerConstraints; qfields;
    destruct (truthy_prop ac) eqn:Hac; qfields;
    unfold defaultIsInteractive; qfields;
    destruct ii as [b|]; qfields;
    unfold defaultAnswer; qfields;
    destruct an as [a|]; qfields;
    first [ split; [exact Htit | exact Hit]
          | split; [apply getInputTypeForQuestionType_truthy|];
            intros [= Hf]; revert Hf;
            first [ by apply getInputTypeForQuestionType_data
                  | apply autoDetected_data ] ].
Qed.

Lemma fixPart_labelled (t : jsstring) (k : nat) (p : Part) :
  labelled (fixPart toLowerCase t k p).
Proof.
  unfold labelled, fixPart. cbn [part instructions questionsRange].
  split; [|split].
  - destruct (truthy_num (part p)) eqn:E.
    + destruct (part p) as [z|]; [|done]. done.
    + simpl. apply negb_true_iff, Z.eqb_neq. lia.
  - by destruct (truthy_str (instructions p)) eqn:E.
  - destruct (truthy_str (questionsRange p)) eqn:E; [done|].
    by apply truthy_str_app_r.
Qed.

Lemma stage2_each (Q P : Question -> Prop) (s : Structure) :
  (forall t n j q, Q q -> P (fixQuestion toLowerCase t n j q)) ->
  Forall Q (all_questions s) ->
  each_question P (validateAndFixStructure toLowerCase s).
Proof.
  intros HQP HQ. unfold validateAndFixStructure, each_question.
  eexists. split; [reflexivity|].
  apply Forall_forall. intros p' Hp'.
  apply list_elem_of_lookup in Hp' as [k Hk].
  apply list_lookup_imap_Some in Hk as (p0 & Hp0 & ->).
  unfold fixPart. cbn [questions]. eexists. split; [reflexivity|].
  apply Forall_forall. intros q' Hq'.
  apply list_elem_of_lookup in Hq' as [j Hj].
  apply list_lookup_imap_Some in Hj as (q0 & Hq0 & ->).
  apply HQP. apply (proj1 (Forall_forall _ _) HQ).
  unfold all_questions. apply list_elem_of_In, in_concat.
  exists (questions_of p0). split.
  - apply in_map, list_elem_of_In. by apply list_elem_of_lookup_2 in Hp0.
  - apply list_elem_of_In. by apply list_elem_of_lookup_2 in Hq0.
Qed.

End Stage2Base.


Lemma renumberQuestion_counted test partNo p i q :
  counted (renumberQuestion test partNo p i q) = counted q.
Proof. unfold counted, type_is. by rewrite renumberQuestion_type. Qed.

Lemma renumberQuestion_rest test partNo p i q :
  inputType (renumberQuestion test partNo p i q) = inputType q
  /\ isInteractive (renumberQuestion test partNo p i q) = isInteractive q
  /\ answer (renumberQuestion test partNo p i q) = answer q.
Proof.
  unfold renumberQuestion.
  destruct (_ && _); [|done]. simpl. by destruct (truthy_str _).
Qed.

Lemma renumberQuestion_questionId test partNo p i q :
  counted q = true ->
  truthy_str (questionId q) = true ->
  questionId (renumberQuestion test partNo p i q)
  = Some (js "listening-" ++ show_str test ++ js "-" ++ show_num partNo
          ++ js "-" ++ string_of_Z (10 * Z.of_nat p + Z.of_nat i + 1)).
Proof.
  unfold counted, renumberQuestion. intros -> Hid.
  cbn [set_number questionId]. rewrite Hid.
  cbn [set_questionId questionId].
  by replace (Z.of_nat p * 10 + Z.of_nat i + 1)
    with (10 * Z.of_nat p + Z.of_nat i + 1) by lia.
Qed.

Lemma counted_types (q : Question) :
  counted q = true ->
  type q <> Some (js "divider") /\ type q <> Some (js "image").
Proof.
  unfold counted, type_is. intros [Hd Hi]%andb_true_iff.
  apply negb_true_iff, bool_decide_eq_false in Hd.
  apply negb_true_iff, bool_decide_eq_false in Hi. done.
Qed.

Lemma labelled_metadata (p p' : Part) :
  metadata p' = metadata p -> labelled p -> labelled p'.
Proof.
  destruct p, p'. unfold metadata, labelled. simpl. by intros [= -> -> -> ->].
Qed.

Section Endpoint.

Variable toLowerCase : jsstring -> jsstring.
Variable w : FsWorld.

(** The pipeline up to stage 6, for a property that the stages keep. *)
Lemma runStages_run (P : Question -> Prop) (parsed : Structure)
    (uploadedImages : list UploadedImage) :
  let s2 := validateAndFixStructure toLowerCase (merged_document parsed) in
  stable P ->
  each_question P s2 ->
  exists s6 tr,
    follows P s2 s6
    /\ runStages toLowerCase w parsed uploadedImages
       = (s7 ← enforceQuestionNumbering s6;
          v ← validateRequiredFields s7;
          Ok (mkExtracted s7 (map copy_part (default [] (parts s2))) v),
          tr).
Proof.
  intros s2 HP H2. unfold runStages. fold (merged_document parsed).
  fold s2.
  assert (Nat.iter match uploadedImages with
                   | [] => 3%nat
                   | _ :: _ => 4%nat
                   end (map copy_part) (default [] (parts s2))
          = map copy_part (default [] (parts s2))) as ->.
  { destruct uploadedImages; apply copies_once. }
  destruct (injectImageObjects_follows P HP s2 uploadedImages H2)
    as (s3 & -> & F3).
  pose proof (follows_each P _ _ F3) as H3.
  destruct (processBase64Images_follows P HP w s3 [] H3)
    as (s4 & tr & -> & F4).
  pose proof (follows_each P _ _ F4) as H4.
  destruct (linkMatchingQuestions_follows P HP s4 H4) as (s5 & -> & F5).
  cbn [mbind result_bind].
  pose proof (follows_each P _ _ F5) as H5.
  destruct (standardizeQuestionIds_follows P HP s5 H5) as (s6 & -> & F6).
  cbn [mbind result_bind].
  exists s6, tr. split; [|done].
  eapply follows_trans; [|exact F6].
  eapply follows_trans; [|exact F5].
  eapply follows_trans; [exact F3 | exact F4].
Qed.

(** The whole pipeline: what it returns, in terms of the parts that
    stage 2 has produced and the parts that stage 6 hands to stage 7. *)
Lemma runStages_result (P : Question -> Prop) (parsed : Structure)
    (uploadedImages : list UploadedImage) :
  let s2 := validateAndFixStructure toLowerCase (merged_document parsed) in
  stable P ->
  each_question P s2 ->
  exists ps6 v tr,
    let s7 := mkStructure (Some (js "1")) (Some (js "Listening"))
                (Some (imap (renumberPart (Some (js "1"))) ps6)) in
    runStages toLowerCase w parsed uploadedImages
    = (Ok (mkExtracted s7 (map copy_part (default [] (parts s2))) v), tr)
    /\ valid v = complete s7
    /\ (valid v = true <-> errors v = [])
    /\ Forall2 (fun p p' =>
                  metadata p' = metadata p
                  /\ exists qs', questions p' = Some qs' /\ Forall P qs')
         (default [] (parts s2)) ps6.
Proof.
  intros s2 HP H2.
  destruct (runStages_run P parsed uploadedImages HP H2)
    as (s6 & tr & (Ht & Hs & ps2 & ps6 & Hp2 & Hp6 & Hall) & ->).
  fold s2 in Ht, Hs, Hp2.
  assert (test s6 = Some (js "1")) as Ht6 by (by rewrite Ht).
  assert (section s6 = Some (js "Listening")) as Hs6 by (by rewrite Hs).
  assert (Forall (fun p => is_Some (questions p)) ps6) as Harr.
  { clear -Hall. induction Hall as [|p p' l l' [_ (qs & Hqs & _)] _ IH];
      constructor; [by eexists | done]. }
  rewrite (enforceQuestionNumbering_ok s6 ps6 Hp6 Harr).
  rewrite Ht6, Hs6. cbn [mbind result_bind].
  set (s7 := mkStructure (Some (js "1")) (Some (js "Listening"))
               (Some (imap (renumberPart (Some (js "1"))) ps6))).
  pose proof (validateRequiredFields_spec s7) as Hv.
  pose proof (validateRequiredFields_valid s7) as Hvalid.
  destruct (validateRequiredFields s7) as [v|e].
  - destruct Hv as [_ Hv]. exists ps6, v, tr.
    split; [done|]. split; [done|]. split; [by apply Hvalid|].
    by rewrite Hp2.
  - destruct Hv as [_ Hno]. destruct Hno.
    unfold has_arrays, s7. cbn [parts].
    apply Forall_forall. intros p' Hp'.
    apply list_elem_of_lookup in Hp' as [k Hk].
    apply list_lookup_imap_Some in Hk as (p0 & _ & ->). by eexists.
Qed.

Lemma stage2_ready (s : Structure) :
  each_question ready (validateAndFixStructure toLowerCase s).
Proof.
  apply (stage2_each toLowerCase (fun _ => True)).
  - intros t n j q _. apply fixQuestion_ready.
  - by apply Forall_true.
Qed.

Lemma stage2_labelled (s : Structure) :
  Forall labelled (default [] (parts (validateAndFixStructure toLowerCase s))).
Proof.
  unfold validateAndFixStructure. cbn [parts default].
  apply Forall_forall. intros p' Hp'.
  apply list_elem_of_lookup in Hp' as [k Hk].
  apply list_lookup_imap_Some in Hk as (p0 & _ & ->).
  apply fixPart_labelled.
Qed.

Lemma entryObjects_cases (parsed : option Parsed) :
  if well_formed parsed
  then entryObjects parsed = Ok (document_of parsed)
  else entryObjects parsed = Throw TypeError.
Proof.
  destruct parsed as [d|]; [|done].
  unfold well_formed, entryObjects, document_of, objects_of, parts_of,
    has_null.
  destruct (d_parts d) as [| |entries]; [done | done |].
  pose proof (partObjects_cases entries) as H.
  by destruct (null_entry entries); rewrite H.
Qed.




End Endpoint.




Section Writing.

Variable toLowerCase : jsstring -> jsstring.
Variable w : FsWorld.


End Writing.
